(** * Movie recommender: extraction pipeline and genre matching

    A shallow embedding of [movie_recommender.py].  Python text is modelled
    as a list of characters ([list ascii]); a character stands for the code
    point of its number, so the texts are those over U+0000 to U+00FF
    (Latin-1), and on them the character classes are the ones of Python 3
    ([str.isspace], [str.lower], and [\s], [\d], [\w], [\b] of [re] on
    [str] patterns). *)

From Stdlib Require Import Ascii String QArith Qcanon.
From stdpp Require Import base list strings gmap sorting.

Local Open Scope nat_scope.
Local Open Scope list_scope.

(** ** Text primitives *)

Abbreviation pystr := (list ascii).

Definition str (s : string) : pystr := list_ascii_of_string s.

Definition code (c : ascii) : nat := nat_of_ascii c.

Definition between (lo hi : nat) (c : ascii) : bool :=
  (lo <=? code c) && (code c <=? hi).

(** [str.isspace], the characters [str.strip] removes and the class [\s]:
    TAB..CR, FS..US, the space, NEL (U+0085) and the no-break space
    (U+00A0). *)
Definition is_space (c : ascii) : bool :=
  between 9 13 c || between 28 31 c || (code c =? 32)
  || (code c =? 133) || (code c =? 160).

(** The class [\d]: the decimal digits, of which the range has only 0 to 9. *)
Definition is_digit (c : ascii) : bool := between 48 57 c.

(** The characters [str.lower] changes: A to Z, and the capital letters
    U+00C0 to U+00DE but for the multiplication sign U+00D7. *)
Definition is_upper (c : ascii) : bool :=
  between 65 90 c || between 192 214 c || between 216 222 c.

(** The class [\w]: the underscore and the characters [str.isalnum] holds
    of; beyond ASCII these are the letters (U+00AA, U+00B5, U+00BA, U+00C0
    to U+00FF but for the signs U+00D7 and U+00F7), the superscript digits
    (U+00B2, U+00B3, U+00B9) and the fractions (U+00BC to U+00BE). *)
Definition is_word (c : ascii) : bool :=
  is_digit c || between 65 90 c || (code c =? 95) || between 97 122 c
  || (code c =? 170) || between 178 179 c || (code c =? 181)
  || between 185 186 c || between 188 190 c
  || between 192 214 c || between 216 246 c || between 248 255 c.

(** The class [.] (no DOTALL flag): anything but a line feed. *)
Definition not_newline (c : ascii) : bool := negb (code c =? 10).

(** [c.lower()]: 32 code points up for the characters that have a lower
    case form. *)
Definition lower_char (c : ascii) : ascii :=
  if is_upper c then ascii_of_nat (code c + 32) else c.

(** [s.lower()] *)
Definition lower (s : pystr) : pystr := map lower_char s.

Fixpoint drop_while (p : ascii -> bool) (s : pystr) : pystr :=
  match s with
  | [] => []
  | c :: s' => if p c then drop_while p s' else s
  end.

Fixpoint take_while (p : ascii -> bool) (s : pystr) : pystr :=
  match s with
  | [] => []
  | c :: s' => if p c then c :: take_while p s' else []
  end.

(** [s.strip()] *)
Definition strip (s : pystr) : pystr :=
  rev (drop_while is_space (rev (drop_while is_space s))).

Fixpoint starts_with (p s : pystr) : bool :=
  match p, s with
  | [], _ => true
  | _ :: _, [] => false
  | c :: p', d :: s' => Ascii.eqb c d && starts_with p' s'
  end.

(** [needle in hay] on strings *)
Fixpoint contains (needle hay : pystr) : bool :=
  starts_with needle hay ||
  match hay with
  | [] => false
  | _ :: hay' => contains needle hay'
  end.

(** [s.replace(' ', '')] *)
Definition remove_spaces (s : pystr) : pystr :=
  List.filter (fun c => negb (code c =? 32)) s.

(** [s.split(',')] *)
Fixpoint split_commas_aux (cur : pystr) (s : pystr) : list pystr :=
  match s with
  | [] => [rev cur]
  | c :: s' =>
      if code c =? 44 then rev cur :: split_commas_aux [] s'
      else split_commas_aux (c :: cur) s'
  end.

Definition split_commas (s : pystr) : list pystr := split_commas_aux [] s.

(** ** Regular expressions

    The fragment of Python's [re] syntax the program uses, with the
    backtracking semantics of [re]: alternatives are tried left to right, a
    greedy repetition tries the longest run first and a lazy one the
    shortest.  Every repetition in the program's patterns is over a single
    character class, which is what [Star] offers. *)

Inductive regex : Type :=
| Eps : regex
| Bol : regex                                (* ^ *)
| WordB : regex                              (* \b *)
| Cls : (ascii -> bool) -> regex             (* one character of a class *)
| Star : bool -> (ascii -> bool) -> regex    (* class* (true) or class*? *)
| Cat : regex -> regex -> regex
| Alt : regex -> regex -> regex
| Grp : nat -> regex -> regex.               (* capturing group number n *)

(** A position in the subject: the text already consumed, most recent
    character first, and the text still ahead. *)
Record mstate : Type := MState {
  before : pystr;
  after : pystr;
  groups : list (nat * pystr)
}.

Definition kont : Type := pystr -> pystr -> list (nat * pystr) -> option mstate.

Fixpoint star_greedy (p : ascii -> bool) (k : pystr -> pystr -> option mstate)
    (b a : pystr) : option mstate :=
  match a with
  | c :: a' =>
      if p c then
        match star_greedy p k (c :: b) a' with
        | Some m => Some m
        | None => k b a
        end
      else k b a
  | [] => k b a
  end.

Fixpoint star_lazy (p : ascii -> bool) (k : pystr -> pystr -> option mstate)
    (b a : pystr) : option mstate :=
  match k b a with
  | Some m => Some m
  | None =>
      match a with
      | c :: a' => if p c then star_lazy p k (c :: b) a' else None
      | [] => None
      end
  end.

Definition head_is (p : ascii -> bool) (s : pystr) : bool :=
  match s with
  | c :: _ => p c
  | [] => false
  end.

Fixpoint rmatch (r : regex) (b a : pystr) (g : list (nat * pystr)) (k : kont)
    : option mstate :=
  match r with
  | Eps => k b a g
  | Bol => match b with [] => k b a g | _ :: _ => None end
  | WordB =>
      if xorb (head_is is_word b) (head_is is_word a) then k b a g else None
  | Cls p =>
      match a with
      | c :: a' => if p c then k (c :: b) a' g else None
      | [] => None
      end
  | Star true p => star_greedy p (fun b' a' => k b' a' g) b a
  | Star false p => star_lazy p (fun b' a' => k b' a' g) b a
  | Cat r1 r2 => rmatch r1 b a g (fun b' a' g' => rmatch r2 b' a' g' k)
  | Alt r1 r2 =>
      match rmatch r1 b a g k with
      | Some m => Some m
      | None => rmatch r2 b a g k
      end
  | Grp n r =>
      rmatch r b a g
        (fun b' a' g' =>
           k b' a' ((n, rev (take (length b' - length b) b')) :: g'))
  end.

Definition accept : kont := fun b a g => Some (MState b a g).

(** Try to match [r] with the match starting exactly at position [b | a]. *)
Definition match_at (r : regex) (b a : pystr) : option mstate :=
  rmatch r b a [] accept.

(** [m.group(n)] for a group that took part in the match *)
Fixpoint lookup_group (n : nat) (g : list (nat * pystr)) : pystr :=
  match g with
  | [] => []
  | (i, s) :: g' => if i =? n then s else lookup_group n g'
  end.

Definition group (n : nat) (m : mstate) : pystr := lookup_group n (groups m).

(** [re.match(r, s)]: a match anchored at the start of [s]. *)
Definition re_match (r : regex) (s : pystr) : option mstate := match_at r [] s.

(** [re.search(r, s)]: the leftmost match; the result carries the text
    matched as a whole ([m.group(0)]). *)
Fixpoint search_from (r : regex) (b a : pystr) : option (pystr * mstate) :=
  match match_at r b a with
  | Some m => Some (rev (take (length (before m) - length b) (before m)), m)
  | None =>
      match a with
      | c :: a' => search_from r (c :: b) a'
      | [] => None
      end
  end.

Definition re_search (r : regex) (s : pystr) : option (pystr * mstate) :=
  search_from r [] s.

(** [re.sub(r, repl, s)] for a literal replacement: scan left to right,
    replace each match, and resume behind it.  [skip] counts the characters
    of the last match that are still to be stepped over. *)
Fixpoint sub_from (r : regex) (repl : pystr) (skip : nat) (b a : pystr) : pystr :=
  match skip with
  | S n =>
      match a with
      | c :: a' => sub_from r repl n (c :: b) a'
      | [] => []
      end
  | 0 =>
      match match_at r b a with
      | Some m =>
          match length (before m) - length b with
          | S n =>
              repl ++ match a with
                      | c :: a' => sub_from r repl n (c :: b) a'
                      | [] => []
                      end
          | 0 =>
              repl ++ match a with
                      | c :: a' => c :: sub_from r repl 0 (c :: b) a'
                      | [] => []
                      end
          end
      | None =>
          match a with
          | c :: a' => c :: sub_from r repl 0 (c :: b) a'
          | [] => []
          end
      end
  end.

Definition re_sub (r : regex) (repl s : pystr) : pystr := sub_from r repl 0 [] s.

(** Pattern combinators *)

Definition chr (c : ascii) : regex := Cls (Ascii.eqb c).

Fixpoint lit (s : pystr) : regex :=
  match s with
  | [] => Eps
  | c :: s' => Cat (chr c) (lit s')
  end.

Definition plus (greedy : bool) (p : ascii -> bool) : regex :=
  Cat (Cls p) (Star greedy p).

Fixpoint cats (rs : list regex) : regex :=
  match rs with
  | [] => Eps
  | r :: rs' => Cat r (cats rs')
  end.

Fixpoint alts (r : regex) (rs : list regex) : regex :=
  match rs with
  | [] => r
  | r' :: rs' => Alt r (alts r' rs')
  end.

Definition digits4 : regex := cats [Cls is_digit; Cls is_digit; Cls is_digit; Cls is_digit].

(** The program's patterns *)

(** [\[.*?\]] *)
Definition re_citation : regex :=
  cats [chr "["; Star false not_newline; chr "]"].

(** [\s*\(edit\)\s*] *)
Definition re_edit : regex :=
  cats [Star true is_space; lit (str "(edit)"); Star true is_space].

(** [^(.*?)\s+\((\d{4})\)] *)
Definition re_title_paren_year : regex :=
  cats [Bol; Grp 1 (Star false not_newline); plus true is_space;
        chr "("; Grp 2 digits4; chr ")"].

(** [^(.*?)\s*-\s*(\d{4})] *)
Definition re_title_dash_year : regex :=
  cats [Bol; Grp 1 (Star false not_newline); Star true is_space;
        chr "-"; Star true is_space; Grp 2 digits4].

(** [^(.*?),\s*(\d{4})] *)
Definition re_title_comma_year : regex :=
  cats [Bol; Grp 1 (Star false not_newline); chr ",";
        Star true is_space; Grp 2 digits4].

Definition not_sentence_end (c : ascii) : bool :=
  negb (Ascii.eqb c "." || Ascii.eqb c "!" || Ascii.eqb c "?").


Definition cue (w : pystr) : regex := Cat (plus true is_space) (lit w).

(** [^([^.!?]+?)(?:\s+was|\s+is|\s+has been|\s+won|\s+received)] *)
Definition re_sentence : regex :=
  cats [Bol; Grp 1 (plus false not_sentence_end);
        alts (cue (str "was"))
             [cue (str "is"); cue (str "has been"); cue (str "won");
              cue (str "received")]].

Definition not_close_paren (c : ascii) : bool := negb (Ascii.eqb c ")").

(** [\s*\([^)]*\)\s*] *)
Definition re_parenthetical : regex :=
  cats [Star true is_space; chr "("; Star true not_close_paren; chr ")";
        Star true is_space].

(** [\b(19|20)\d{2}\b] *)
Definition re_year : regex :=
  cats [WordB; Grp 1 (Alt (lit (str "19")) (lit (str "20")));
        Cls is_digit; Cls is_digit; WordB].

(** ** Records *)

Record movie : Type := Movie {
  Title : pystr;
  Genre : pystr;
  Rating : pystr;
  Year : pystr
}.

(** The value every extractor writes in the rating column. *)
Definition unrated : pystr := str "N/A".

(** The genre a scrape starts from, and the label of fallback records. *)
Definition General : pystr := str "General".

(** ** Heading-state extraction ([scrape_wikipedia_best_movies]) *)

(** [genre_keywords]; a Python dict iterates in insertion order. *)
Definition genre_keywords : list (pystr * pystr) :=
  [ (str "action", str "Action");
    (str "animation", str "Animation");
    (str "christmas", str "Christmas");
    (str "comedy", str "Comedy");
    (str "disaster", str "Disaster");
    (str "documentary", str "Documentary");
    (str "fantasy", str "Fantasy");
    (str "horror", str "Horror");
    (str "lgbt", str "LGBT");
    (str "musical", str "Musical");
    (str "romance", str "Romance");
    (str "science fiction", str "Science Fiction");
    (str "sci-fi", str "Science Fiction");
    (str "silent", str "Silent");
    (str "sports", str "Sports");
    (str "superhero", str "Superhero");
    (str "war", str "War");
    (str "western", str "Western") ].

(** The two [re.sub] lines applied to the stripped, lowercased heading. *)
Definition clean_heading (heading : pystr) : pystr :=
  let heading_text := lower (strip heading) in
  let h := strip (re_sub re_citation [] heading_text) in
  strip (re_sub re_edit [] h).

(** The [for keyword, genre_name in genre_keywords.items()] loop with its
    [break]. *)
Fixpoint scan_keywords (kws : list (pystr * pystr)) (heading current_genre : pystr)
    : pystr :=
  match kws with
  | [] => current_genre
  | (keyword, genre_name) :: rest =>
      if contains keyword heading then genre_name
      else scan_keywords rest heading current_genre
  end.

(** What a heading element does to [current_genre]. *)
Definition heading_step (current_genre heading : pystr) : pystr :=
  scan_keywords genre_keywords (clean_heading heading) current_genre.


(** ** The record extractor ([extract_movie_from_li]) *)

(** The first standalone year of [text]: [re.search(r'\b(19|20)\d{2}\b', text)]
    and the conditional around [year_match.group(0)]. *)
Definition find_year (text : pystr) : pystr :=
  match re_search re_year text with
  | Some (whole, _) => whole
  | None => []
  end.

(** [li] is given by its flattened text, [li.get_text(" ", strip=True)]. *)
Definition extract_movie_from_li (text genre : pystr) : option movie :=
  match re_match re_title_paren_year text with
  | Some m =>
      let title := strip (group 1 m) in
      let year := group 2 m in
      Some (Movie title genre unrated year)
  | None =>
      match re_match re_sentence text with
      | Some sentence_match =>
          let title := strip (group 1 sentence_match) in
          let title := strip (re_sub re_parenthetical (str " ") title) in
          let year := find_year text in
          if 2 <? length title then Some (Movie title genre unrated year)
          else None
      | None => None
      end
  end.

(** ** The document and the main loop *)

(** [soup.find_all(['h2', 'h3', 'h4', 'ul'])]: the headings, by their
    [get_text()], and the lists, by the flattened texts of their items, in
    document order. *)
Inductive element : Type :=
| Heading (heading_text : pystr)
| UL (items : list pystr).

(** The inner [for li in element.find_all('li')] loop: the records of one
    list, in item order. *)
Definition extract_list (items : list pystr) (current_genre : pystr) : list movie :=
  omap (fun li => extract_movie_from_li li current_genre) items.

(** One iteration of [for element in all_elements], on the loop state
    [(current_genre, movies)]. *)
Definition process_element (st : pystr * list movie) (e : element)
    : pystr * list movie :=
  let '(current_genre, movies) := st in
  match e with
  | Heading h => (heading_step current_genre h, movies)
  | UL items =>
      if negb (bool_decide (current_genre = General))
      then (current_genre, movies ++ extract_list items current_genre)
      else (current_genre, movies)
  end.

Definition process_elements (all_elements : list element) : pystr * list movie :=
  fold_left process_element all_elements (General, []).

(** The records of the heading-state pass. *)
Definition heading_state_movies (all_elements : list element) : list movie :=
  snd (process_elements all_elements).

(** ** DataFrame operations *)

(** [df.drop_duplicates(subset=...)]: a row is dropped when an earlier row
    has the same key. *)
Fixpoint drop_duplicates_from {A K : Type} `{EqDecision K} (key : A -> K)
    (seen : list K) (rows : list A) : list A :=
  match rows with
  | [] => []
  | r :: rows' =>
      if bool_decide (key r ∈ seen) then drop_duplicates_from key seen rows'
      else r :: drop_duplicates_from key (key r :: seen) rows'
  end.

Definition drop_duplicates {A K : Type} `{EqDecision K} (key : A -> K)
    (rows : list A) : list A :=
  drop_duplicates_from key [] rows.

Definition title_year (m : movie) : pystr * pystr := (Title m, Year m).

(** ** The fallback extractor ([scrape_general_movies]) *)

Definition patterns : list regex :=
  [re_title_paren_year; re_title_dash_year; re_title_comma_year].

Definition stoplist : list pystr :=
  [str "list"; str "category"; str "section"; str "see also"].

(** [len(title) < 3 or any(word in title.lower() for word in [...])] *)
Definition rejected (title : pystr) : bool :=
  (length title <? 3) || existsb (fun word => contains word (lower title)) stoplist.

(** The [for pattern in patterns] loop on one item: on a match that is
    rejected, [continue] moves on to the next pattern; on a match that is
    kept, the record is appended and [break] leaves the loop. *)
Fixpoint try_patterns (ps : list regex) (text : pystr) : option movie :=
  match ps with
  | [] => None
  | pattern :: ps' =>
      match re_search pattern text with
      | Some (_, m) =>
          let title := strip (group 1 m) in
          let year := group 2 m in
          if rejected title then try_patterns ps' text
          else Some (Movie title General unrated year)
      | None => try_patterns ps' text
      end
  end.

(** The document for the fallback: [soup.find_all('ul')]. *)
Definition lists_of (all_elements : list element) : list (list pystr) :=
  omap (fun e => match e with UL items => Some items | Heading _ => None end)
       all_elements.

Definition general_movies (uls : list (list pystr)) : list movie :=
  omap (try_patterns patterns) (concat uls).

(** [None] is the reported failure. *)
Definition scrape_general_movies (uls : list (list pystr)) : option (list movie) :=
  let movies := general_movies uls in
  match movies with
  | [] => None
  | _ :: _ => Some (drop_duplicates title_year movies)
  end.

(** [scrape_wikipedia_best_movies] on a fetched and parsed page: the value
    returned, which is also what is written to the CSV file. *)
Definition scrape_wikipedia_best_movies (all_elements : list element)
    : option (list movie) :=
  let movies := heading_state_movies all_elements in
  match movies with
  | [] => scrape_general_movies (lists_of all_elements)
  | _ :: _ =>
      let df := drop_duplicates title_year movies in
      let df := List.filter (fun m => 0 <? length (Title m)) df in
      Some df
  end.

(** ** The record store ([load_and_clean_movies]) *)

(** A cell of the columns Title, Rating and Year of the DataFrame that
    [pd.read_csv] returns: missing (NaN), a text, or a number.  pandas reads
    a column as numbers when every field of it that is not missing is a
    numeral, so that the fields 1979 and 1979.0 are one and the same year,
    and as texts otherwise.  (A truth value counts as the number 1 or 0, as
    it does in Python.) *)
Inductive cell : Type :=
| NaN
| Str (s : pystr)
| Num (x : Qc).

#[global] Instance cell_eq_dec : EqDecision cell.
Proof. solve_decision. Defined.

(** A row of a DataFrame whose genres are texts; a missing genre is [None]. *)
Record row : Type := Row {
  row_title : cell;
  row_genre : option pystr;
  row_rating : cell;
  row_year : cell
}.

(** What is found at [csv_file].  A file that is read and has rows is
    [Malformed] when the cleaning steps cannot be applied to its DataFrame:
    a column Title, Genre or Year is absent ([KeyError]), or the Genre column
    is one of numbers or truth values, on which the [.str] accessor raises
    an [AttributeError]. *)
Inductive file_state : Type :=
| Missing                 (* [os.path.exists] fails *)
| Unreadable              (* [pd.read_csv] raises *)
| Malformed               (* read, with rows; the cleaning raises *)
| Stored (df : list row). (* read: the rows, the genres texts or missing *)

(** [.str.lower().str.replace(' ', '')] *)
Definition normalize_genre (g : pystr) : pystr := remove_spaces (lower g).

(** [df.dropna(subset=['Title', 'Genre'])] *)
Definition dropna_title_genre (df : list row) : list row :=
  List.filter (fun r => negb (bool_decide (row_title r = NaN)) &&
                        bool_decide (is_Some (row_genre r))) df.

Definition set_genre (f : pystr -> pystr) (r : row) : row :=
  Row (row_title r) (f <$> row_genre r) (row_rating r) (row_year r).

Definition row_key (r : row) : cell * cell :=
  (row_title r, row_year r).

(** The cleaning steps behind [# Clean the data]. *)
Definition clean (df : list row) : list row :=
  let df := dropna_title_genre df in
  let df := map (set_genre normalize_genre) df in
  drop_duplicates row_key df.

(** [df['Genre'].str] raises an [AttributeError] unless the column is one of
    texts.  A column in which no field is a text is not: pandas reads a
    column of missing fields as numbers (NaN). *)
Definition genre_texts (df : list row) : bool :=
  existsb (fun r => bool_decide (is_Some (row_genre r))) df.

(** The result [None] is the function's [return None]: of the first test, of
    the test [df.empty], or of the [except] branch, which is reached when
    [pd.read_csv] or a cleaning step raises. *)
Definition load_and_clean_movies (csv_file : file_state) : option (list row) :=
  match csv_file with
  | Missing => None
  | Unreadable => None
  | Malformed => None
  | Stored df =>
      match df with
      | [] => None
      | _ :: _ => if genre_texts df then Some (clean df) else None
      end
  end.

(** ** The genre filter ([filter_movies_by_genres]) *)

(** [g.strip().lower().replace(' ', '')] *)
Definition normalize_query (g : pystr) : pystr :=
  remove_spaces (lower (strip g)).

(** [str(g)] on a cell *)
Definition cell_str (g : option pystr) : pystr :=
  match g with
  | Some s => s
  | None => str "nan"
  end.

(** [any(gen in str(g).lower() for gen in genres)] *)
Definition genre_mask (genres : list pystr) (g : option pystr) : bool :=
  existsb (fun gen => contains gen (lower (cell_str g))) genres.

Definition filter_movies_by_genres (df : list row) (genres : list pystr)
    : list row :=
  let genres := map normalize_query genres in
  List.filter (fun r => genre_mask genres (row_genre r)) df.

(** ** The vocabulary of the store ([get_all_genres]) *)

Definition excluded : list pystr := [str "unknown"; str "n/a"].

(** The inner loop over [genre_parts]. *)
Definition add_parts (genres : gset pystr) (g : pystr) : gset pystr :=
  foldl (fun genres part =>
           let clean_genre := lower (strip part) in
           if negb (bool_decide (clean_genre = [])) &&
              negb (bool_decide (clean_genre ∈ excluded))
           then {[clean_genre]} ∪ genres
           else genres)
        genres (split_commas g).

(** The set built by [get_all_genres]. *)
Definition get_all_genres (df : list row) : gset pystr :=
  foldl add_parts ∅ (omap row_genre df).

(** [list(genres)]: Python fixes no iteration order for a set, so the list
    returned is some duplicate-free enumeration of it. *)
Definition enumerates (all_genres : list pystr) (genres : gset pystr) : Prop :=
  NoDup all_genres ∧ ∀ x, x ∈ all_genres ↔ x ∈ genres.

(** ** Similarity ([difflib.SequenceMatcher], as [get_close_matches] uses it)

    No junk predicate is given.  The matcher is made with its default
    [autojunk=True], so the characters that are popular in its second
    sequence start no matching block. *)

Definition count_char (c : ascii) (s : pystr) : nat :=
  length (List.filter (Ascii.eqb c) s).

(** The characters [__chain_b] purges from [b2j] as popular: when the
    second sequence [b] has 200 characters or more, those that occur in it
    more than [len(b) // 100 + 1] times. *)
Definition bpopular (b : pystr) (c : ascii) : bool :=
  (200 <=? length b) && (length b / 100 + 1 <? count_char c b).

(** One row of the table of [find_longest_match]: [x] is [a[i]], [j2len]
    the previous row from column [j] on, [diag] its entry at [j - 1].  A
    popular character has no entry in [b2j], so no block runs over it. *)
Fixpoint longest_row (popular : ascii -> bool) (x : ascii) (b : pystr)
    (j2len : list nat) (diag i j : nat) (best : nat * nat * nat)
    : list nat * (nat * nat * nat) :=
  match b with
  | [] => ([], best)
  | y :: b' =>
      let here := hd 0 j2len in
      if Ascii.eqb x y && negb (popular y) then
        let k := diag + 1 in
        let best :=
          if snd best <? k then (i + 1 - k, j + 1 - k, k) else best in
        let '(newj2len, best) :=
          longest_row popular x b' (tl j2len) here i (S j) best in
        (k :: newj2len, best)
      else
        let '(newj2len, best) :=
          longest_row popular x b' (tl j2len) here i (S j) best in
        (0 :: newj2len, best)
  end.

Fixpoint longest_rows (popular : ascii -> bool) (a b : pystr) (j2len : list nat)
    (i : nat) (best : nat * nat * nat) : nat * nat * nat :=
  match a with
  | [] => best
  | x :: a' =>
      let '(newj2len, best) := longest_row popular x b j2len 0 i 0 best in
      longest_rows popular a' b newj2len (S i) best
  end.

(** The number of characters two texts have in common at their start. *)
Fixpoint common_prefix (a b : pystr) : nat :=
  match a, b with
  | x :: a', y :: b' => if Ascii.eqb x y then S (common_prefix a' b') else 0
  | _, _ => 0
  end.

(** [find_longest_match] on the windows [a] and [b]: [(besti, bestj, bestsize)],
    positions relative to the windows.  The block found in the table is
    extended by the two [while] loops for elements that are no junk:
    backwards as long as the characters before it agree, then forwards as
    long as the characters behind it agree, popular or not.  (The loops for
    junk do nothing, there being none.) *)
Definition find_longest_match (popular : ascii -> bool) (a b : pystr)
    : nat * nat * nat :=
  let '(besti, bestj, bestsize) := longest_rows popular a b [] 0 (0, 0, 0) in
  let back := common_prefix (rev (take besti a)) (rev (take bestj b)) in
  let '(besti, bestj, bestsize) := (besti - back, bestj - back, bestsize + back) in
  let forth :=
    common_prefix (drop (besti + bestsize) a) (drop (bestj + bestsize) b) in
  (besti, bestj, bestsize + forth).

(** The total size of the blocks of [get_matching_blocks]: the longest match,
    then the same to its left and to its right. *)
Fixpoint count_matches (fuel : nat) (popular : ascii -> bool) (a b : pystr) : nat :=
  match fuel with
  | 0 => 0
  | S fuel' =>
      let '(i, j, k) := find_longest_match popular a b in
      if k =? 0 then 0
      else k + count_matches fuel' popular (take i a) (take j b)
             + count_matches fuel' popular (drop (i + k) a) (drop (j + k) b)
  end.

Definition matches (a b : pystr) : nat :=
  count_matches (length a) (bpopular b) a b.

(** [_calculate_ratio] *)
Definition calculate_ratio (m len : nat) : Q :=
  if len =? 0 then 1%Q
  else Qmake (Z.of_nat (2 * m)) (Pos.of_nat len).

Definition ratio (a b : pystr) : Q :=
  calculate_ratio (matches a b) (length a + length b).

(** The loop of [quick_ratio]: [avail] gives, for a character, its number
    of occurrences in [b] less the occurrences seen in [a] so far. *)
Fixpoint quick_matches (a : pystr) (avail : ascii -> Z) : nat :=
  match a with
  | [] => 0
  | elt :: a' =>
      let numb := avail elt in
      let avail' := fun c => if Ascii.eqb c elt then (numb - 1)%Z else avail c in
      if (0 <? numb)%Z then S (quick_matches a' avail')
      else quick_matches a' avail'
  end.

Definition quick_ratio (a b : pystr) : Q :=
  calculate_ratio (quick_matches a (fun c => Z.of_nat (count_char c b)))
                  (length a + length b).

Definition real_quick_ratio (a b : pystr) : Q :=
  calculate_ratio (Nat.min (length a) (length b)) (length a + length b).

(** Comparison of Python strings: lexicographic on code points. *)
Fixpoint pystr_compare (s t : pystr) : comparison :=
  match s, t with
  | [], [] => Eq
  | [], _ :: _ => Lt
  | _ :: _, [] => Gt
  | c :: s', d :: t' =>
      match Nat.compare (code c) (code d) with
      | Eq => pystr_compare s' t'
      | o => o
      end
  end.

(** Comparison of the tuples [(score, x)]. *)
Definition scored_compare (p q : Q * pystr) : comparison :=
  match Qcompare (fst p) (fst q) with
  | Eq => pystr_compare (snd p) (snd q)
  | o => o
  end.

Definition scored_lt (p q : Q * pystr) : bool :=
  match scored_compare p q with
  | Lt => true
  | _ => false
  end.

(** [sorted(result, reverse=True)], by insertion. *)
Fixpoint insert_desc (p : Q * pystr) (l : list (Q * pystr)) : list (Q * pystr) :=
  match l with
  | [] => [p]
  | q :: l' => if scored_lt q p then p :: l else q :: insert_desc p l'
  end.

Definition sort_desc (l : list (Q * pystr)) : list (Q * pystr) :=
  foldr insert_desc [] l.

(** [heapq.nlargest(n, result)] *)
Definition nlargest (n : nat) (result : list (Q * pystr)) : list (Q * pystr) :=
  take n (sort_desc result).

(** The three tests of the loop of [get_close_matches]; [a] is the
    candidate ([set_seq1]) and [b] the word ([set_seq2]). *)
Definition close_enough (cutoff : Q) (word x : pystr) : bool :=
  Qle_bool cutoff (real_quick_ratio x word) &&
  Qle_bool cutoff (quick_ratio x word) &&
  Qle_bool cutoff (ratio x word).

(** [difflib.get_close_matches(word, possibilities, n, cutoff)] *)
Definition get_close_matches (word : pystr) (possibilities : list pystr)
    (n : nat) (cutoff : Q) : list pystr :=
  let result :=
    map (fun x => (ratio x word, x))
        (List.filter (close_enough cutoff word) possibilities) in
  map snd (nlargest n result).

(** ** Suggestions ([get_genre_suggestions]) *)

(** The default [cutoff=0.6].  The scores are quotients of small integers,
    so comparing them exactly agrees with comparing their floating-point
    values. *)
Definition default_cutoff : Q := (3 # 5)%Q.

Definition get_genre_suggestions (chosen_genres all_genres : list pystr)
    (cutoff : Q) : gmap pystr (list pystr) :=
  foldl (fun suggestions genre =>
           let matches := get_close_matches (lower genre) all_genres 3 cutoff in
           match matches with
           | [] => suggestions
           | _ :: _ => <[genre := matches]> suggestions
           end)
        ∅ chosen_genres.

(** ** The sampler ([recommend_movies]) *)

(** [filtered.sample(sample_size)]: pandas draws without replacement by
    taking the first [n] entries of a random permutation [perm] of the row
    positions. *)
Definition sample {A : Type} (perm : list nat) (rows : list A) (n : nat) : list A :=
  omap (fun i => rows !! i) (take n perm).

(** What [recommend_movies] displays. *)
Inductive outcome : Type :=
| NoMatch (suggestions : gmap pystr (list pystr))
| Recommended (recommendations : list row).

(** [all_genres] is the list [get_all_genres] returned and [perm] the
    permutation drawn by the random source. *)
Definition recommend_movies (all_genres : list pystr) (perm : list nat)
    (df : list row) (chosen_genres : list pystr) (num_recommendations : nat)
    : outcome :=
  let filtered := filter_movies_by_genres df chosen_genres in
  match filtered with
  | [] => NoMatch (get_genre_suggestions chosen_genres all_genres default_cutoff)
  | _ :: _ =>
      let sample_size := Nat.min num_recommendations (length filtered) in
      Recommended (sample perm filtered sample_size)
  end.

(** ** The set-up of the data ([main]) *)

(** [# Data setup]: what is found at [movies.csv] afterwards, [None] when
    [main] returns after a failed scrape.  [page] is the parsed page, [None]
    when the request fails; it is asked for only when a scrape is made.
    [saved_as df] is what is found at the file once [df.to_csv] has written
    it. *)
Definition data_setup (saved_as : list movie -> file_state) (file : file_state)
    (page : option (list element)) : option file_state :=
  let scrape :=
    match page with
    | None => None
    | Some all_elements => saved_as <$> scrape_wikipedia_best_movies all_elements
    end in
  match file with
  | Missing | Unreadable => scrape
  | Stored [] => scrape
  | Stored (_ :: _) | Malformed => Some file
  end.

(** [# Load data]: the store the recommendation loop works on, [None] when
    [main] returns before the loop. *)
Definition load_data (saved_as : list movie -> file_state) (file : file_state)
    (page : option (list element)) : option (list row) :=
  match data_setup saved_as file page with
  | None => None
  | Some file' =>
      match load_and_clean_movies file' with
      | None | Some [] => None
      | Some (r :: df) => Some (r :: df)
      end
  end.

(** ** The command loop ([main]) *)

(** The inputs that end the session. *)
Definition sentinels : list pystr := [str "quit"; str "exit"; str "q"].

(** [[g.strip() for g in user_input.split(',') if g.strip()]] *)
Definition parse_genres (user_input : pystr) : list pystr :=
  omap (fun g => if bool_decide (strip g = []) then None else Some (strip g))
       (split_commas user_input).

(** What one turn of the [while True] loop does with the line read. *)
Inductive command : Type :=
| Leave
| NothingEntered
| NoValidGenre
| Lookup (chosen_genres : list pystr).

(** [line] is what [input] returned. *)
Definition read_command (line : pystr) : command :=
  let user_input := strip line in
  if bool_decide (lower user_input ∈ sentinels) then Leave
  else if bool_decide (user_input = []) then NothingEntered
  else match parse_genres user_input with
       | [] => NoValidGenre
       | chosen_genres => Lookup chosen_genres
       end.

(** The calls of [recommend_movies] made for the lines typed, in order; the
    loop ends at a quit command or when the input ends ([EOFError]). *)
Fixpoint session (lines : list pystr) : list (list pystr) :=
  match lines with
  | [] => []
  | line :: rest =>
      match read_command line with
      | Leave => []
      | Lookup chosen_genres => chosen_genres :: session rest
      | NothingEntered | NoValidGenre => session rest
      end
  end.

(** ** The listing of the genres ([main]) *)

(** [sorted(get_all_genres(df))]: ascending order on strings, by insertion. *)
Fixpoint insert_sorted (s : pystr) (l : list pystr) : list pystr :=
  match l with
  | [] => [s]
  | t :: l' =>
      match pystr_compare s t with
      | Gt => t :: insert_sorted s l'
      | _ => s :: l
      end
  end.

Definition sorted (l : list pystr) : list pystr := foldr insert_sorted [] l.

(** * Notions used in the statements *)

(** [needle] occurs in [hay]. *)
Definition occurs_in (needle hay : pystr) : Prop :=
  ∃ pre post, hay = pre ++ needle ++ post.

(** C5 as the specification words it: unavailable exactly when the file
    is missing or nothing is left after cleaning. *)
Definition unavailable_iff_empty_after_cleaning (csv_file : file_state) : Prop :=
  load_and_clean_movies csv_file = None ↔
  csv_file = Missing ∨ ∃ df, csv_file = Stored df ∧ clean df = [].

(** A page with a table of contents, a genre heading and one film. *)
Definition horror_page : list element :=
  [ UL [str "Contents (2020)"];
    Heading (str "Horror films [edit]");
    UL [str "Alien (1979)"] ].

(** The cell of a whole number, such as a year. *)
Definition whole (n : Z) : cell := Num (Q2Qc (inject_Z n)).

(** A row read from a line with an empty title field. *)
Definition untitled_row : row :=
  Row NaN (Some (str "action")) NaN (whole 1999).

(** Two rows with the same title and year, and one with no title. *)
Definition sample_rows : list row :=
  [ Row (Str (str "Alien")) (Some (str "Horror")) NaN (whole 1979);
    Row (Str (str "Alien")) (Some (str "Science Fiction")) NaN (whole 1979);
    Row NaN (Some (str "War")) NaN (whole 1930) ].

(** C3 as the specification words it: a query is normalized by
    lowercasing and removing spaces, and a row is selected exactly when its
    normalized genre contains one of the normalized queries. *)
Definition selects_by_lowercase_and_spaces (df : list row) (genres : list pystr)
    : Prop :=
  ∀ r, r ∈ filter_movies_by_genres df genres ↔
       r ∈ df ∧ ∃ q, q ∈ genres ∧
         occurs_in (remove_spaces (lower q))
                   (normalize_genre (cell_str (row_genre r))).

(** A row as it is read, and as it is stored once cleaned. *)
Definition action_read : row :=
  Row (Str (str "Die Hard")) (Some (str "Action")) NaN (whole 1988).

Definition action_row : row :=
  Row (Str (str "Die Hard")) (Some (str "action")) NaN (whole 1988).

(** An item whose first pattern yields a title of two characters. *)
Definition short_title_item : pystr := str "It (2017), 2018".

Definition drama_row : row :=
  Row (Str (str "Heat")) (Some (str "actiondrama")) NaN (whole 1995).

Definition pystr_le (s t : pystr) : Prop := pystr_compare s t ≠ Gt.

(** [(score, x) <= (score', x')] on Python tuples. *)
Definition scored_le (p q : Q * pystr) : Prop :=
  Qlt p.1 q.1 ∨ (Qeq p.1 q.1 ∧ pystr_le p.2 q.2).

(** The scored candidates [get_close_matches] sorts. *)
Definition scored_candidates (word : pystr) (possibilities : list pystr)
    (cutoff : Q) : list (Q * pystr) :=
  map (λ x, (ratio x word, x)) (List.filter (close_enough cutoff word) possibilities).

(** A block of [k] characters that ends before position [ea] of [A] and
    before position [eb] of [B] and reads the same in both. *)
Definition common_block (A B : pystr) (ea eb k : nat) : Prop :=
  k ≤ ea ∧ k ≤ eb ∧ ea ≤ length A ∧ eb ≤ length B ∧
  take k (drop (ea - k) A) = take k (drop (eb - k) B).

Definition best_ok (A B : pystr) (best : nat * nat * nat) : Prop :=
  common_block A B (best.1.1 + best.2) (best.1.2 + best.2) best.2.

(** A trimmed, lowercased part of a stored genre that is kept. *)
Definition genre_part_of (g x : pystr) : Prop :=
  ∃ part, part ∈ split_commas g ∧ x = lower (strip part)
          ∧ x ≠ [] ∧ x ∉ excluded.

(** The stated tie-break: of two returned candidates with equal scores, the
    one enumerated earlier in the vocabulary comes first. *)
Definition earlier_position_first (all_genres : list pystr) (word : pystr)
    (matches : list pystr) : Prop :=
  ∀ i j x y, i < j → matches !! i = Some x → matches !! j = Some y →
    Qlt (ratio y word) (ratio x word)
    ∨ (Qeq (ratio y word) (ratio x word)
       ∧ ∃ p q, all_genres !! p = Some x ∧ all_genres !! q = Some y ∧ p < q).

(** The same with the candidate enumerated later coming first. *)
Definition later_position_first (all_genres : list pystr) (word : pystr)
    (matches : list pystr) : Prop :=
  ∀ i j x y, i < j → matches !! i = Some x → matches !! j = Some y →
    Qlt (ratio y word) (ratio x word)
    ∨ (Qeq (ratio y word) (ratio x word)
       ∧ ∃ p q, all_genres !! p = Some x ∧ all_genres !! q = Some y ∧ q < p).

(** A store with the genres history, mystery and western. *)
Definition mystery_read : list row :=
  [ Row (Str (str "Lincoln")) (Some (str "History")) NaN (whole 2012);
    Row (Str (str "Vertigo")) (Some (str "Mystery")) NaN (whole 1958);
    Row (Str (str "Shane")) (Some (str "Western")) NaN (whole 1953) ].

Definition mystery_store : list row :=
  [ Row (Str (str "Lincoln")) (Some (str "history")) NaN (whole 2012);
    Row (Str (str "Vertigo")) (Some (str "mystery")) NaN (whole 1958);
    Row (Str (str "Shane")) (Some (str "western")) NaN (whole 1953) ].

(** What the matcher finds: [matches_re r b w a g g'] says that [r] can
    match the text [w] found between the consumed text [b] (reversed) and
    the remaining text [a], turning the captures [g] into [g']. *)
Fixpoint matches_re (r : regex) (b w a : pystr) (g g' : list (nat * pystr))
    : Prop :=
  match r with
  | Eps => w = [] ∧ g' = g
  | Bol => b = [] ∧ w = [] ∧ g' = g
  | WordB => xorb (head_is is_word b) (head_is is_word a) = true ∧ w = [] ∧ g' = g
  | Cls p => ∃ c, w = [c] ∧ p c = true ∧ g' = g
  | Star _ p => forallb p w = true ∧ g' = g
  | Cat r1 r2 =>
      ∃ w1 w2 g1, w = w1 ++ w2 ∧ matches_re r1 b w1 (w2 ++ a) g g1
                  ∧ matches_re r2 (rev w1 ++ b) w2 a g1 g'
  | Alt r1 r2 => matches_re r1 b w a g g' ∨ matches_re r2 b w a g g'
  | Grp n r1 => ∃ g1, matches_re r1 b w a g g1 ∧ g' = (n, w) :: g1
  end.

(** The part of [re_title_paren_year] behind the title group. *)
Definition paren_year_tail : regex :=
  cats [plus true is_space; chr "("; Grp 2 digits4; chr ")"].

(** The text begins with [title], whitespace and a year in parentheses. *)
Definition title_then_year (text title year : pystr) : Prop :=
  ∃ ws rest,
    text = title ++ ws ++ str "(" ++ year ++ str ")" ++ rest
    ∧ forallb not_newline title = true
    ∧ ws ≠ [] ∧ forallb is_space ws = true
    ∧ length year = 4 ∧ forallb is_digit year = true.



(** A year of the 1900s or 2000s in [text], between [pre] and [post],
    that no letter, digit or underscore touches. *)
Definition standalone_year (text pre year post : pystr) : Prop :=
  text = pre ++ year ++ post
  ∧ (∃ century d1 d2,
       year = century ++ [d1; d2]
       ∧ (century = str "19" ∨ century = str "20")
       ∧ is_digit d1 = true ∧ is_digit d2 = true)
  ∧ head_is is_word (rev pre) = false
  ∧ head_is is_word post = false.

(** The record of the film of [horror_page]. *)
Definition alien_record : movie :=
  Movie (str "Alien") (str "Horror") unrated (str "1979").

(** No whitespace at either end. *)
Definition trimmed (s : pystr) : Prop :=
  head_is is_space s = false ∧ head_is is_space (rev s) = false.

(** Four digits. *)
Definition four_digits (year : pystr) : Prop :=
  length year = 4 ∧ forallb is_digit year = true.

(** The number of characters at the end of the first [n] characters of [A]
    that are not popular. *)
Definition run (popular : ascii → bool) (A : pystr) (n : nat) : nat :=
  length (take_while (λ c, negb (popular c)) (rev (take n A))).


(** * Properties *)

(** ** Substrings *)

Lemma starts_with_spec (p s : pystr) :
  starts_with p s = true ↔ ∃ post, s = p ++ post.
Proof.
  revert s. induction p as [|c p IH]; intros s; simpl.
  - split; [intros _; by exists s | done].
  - destruct s as [|d s].
    + split; [done | intros [post H]; discriminate].
    + rewrite andb_true_iff, IH. split.
      * intros [Hc [post ->]]. apply Ascii.eqb_eq in Hc as ->. by exists post.
      * intros [post H]. injection H as -> ->. split; [apply Ascii.eqb_refl | by exists post].
Qed.

Lemma contains_spec (needle hay : pystr) :
  contains needle hay = true ↔ occurs_in needle hay.
Proof.
  unfold occurs_in. induction hay as [|d hay IH].
  - simpl. rewrite orb_false_r, starts_with_spec. split.
    + intros [post H]. by exists [], post.
    + intros [pre [post H]]. destruct pre; [by exists post | discriminate].
  - cbn [contains]. rewrite orb_true_iff, starts_with_spec, IH. split.
    + intros [[post H] | [pre [post H]]].
      * by exists [], post.
      * exists (d :: pre), post. by rewrite H.
    + intros [pre [post H]]. destruct pre as [|e pre].
      * left. by exists post.
      * right. injection H as -> ->. by exists pre, post.
Qed.

Lemma contains_false (needle hay : pystr) :
  contains needle hay = false ↔ ¬ occurs_in needle hay.
Proof.
  rewrite <- contains_spec. destruct (contains needle hay); naive_solver.
Qed.

(** ** The heading scan *)

Lemma scan_keywords_first (kws : list (pystr * pystr)) (h cur : pystr) :
  (∃ pre keyword label post,
      kws = pre ++ (keyword, label) :: post ∧
      occurs_in keyword h ∧
      Forall (λ kl, ¬ occurs_in kl.1 h) pre ∧
      scan_keywords kws h cur = label)
  ∨ (Forall (λ kl, ¬ occurs_in kl.1 h) kws ∧ scan_keywords kws h cur = cur).
Proof.
  induction kws as [|[k l] kws IH]; simpl.
  - right. by split.
  - destruct (contains k h) eqn:Hk.
    + left. exists [], k, l, kws. apply contains_spec in Hk. by repeat split.
    + apply contains_false in Hk.
      destruct IH as [(pre & kw & lb & post & -> & Hin & Hpre & Hres) | [Hall Hres]].
      * left. exists ((k, l) :: pre), kw, lb, post. repeat split; try done.
        by constructor.
      * right. split; [by constructor | done].
Qed.

(** C1: a heading is scanned against the vocabulary in the order action,
    animation, ..., western; the first keyword occurring in the cleaned
    heading gives the new current genre, whatever keywords follow it, and a
    heading with no keyword leaves the current genre as it was. *)
Theorem C1_heading_scan_first_match :
  map fst genre_keywords =
    map str ["action"; "animation"; "christmas"; "comedy"; "disaster";
             "documentary"; "fantasy"; "horror"; "lgbt"; "musical"; "romance";
             "science fiction"; "sci-fi"; "silent"; "sports"; "superhero";
             "war"; "western"]%string
  ∧ ∀ (current_genre heading : pystr) (movies : list movie),
      process_element (current_genre, movies) (Heading heading)
        = (heading_step current_genre heading, movies)
      ∧ ((∃ pre keyword label post,
            genre_keywords = pre ++ (keyword, label) :: post ∧
            occurs_in keyword (clean_heading heading) ∧
            Forall (λ kl, ¬ occurs_in kl.1 (clean_heading heading)) pre ∧
            heading_step current_genre heading = label)
         ∨ (Forall (λ kl, ¬ occurs_in kl.1 (clean_heading heading)) genre_keywords
            ∧ heading_step current_genre heading = current_genre)).
Proof.
  split; [reflexivity |].
  intros cur heading movies. split; [reflexivity |].
  apply scan_keywords_first.
Qed.

(** The heading of the specification's second scenario: "fantasy" comes
    before "sci-fi" in the vocabulary. *)
Example heading_scifi_fantasy :
  heading_step General (str "Sci-Fi and Fantasy Films [edit]") = str "Fantasy".
Proof. vm_compute. reflexivity. Qed.

(** ** Records of the heading-state pass *)

Lemma extract_movie_from_li_genre (text genre : pystr) (m : movie) :
  extract_movie_from_li text genre = Some m → Genre m = genre.
Proof.
  unfold extract_movie_from_li. intros H.
  destruct (re_match re_title_paren_year text).
  - by injection H as <-.
  - destruct (re_match re_sentence text); [|done].
    destruct (2 <? _); [|done]. by injection H as <-.
Qed.

Lemma extract_list_genre (items : list pystr) (genre : pystr) :
  Forall (λ m, Genre m = genre) (extract_list items genre).
Proof.
  apply Forall_forall. intros m Hm. unfold extract_list in Hm.
  apply list_elem_of_omap in Hm as (li & _ & Hli).
  by eapply extract_movie_from_li_genre.
Qed.

Lemma labels_not_General :
  Forall (λ kl, kl.2 ≠ General) genre_keywords.
Proof. repeat constructor; vm_compute; discriminate. Qed.

Lemma scan_keywords_not_General (kws : list (pystr * pystr)) (h cur : pystr) :
  Forall (λ kl, kl.2 ≠ General) kws →
  scan_keywords kws h cur = cur ∨ scan_keywords kws h cur ≠ General.
Proof.
  induction 1 as [|[k l] kws Hl _ IH]; simpl; [by left |].
  destruct (contains k h); [by right | done].
Qed.

(** The loop invariant: the records collected so far never carry the
    start genre. *)
Lemma process_elements_invariant (all_elements : list element)
    (st : pystr * list movie) :
  Forall (λ m, Genre m ≠ General) st.2 →
  Forall (λ m, Genre m ≠ General) (fold_left process_element all_elements st).2.
Proof.
  revert st. induction all_elements as [|e es IH]; intros [cur movies] Hinv; [done |].
  simpl. apply IH. destruct e as [h | items]; simpl; [done |].
  destruct (bool_decide (cur = General)) eqn:Hcur; simpl; [done |].
  apply bool_decide_eq_false in Hcur.
  apply Forall_app. split; [done |].
  eapply Forall_impl; [apply extract_list_genre |].
  simpl. by intros m ->.
Qed.

(** ** Dropping duplicates *)

Section drop_duplicates.
Context {A K : Type} `{EqDecision K} (key : A → K).

Lemma drop_duplicates_from_sublist (seen : list K) (rows : list A) :
  drop_duplicates_from key seen rows `sublist_of` rows.
Proof.
  revert seen. induction rows as [|r rows IH]; intros seen; simpl; [done |].
  destruct (bool_decide (key r ∈ seen)).
  - by apply sublist_cons.
  - by apply sublist_skip.
Qed.

Lemma drop_duplicates_from_fresh (seen : list K) (rows : list A) (x : A) :
  x ∈ drop_duplicates_from key seen rows → key x ∉ seen.
Proof.
  revert seen. induction rows as [|r rows IH]; intros seen; simpl.
  - by intros ?%elem_of_nil.
  - destruct (bool_decide (key r ∈ seen)) eqn:Hr; [apply IH |].
    apply bool_decide_eq_false in Hr.
    intros [-> | Hx]%elem_of_cons; [done |].
    apply IH in Hx. intros Hin. apply Hx. by right.
Qed.

Lemma drop_duplicates_from_NoDup (seen : list K) (rows : list A) :
  NoDup (map key (drop_duplicates_from key seen rows)).
Proof.
  revert seen. induction rows as [|r rows IH]; intros seen; simpl.
  - constructor.
  - destruct (bool_decide (key r ∈ seen)); [apply IH |].
    simpl. constructor; [| apply IH].
    intros (x & Hk & Hx)%list_elem_of_fmap.
    apply drop_duplicates_from_fresh in Hx. apply Hx. rewrite Hk. by left.
Qed.

(** The row kept for a key is the first row of the input with that key. *)
Lemma drop_duplicates_from_first (seen : list K) (rows : list A) (r : A) :
  r ∈ rows → key r ∉ seen →
  ∃ r', List.find (λ x, bool_decide (key x = key r)) rows = Some r'
        ∧ r' ∈ drop_duplicates_from key seen rows.
Proof.
  revert seen. induction rows as [|x rows IH]; intros seen Hr Hseen.
  - by apply elem_of_nil in Hr.
  - simpl. destruct (bool_decide (key x = key r)) eqn:Hx.
    + apply bool_decide_eq_true in Hx. exists x. split; [done |].
      rewrite bool_decide_eq_false_2 by (by rewrite Hx). by left.
    + apply bool_decide_eq_false in Hx.
      apply elem_of_cons in Hr as [-> | Hr]; [done |].
      destruct (bool_decide (key x ∈ seen)).
      * by apply IH.
      * destruct (IH (key x :: seen) Hr) as (r' & Hfind & Hin).
        { intros [? | ?]%elem_of_cons; [by apply Hx | done]. }
        exists r'. split; [done | by right].
Qed.

Lemma drop_duplicates_sublist (rows : list A) :
  drop_duplicates key rows `sublist_of` rows.
Proof. apply drop_duplicates_from_sublist. Qed.

Lemma drop_duplicates_NoDup (rows : list A) :
  NoDup (map key (drop_duplicates key rows)).
Proof. apply drop_duplicates_from_NoDup. Qed.

Lemma drop_duplicates_first (rows : list A) (r : A) :
  r ∈ rows →
  ∃ r', List.find (λ x, bool_decide (key x = key r)) rows = Some r'
        ∧ r' ∈ drop_duplicates key rows.
Proof. intros Hr. apply drop_duplicates_from_first; [done | apply not_elem_of_nil]. Qed.

Lemma drop_duplicates_elem_of (rows : list A) (x : A) :
  x ∈ drop_duplicates key rows → x ∈ rows.
Proof. intros Hx. eapply elem_of_sublist; [done | apply drop_duplicates_sublist]. Qed.
End drop_duplicates.

Lemma filter_sublist {A : Type} (f : A → bool) (l : list A) :
  List.filter f l `sublist_of` l.
Proof.
  induction l as [|x l IH]; simpl; [done |].
  destruct (f x); [by apply sublist_skip | by apply sublist_cons].
Qed.

Lemma elem_of_list_filter {A : Type} (f : A → bool) (l : list A) (x : A) :
  x ∈ List.filter f l ↔ x ∈ l ∧ f x = true.
Proof. rewrite !list_elem_of_In. apply filter_In. Qed.

Lemma scrape_heading_path (all_elements : list element) :
  heading_state_movies all_elements ≠ [] →
  scrape_wikipedia_best_movies all_elements =
    Some (List.filter (λ m, 0 <? length (Title m))
            (drop_duplicates title_year (heading_state_movies all_elements))).
Proof.
  unfold scrape_wikipedia_best_movies.
  by destruct (heading_state_movies all_elements).
Qed.

Lemma scrape_fallback_path (all_elements : list element) :
  heading_state_movies all_elements = [] →
  scrape_wikipedia_best_movies all_elements =
    scrape_general_movies (lists_of all_elements).
Proof. unfold scrape_wikipedia_best_movies. by intros ->. Qed.

(** C9: no record of the heading-state pass carries the genre "General";
    a list met while the current genre is still "General" adds nothing. *)
Theorem C9_heading_state_genre_not_default :
  ∀ all_elements : list element,
    Forall (λ m, Genre m ≠ General) (heading_state_movies all_elements)
    ∧ (∀ items movies,
         process_element (General, movies) (UL items) = (General, movies))
    ∧ (∀ df, heading_state_movies all_elements ≠ [] →
         scrape_wikipedia_best_movies all_elements = Some df →
         Forall (λ m, Genre m ≠ General) df).
Proof.
  intros all_elements.
  assert (Hall : Forall (λ m, Genre m ≠ General) (heading_state_movies all_elements)).
  { unfold heading_state_movies, process_elements.
    apply process_elements_invariant. constructor. }
  split; [done |]. split; [reflexivity |].
  intros df Hne Hdf. rewrite scrape_heading_path in Hdf by done.
  injection Hdf as <-.
  apply Forall_forall. intros x [Hx _]%elem_of_list_filter.
  apply drop_duplicates_elem_of in Hx.
  revert x Hx. by apply Forall_forall.
Qed.

Lemma C9_heading_state_witness :
  Forall (λ m, Genre m ≠ General)
    [Movie (str "Alien") (str "Horror") unrated (str "1979")].
Proof.
  apply (proj2 (proj2 (C9_heading_state_genre_not_default horror_page))).
  - vm_compute. discriminate.
  - reflexivity.
Defined.

(** ** The genre filter *)

(** C10: with no genre given, the filter selects no row. *)
Theorem C10_filter_no_genres :
  ∀ df : list row, filter_movies_by_genres df [] = [].
Proof.
  intros df. unfold filter_movies_by_genres. simpl.
  induction df as [|r df IH]; [done | by simpl].
Qed.

(** ** The record store *)

Lemma load_and_clean_movies_Some (csv_file : file_state) (df : list row) :
  load_and_clean_movies csv_file = Some df →
  ∃ rows, csv_file = Stored rows ∧ rows ≠ [] ∧ df = clean rows.
Proof.
  unfold load_and_clean_movies.
  destruct csv_file as [| | | rows]; try done.
  destruct rows as [|r rows]; [done |].
  destruct (genre_texts (r :: rows)); [| done].
  intros [= <-]. by exists (r :: rows).
Qed.

Lemma genre_texts_false (df : list row) :
  genre_texts df = false ↔ Forall (λ r, row_genre r = None) df.
Proof.
  unfold genre_texts. induction df as [|r df IH]; simpl.
  - split; [constructor | done].
  - rewrite orb_false_iff, IH, Forall_cons, bool_decide_eq_false.
    destruct (row_genre r); split; intros [H1 H2]; split; try done.
    exfalso. apply H1. by eexists.
Qed.

Lemma dropna_title_genre_spec (df : list row) (r : row) :
  r ∈ dropna_title_genre df ↔ r ∈ df ∧ row_title r ≠ NaN ∧ row_genre r ≠ None.
Proof.
  unfold dropna_title_genre.
  rewrite elem_of_list_filter, andb_true_iff, negb_true_iff,
    bool_decide_eq_false, bool_decide_eq_true.
  destruct (row_genre r); split; intros (? & ? & H); repeat split; try done.
Qed.

Lemma clean_rows (df : list row) (r : row) :
  r ∈ clean df →
  ∃ r0 g, r0 ∈ df ∧ row_title r0 ≠ NaN ∧ row_genre r0 = Some g ∧
          r = Row (row_title r0) (Some (normalize_genre g)) (row_rating r0) (row_year r0).
Proof.
  unfold clean. intros Hr%drop_duplicates_elem_of.
  apply list_elem_of_fmap in Hr as (r0 & -> & Hr0).
  apply dropna_title_genre_spec in Hr0 as (Hr0 & Ht & Hg).
  destruct (row_genre r0) as [g|] eqn:Hg0; [| done].
  exists r0, g. unfold set_genre. by rewrite Hg0.
Qed.

(** C5, counterexample: a file whose only row has no title is cleaned to an
    empty collection, and the load returns that empty collection, not the
    unavailable result. *)
Lemma C5_counterexample_empty_after_cleaning :
  clean [untitled_row] = []
  ∧ load_and_clean_movies (Stored [untitled_row]) = Some []
  ∧ ¬ unavailable_iff_empty_after_cleaning (Stored [untitled_row]).
Proof.
  split; [reflexivity |]. split; [reflexivity |].
  intros [_ H].
  assert (Hload : load_and_clean_movies (Stored [untitled_row]) = None).
  { apply H. right. by exists [untitled_row]. }
  vm_compute in Hload. discriminate.
Qed.

(** C5, amended: the load returns the unavailable result exactly when the
    file is missing, when reading it fails, when the cleaning raises on what
    was read (a column is absent, or the Genre column is one of numbers) or
    when no row read has a genre, which is so of a file without rows and of
    a file whose genre fields are all empty: pandas reads such a column as
    numbers, and the cleaning raises on it too.  In every other case the
    load keeps the rows that have a title and a genre, puts the genre in
    lower case and removes its spaces, deduplicates on (title, year), each
    pair keeping its first row, in that order of steps, and returns the
    result, which is empty when every row was dropped. *)
Theorem C5_load_unavailable_cases :
  ∀ csv_file : file_state,
    (load_and_clean_movies csv_file = None ↔
       csv_file = Missing ∨ csv_file = Unreadable ∨ csv_file = Malformed
       ∨ ∃ df, csv_file = Stored df ∧ Forall (λ r, row_genre r = None) df)
    ∧ (∀ df cleaned,
         csv_file = Stored df → load_and_clean_movies csv_file = Some cleaned →
         let kept :=
           List.filter (λ r, negb (bool_decide (row_title r = NaN))
                             && negb (bool_decide (row_genre r = None))) df in
         let normalized :=
           map (λ r, Row (row_title r)
                         ((λ g, remove_spaces (lower g)) <$> row_genre r)
                         (row_rating r) (row_year r)) kept in
         cleaned `sublist_of` normalized
         ∧ NoDup (map row_key cleaned)
         ∧ ∀ r, r ∈ normalized →
                ∃ r', List.find (λ x, bool_decide (row_key x = row_key r)) normalized
                      = Some r'
                      ∧ r' ∈ cleaned)
    ∧ remove_spaces (lower (str "Science Fiction")) = str "sciencefiction".
Proof.
  intros csv_file. split; [| split; [| reflexivity]].
  - destruct csv_file as [| | | df]; simpl.
    + split; [intros _; by left | done].
    + split; [intros _; right; by left | done].
    + split; [intros _; right; right; by left | done].
    + destruct df as [|r df].
      * split; [| done]. intros _. right. right. right. by exists [].
      * destruct (genre_texts (r :: df)) eqn:Hg.
        -- split; [done |]. intros [? | [? | [? | (df' & [= <-] & Hall)]]]; try done.
           apply genre_texts_false in Hall. congruence.
        -- split; [| done]. intros _. right. right. right.
           exists (r :: df). split; [done |]. by apply genre_texts_false.
  - intros df cleaned -> (rows & [= <-] & _ & ->)%load_and_clean_movies_Some.
    assert (Hkept : List.filter (λ r, negb (bool_decide (row_title r = NaN))
                                      && negb (bool_decide (row_genre r = None))) df
                    = dropna_title_genre df).
    { unfold dropna_title_genre. apply filter_ext_in. intros r _. f_equal.
      destruct (row_genre r); [done |].
      rewrite bool_decide_eq_true_2 by done. symmetry.
      apply bool_decide_eq_false. by intros [? ?]. }
    cbv zeta. rewrite Hkept.
    change (map (λ r, Row (row_title r) ((λ g, remove_spaces (lower g)) <$> row_genre r)
                          (row_rating r) (row_year r)) (dropna_title_genre df))
      with (map (set_genre normalize_genre) (dropna_title_genre df)).
    split; [apply drop_duplicates_sublist |].
    split; [apply drop_duplicates_NoDup |].
    intros r Hr. by apply drop_duplicates_first.
Qed.

Lemma C5_load_witness :
  load_and_clean_movies (Stored [untitled_row]) = None ↔
  Stored [untitled_row] = Missing ∨ Stored [untitled_row] = Unreadable
  ∨ Stored [untitled_row] = Malformed
  ∨ ∃ df, Stored [untitled_row] = Stored df ∧ Forall (λ r, row_genre r = None) df.
Proof. exact (proj1 (C5_load_unavailable_cases (Stored [untitled_row]))). Defined.

Lemma try_patterns_title (ps : list regex) (text : pystr) (m : movie) :
  try_patterns ps text = Some m → 3 ≤ length (Title m).
Proof.
  induction ps as [|p ps IH]; simpl; [done |].
  destruct (re_search p text) as [[whole ms]|]; [|done].
  destruct (rejected (strip (group 1 ms))) eqn:Hrej; [done |].
  intros [= <-]. simpl.
  unfold rejected in Hrej. apply orb_false_iff in Hrej as [Hlen _].
  apply Nat.ltb_ge in Hlen. done.
Qed.

Lemma NoDup_key_sublist {A K : Type} (key : A → K) (l k : list A) :
  l `sublist_of` k → NoDup (map key k) → NoDup (map key l).
Proof. intros Hsub Hk. apply (sublist_NoDup (map key l) (map key k)); [done | by apply fmap_sublist]. Qed.

(** C6: the rows a successful load returns have pairwise distinct
    (title, year) pairs, compared as pandas compares the cells (two numerals
    of one number are the same year); each is the first row of its pair in
    file order; no title is missing, an empty title field being read as
    missing, so that a title that is a text has a positive length.  The rows
    a scrape saves have pairwise distinct (title, year) too, and titles of
    positive length. *)
Theorem C6_store_keys_distinct_titles_nonempty :
  (∀ (csv_file : file_state) (df : list row),
     load_and_clean_movies csv_file = Some df →
     NoDup (map row_key df)
     ∧ Forall (λ r, row_title r ≠ NaN) df
     ∧ ∃ rows, csv_file = Stored rows
         ∧ (Forall (λ r, row_title r ≠ Str []) rows →
            Forall (λ r, ∀ t, row_title r = Str t → 0 < length t) df)
         ∧ df `sublist_of` map (set_genre normalize_genre) (dropna_title_genre rows)
         ∧ ∀ r, r ∈ map (set_genre normalize_genre) (dropna_title_genre rows) →
             ∃ r', List.find (λ x, bool_decide (row_key x = row_key r))
                     (map (set_genre normalize_genre) (dropna_title_genre rows))
                   = Some r'
                   ∧ r' ∈ df)
  ∧ (∀ (all_elements : list element) (saved : list movie),
       scrape_wikipedia_best_movies all_elements = Some saved →
       NoDup (map title_year saved)
       ∧ Forall (λ m, 0 < length (Title m)) saved)
  ∧ clean [ Row (Str (str "Alien")) (Some (str "Horror")) NaN (whole 1979);
            Row (Str (str "Alien")) (Some (str "Science Fiction")) NaN
                (Num (Q2Qc (3958 # 2))) ]
    = [ Row (Str (str "Alien")) (Some (str "horror")) NaN (whole 1979) ].
Proof.
  split; [| split; [| reflexivity]].
  - intros csv_file df (rows & -> & Hne & ->)%load_and_clean_movies_Some.
    split; [apply drop_duplicates_NoDup |]. split.
    + apply Forall_forall. by intros r (r0 & g & Hr0 & Ht & Hg & ->)%clean_rows.
    + exists rows. split; [done |]. split; [| split].
      * intros Hrows. apply Forall_forall.
        intros r (r0 & g & Hr0 & Ht & Hg & ->)%clean_rows t. simpl. intros Hrt.
        rewrite Forall_forall in Hrows. specialize (Hrows r0 Hr0).
        destruct t; [congruence | simpl; lia].
      * apply drop_duplicates_sublist.
      * intros r Hr. by apply drop_duplicates_first.
  - intros all_elements saved Hsaved.
    destruct (heading_state_movies all_elements) as [|m0 ms] eqn:Hms.
    + rewrite scrape_fallback_path in Hsaved by done.
      unfold scrape_general_movies in Hsaved.
      destruct (general_movies (lists_of all_elements)) as [|m ms] eqn:Hgen; [done |].
      injection Hsaved as <-. rewrite <- Hgen.
      split; [apply drop_duplicates_NoDup |].
      apply Forall_forall. intros x Hx%drop_duplicates_elem_of.
      unfold general_movies in Hx.
      apply list_elem_of_omap in Hx as (li & _ & Hli).
      apply try_patterns_title in Hli. lia.
    + rewrite scrape_heading_path in Hsaved by (by rewrite Hms).
      injection Hsaved as <-. split.
      * eapply NoDup_key_sublist; [apply filter_sublist | apply drop_duplicates_NoDup].
      * apply Forall_forall. intros x [_ Hx]%elem_of_list_filter.
        by apply Nat.ltb_lt in Hx.
Qed.

Lemma C6_store_witness :
  NoDup (map row_key
           [Row (Str (str "Alien")) (Some (str "horror")) NaN (whole 1979)])
  ∧ Forall (λ r, ∀ t, row_title r = Str t → 0 < length t)
           [Row (Str (str "Alien")) (Some (str "horror")) NaN (whole 1979)].
Proof.
  destruct (proj1 C6_store_keys_distinct_titles_nonempty
              (Stored sample_rows) _ eq_refl)
    as (Hnd & _ & rows & Heq & Hlen & _).
  injection Heq as <-. split; [exact Hnd |].
  apply Hlen. repeat constructor; discriminate.
Defined.

Lemma existsb_elem_of {A : Type} (f : A → bool) (l : list A) :
  existsb f l = true ↔ ∃ x, x ∈ l ∧ f x = true.
Proof.
  rewrite existsb_exists. split; intros (x & Hx & Hf); exists x;
    (split; [by apply list_elem_of_In | done]).
Qed.

Lemma genre_mask_spec (genres : list pystr) (g : option pystr) :
  genre_mask (map normalize_query genres) g = true ↔
  ∃ q, q ∈ genres ∧ occurs_in (normalize_query q) (lower (cell_str g)).
Proof.
  unfold genre_mask. rewrite existsb_elem_of. split.
  - intros (gen & (q & -> & Hq)%list_elem_of_fmap & Hc).
    exists q. split; [done | by apply contains_spec].
  - intros (q & Hq & Hocc). exists (normalize_query q). split.
    + apply list_elem_of_fmap. by exists q.
    + by apply contains_spec.
Qed.

Lemma lower_char_idemp (c : ascii) : lower_char (lower_char c) = lower_char c.
Proof.
  destruct c as [[] [] [] [] [] [] [] []]; reflexivity.
Qed.

Lemma lower_char_space (c : ascii) : (code (lower_char c) =? 32) = (code c =? 32).
Proof.
  destruct c as [[] [] [] [] [] [] [] []]; reflexivity.
Qed.

Lemma lower_idemp (s : pystr) : lower (lower s) = lower s.
Proof.
  unfold lower. rewrite map_map. apply map_ext. intros c. apply lower_char_idemp.
Qed.

Lemma lower_remove_spaces (s : pystr) :
  lower (remove_spaces s) = remove_spaces (lower s).
Proof.
  unfold lower, remove_spaces. induction s as [|c s IH]; [done |].
  simpl. rewrite lower_char_space.
  destruct (code c =? 32); simpl; by rewrite IH.
Qed.

Lemma remove_spaces_idemp (s : pystr) :
  remove_spaces (remove_spaces s) = remove_spaces s.
Proof.
  unfold remove_spaces. induction s as [|c s IH]; [done |].
  simpl. destruct (code c =? 32) eqn:Hc; simpl; [done |].
  by rewrite Hc, IH.
Qed.

(** A stored genre is a fixed point of the store's normalization. *)
Lemma normalize_genre_idemp (g : pystr) :
  normalize_genre (normalize_genre g) = normalize_genre g.
Proof.
  unfold normalize_genre.
  by rewrite lower_remove_spaces, lower_idemp, remove_spaces_idemp.
Qed.

Lemma lower_normalize_genre (g : pystr) :
  lower (normalize_genre g) = normalize_genre g.
Proof.
  unfold normalize_genre. by rewrite lower_remove_spaces, lower_idemp.
Qed.

(** ** The fallback extractor *)

(** C7, at the failing input: the first pattern matches with the title
    "It", which is rejected as too short, and the loop goes on to the third
    pattern, so the item still produces a record. *)
Theorem C7_rejected_candidate_moves_to_next_pattern :
  (∃ whole m, re_search re_title_paren_year short_title_item = Some (whole, m)
      ∧ strip (group 1 m) = str "It"
      ∧ rejected (strip (group 1 m)) = true)
  ∧ try_patterns patterns short_title_item
      = Some (Movie (str "It (2017)") General unrated (str "2018"))
  ∧ scrape_general_movies [[short_title_item]]
      = Some [Movie (str "It (2017)") General unrated (str "2018")].
Proof.
  split; [| split; reflexivity].
  destruct (re_search re_title_paren_year short_title_item) as [[whole m]|] eqn:H;
    [| vm_compute in H; discriminate].
  exists whole, m. split; [done |].
  vm_compute in H. injection H as <- <-. split; reflexivity.
Qed.

(** ** The sampler *)

Lemma sample_lookup {A : Type} (rows : list A) (idxs : list nat) :
  Forall (λ i, i < length rows) idxs →
  Forall2 (λ i r, rows !! i = Some r) idxs (omap (λ i, rows !! i) idxs).
Proof.
  induction 1 as [|i idxs Hi _ IH]; simpl; [constructor |].
  destruct (lookup_lt_is_Some_2 rows i Hi) as [r Hr].
  rewrite Hr. by constructor.
Qed.

Lemma Forall2_lookup_NoDup {A : Type} (rows : list A) (idxs : list nat) (recs : list A) :
  Forall2 (λ i r, rows !! i = Some r) idxs recs →
  NoDup idxs → NoDup rows → NoDup recs.
Proof.
  induction 1 as [|i r idxs recs Hir Hrest IH]; intros Hidx Hrows; [constructor |].
  apply NoDup_cons in Hidx as [Hi Hidx].
  constructor; [| by apply IH].
  intros Hr. apply Hi.
  clear IH Hidx Hi. induction Hrest as [|j r' idxs recs Hjr _ IH]; [by apply elem_of_nil in Hr |].
  apply elem_of_cons in Hr as [<- | Hr].
  - rewrite (NoDup_lookup rows i j r Hrows Hir Hjr). by left.
  - right. by apply IH.
Qed.

Lemma load_and_clean_movies_NoDup (csv_file : file_state) (df : list row) :
  load_and_clean_movies csv_file = Some df → NoDup df.
Proof.
  intros (lines & -> & _ & ->)%load_and_clean_movies_Some.
  apply (NoDup_fmap_1 row_key). apply drop_duplicates_NoDup.
Qed.

(** C8: from a non-empty filtered set the sampler returns exactly
    min(N, size) rows, taken at pairwise distinct positions of the set, so
    that no row of a cleaned store appears twice, and asking for more rows
    than there are is no error. *)
Theorem C8_sample_size_and_distinct :
  ∀ (all_genres : list pystr) (perm : list nat) (df : list row)
    (chosen_genres : list pystr) (num_recommendations : nat),
    filter_movies_by_genres df chosen_genres ≠ [] →
    perm ≡ₚ seq 0 (length (filter_movies_by_genres df chosen_genres)) →
    ∃ recommendations idxs,
      recommend_movies all_genres perm df chosen_genres num_recommendations
        = Recommended recommendations
      ∧ length recommendations
          = Nat.min num_recommendations (length (filter_movies_by_genres df chosen_genres))
      ∧ NoDup idxs
      ∧ Forall2 (λ i r, filter_movies_by_genres df chosen_genres !! i = Some r)
                idxs recommendations
      ∧ (∀ csv_file, load_and_clean_movies csv_file = Some df →
                     NoDup recommendations).
Proof.
  intros all_genres perm df chosen n Hne Hperm.
  assert (Hdf : ∀ csv_file, load_and_clean_movies csv_file = Some df →
                  NoDup (filter_movies_by_genres df chosen)).
  { intros csv_file Hload%load_and_clean_movies_NoDup.
    eapply sublist_NoDup; [exact Hload | apply filter_sublist]. }
  unfold recommend_movies.
  destruct (filter_movies_by_genres df chosen) as [|r0 filtered] eqn:Hf; [done |].
  set (rows := r0 :: filtered) in *.
  set (size := Nat.min n (length rows)).
  assert (Hidx : NoDup (take size perm)).
  { apply (sublist_NoDup _ perm); [| apply sublist_take].
    rewrite Hperm. apply NoDup_seq. }
  assert (Hlt : Forall (λ i, i < length rows) (take size perm)).
  { apply Forall_forall. intros i Hi.
    apply (elem_of_sublist _ perm) in Hi; [| apply sublist_take].
    rewrite Hperm in Hi. apply elem_of_seq in Hi. lia. }
  pose proof (sample_lookup rows _ Hlt) as Hall.
  exists (sample perm rows size), (take size perm).
  split; [done |]. split; [| split; [done | split; [done |]]].
  - unfold sample. rewrite <- (Forall2_length _ _ _ Hall), length_take.
    rewrite (Permutation_length Hperm), length_seq. unfold size. lia.
  - intros csv_file Hload. eapply Forall2_lookup_NoDup; [done | done |].
    by eapply Hdf.
Qed.
(** Five recommendations asked of a filtered set of two rows. *)
Lemma C8_sample_witness :
  ∃ recommendations idxs,
    recommend_movies [] [1; 0] [action_row; drama_row] [str "action"] 5
      = Recommended recommendations
    ∧ length recommendations = 2
    ∧ NoDup idxs
    ∧ Forall2 (λ i r, [action_row; drama_row] !! i = Some r) idxs recommendations
    ∧ (∀ csv_file, load_and_clean_movies csv_file = Some [action_row; drama_row] →
                   NoDup recommendations).
Proof.
  apply (C8_sample_size_and_distinct [] [1; 0] [action_row; drama_row]
           [str "action"] 5).
  - vm_compute. discriminate.
  - apply perm_swap.
Defined.

(** ** The order of scored candidates *)

Lemma code_inj (c d : ascii) : code c = code d → c = d.
Proof.
  unfold code. intros H.
  by rewrite <- (ascii_nat_embedding c), <- (ascii_nat_embedding d), H.
Qed.

Lemma pystr_compare_refl (s : pystr) : pystr_compare s s = Eq.
Proof. induction s as [|c s IH]; simpl; [done |]. by rewrite Nat.compare_refl. Qed.

Lemma pystr_compare_eq (s t : pystr) : pystr_compare s t = Eq → s = t.
Proof.
  revert t. induction s as [|c s IH]; intros [|d t]; simpl; try done.
  destruct (Nat.compare_spec (code c) (code d)) as [Hcd | |]; try done.
  intros Hst. by rewrite (code_inj _ _ Hcd), (IH t Hst).
Qed.

Lemma pystr_compare_antisym (s t : pystr) :
  pystr_compare t s = CompOpp (pystr_compare s t).
Proof.
  revert t. induction s as [|c s IH]; intros [|d t]; simpl; try done.
  rewrite (Nat.compare_antisym (code c) (code d)).
  destruct (code c ?= code d); simpl; [apply IH | done | done].
Qed.

Lemma pystr_compare_lt_trans (s t u : pystr) :
  pystr_compare s t = Lt → pystr_compare t u = Lt → pystr_compare s u = Lt.
Proof.
  revert t u. induction s as [|c s IH]; intros [|d t] [|e u]; simpl; try done.
  destruct (Nat.compare_spec (code c) (code d)) as [Hcd | Hcd | Hcd]; try done;
    destruct (Nat.compare_spec (code d) (code e)) as [Hde | Hde | Hde]; try done;
    intros Hst Htu.
  - rewrite Hcd, Hde, Nat.compare_refl. by eapply IH.
  - by rewrite (proj2 (Nat.compare_lt_iff _ _)) by lia.
  - by rewrite (proj2 (Nat.compare_lt_iff _ _)) by lia.
  - by rewrite (proj2 (Nat.compare_lt_iff _ _)) by lia.
Qed.

Lemma pystr_le_refl (s : pystr) : pystr_le s s.
Proof. unfold pystr_le. by rewrite pystr_compare_refl. Qed.

Lemma pystr_le_trans (s t u : pystr) : pystr_le s t → pystr_le t u → pystr_le s u.
Proof.
  unfold pystr_le. intros Hst Htu.
  destruct (pystr_compare s t) eqn:H1; [| | done].
  - by rewrite (pystr_compare_eq _ _ H1).
  - destruct (pystr_compare t u) eqn:H2; [| | done].
    + by rewrite <- (pystr_compare_eq _ _ H2), H1.
    + by rewrite (pystr_compare_lt_trans _ _ _ H1 H2).
Qed.

Lemma pystr_le_total (s t : pystr) : pystr_le s t ∨ pystr_le t s.
Proof.
  unfold pystr_le. rewrite (pystr_compare_antisym s t).
  destruct (pystr_compare s t); simpl; [by left | by left | by right].
Qed.

Lemma pystr_le_antisym (s t : pystr) : pystr_le s t → pystr_le t s → s = t.
Proof.
  unfold pystr_le. rewrite (pystr_compare_antisym s t).
  destruct (pystr_compare s t) eqn:H; simpl; try done.
  intros _ _. by apply pystr_compare_eq.
Qed.

Lemma scored_le_refl (p : Q * pystr) : scored_le p p.
Proof. right. split; [reflexivity | apply pystr_le_refl]. Qed.

Lemma scored_le_trans (p q r : Q * pystr) :
  scored_le p q → scored_le q r → scored_le p r.
Proof.
  unfold scored_le. intros [Hpq | [Hpq Hs]] [Hqr | [Hqr Ht]].
  - left. by eapply Qlt_trans.
  - left. by rewrite <- Hqr.
  - left. by rewrite Hpq.
  - right. split; [by rewrite Hpq | by eapply pystr_le_trans].
Qed.

Lemma scored_le_total (p q : Q * pystr) : scored_le p q ∨ scored_le q p.
Proof.
  unfold scored_le.
  destruct (Qcompare_spec p.1 q.1) as [Heq | Hlt | Hgt].
  - destruct (pystr_le_total p.2 q.2); [left | right]; right;
      (split; [first [done | by symmetry] | done]).
  - left. by left.
  - right. by left.
Qed.

Lemma scored_lt_false (p q : Q * pystr) :
  scored_lt p q = false ↔ scored_le q p.
Proof.
  unfold scored_lt, scored_compare, scored_le, pystr_le.
  rewrite (pystr_compare_antisym p.2 q.2).
  destruct (Qcompare_spec p.1 q.1) as [Heq | Hlt | Hgt].
  - destruct (pystr_compare p.2 q.2); simpl; split; try done.
    + intros _. right. split; [by symmetry | done].
    + intros [Hlt | [_ ?]]; [| done]. rewrite Heq in Hlt. by apply Qlt_irrefl in Hlt.
    + intros _. right. split; [by symmetry | done].
  - split; [done |]. intros [Hgt | [Heq _]].
    + exfalso. apply (Qlt_irrefl p.1). by eapply Qlt_trans.
    + rewrite Heq in Hlt. by apply Qlt_irrefl in Hlt.
  - split; [| done]. intros _. by left.
Qed.

Lemma scored_lt_true (p q : Q * pystr) :
  scored_lt p q = true → scored_le p q.
Proof.
  intros Hlt. destruct (scored_le_total p q) as [H | H]; [done |].
  apply scored_lt_false in H. congruence.
Qed.

(** ** Sorting *)

Lemma insert_desc_perm (p : Q * pystr) (l : list (Q * pystr)) :
  insert_desc p l ≡ₚ p :: l.
Proof.
  induction l as [|q l IH]; simpl; [done |].
  destruct (scored_lt q p); [done |].
  rewrite IH. apply perm_swap.
Qed.

Lemma sort_desc_perm (l : list (Q * pystr)) : sort_desc l ≡ₚ l.
Proof.
  induction l as [|p l IH]; simpl; [done |].
  by rewrite insert_desc_perm, IH.
Qed.

Lemma insert_desc_sorted (p : Q * pystr) (l : list (Q * pystr)) :
  StronglySorted (flip scored_le) l →
  StronglySorted (flip scored_le) (insert_desc p l).
Proof.
  induction l as [|q l IH]; simpl; intros Hl.
  - repeat constructor.
  - apply StronglySorted_cons in Hl as [Hq Hl].
    destruct (scored_lt q p) eqn:Hqp.
    + apply scored_lt_true in Hqp.
      apply StronglySorted_cons. split.
      * constructor; [done |].
        eapply Forall_impl; [exact Hq |]. simpl. intros x Hx.
        by eapply scored_le_trans.
      * apply StronglySorted_cons. by split.
    + apply scored_lt_false in Hqp.
      apply StronglySorted_cons. split; [| by apply IH].
      rewrite insert_desc_perm. by constructor.
Qed.

Lemma sort_desc_sorted (l : list (Q * pystr)) :
  StronglySorted (flip scored_le) (sort_desc l).
Proof.
  induction l as [|p l IH]; simpl; [constructor | by apply insert_desc_sorted].
Qed.

Lemma StronglySorted_lookup {A : Type} (R : relation A) (l : list A)
    (i j : nat) (x y : A) :
  StronglySorted R l → i < j → l !! i = Some x → l !! j = Some y → R x y.
Proof.
  intros Hl. revert i j. induction Hl as [|z l Hl IH Hz]; intros i j Hij Hi Hj.
  - done.
  - destruct j as [|j]; [lia |]. simpl in Hj. destruct i as [|i].
    + injection Hi as <-. rewrite Forall_forall in Hz.
      apply Hz. by eapply list_elem_of_lookup_2.
    + simpl in Hi. apply (IH i j); [lia | done | done].
Qed.

(** ** The matching blocks are common text *)

Lemma common_block_zero (A B : pystr) (ea eb : nat) :
  ea ≤ length A → eb ≤ length B → common_block A B ea eb 0.
Proof. unfold common_block. intros. repeat split; try lia; done. Qed.

Lemma common_block_extend (A B : pystr) (ea eb k : nat) (x : ascii) :
  common_block A B ea eb k → A !! ea = Some x → B !! eb = Some x →
  common_block A B (S ea) (S eb) (S k).
Proof.
  intros (Hka & Hkb & Hla & Hlb & Heq) Ha Hb.
  pose proof (lookup_lt_Some _ _ _ Ha). pose proof (lookup_lt_Some _ _ _ Hb).
  unfold common_block. repeat split; try lia.
  replace (S ea - S k) with (ea - k) by lia.
  replace (S eb - S k) with (eb - k) by lia.
  rewrite (take_S_r (drop (ea - k) A) k x), (take_S_r (drop (eb - k) B) k x).
  - by rewrite Heq.
  - rewrite lookup_drop. by replace (eb - k + k) with eb by lia.
  - rewrite lookup_drop. by replace (ea - k + k) with ea by lia.
Qed.

Lemma drop_cons_lookup {A : Type} (l : list A) (n : nat) (x : A) (l' : list A) :
  drop n l = x :: l' → l !! n = Some x ∧ l' = drop (S n) l.
Proof.
  intros H. assert (Hx : l !! n = Some x).
  { pose proof (lookup_drop l n 0) as H0. rewrite H in H0. simpl in H0.
    by rewrite Nat.add_0_r in H0. }
  split; [done |]. rewrite (drop_S l x n Hx) in H. by injection H.
Qed.

Lemma longest_row_ok (popular : ascii → bool) (A B : pystr) (x : ascii) (i : nat) :
  A !! i = Some x →
  ∀ (b : pystr) (j2len : list nat) (diag j : nat) (best : nat * nat * nat)
    (newj2len : list nat) (best' : nat * nat * nat),
    b = drop j B →
    (∀ j' k, j2len !! j' = Some k → common_block A B i (S (j + j')) k) →
    common_block A B i j diag →
    best_ok A B best →
    longest_row popular x b j2len diag i j best = (newj2len, best') →
    (∀ j' k, newj2len !! j' = Some k → common_block A B (S i) (S (j + j')) k)
    ∧ best_ok A B best'.
Proof.
  intros Hi. pose proof (lookup_lt_Some _ _ _ Hi) as Hilt.
  induction b as [|y b IH]; intros j2len diag j best newj2len best' Hb Hrow Hdiag Hbest Hrun.
  - simpl in Hrun. injection Hrun as <- <-. split; [| done].
    intros j' k Hk. by rewrite lookup_nil in Hk.
  - symmetry in Hb. apply drop_cons_lookup in Hb as [Hj Hb].
    pose proof (lookup_lt_Some _ _ _ Hj) as Hjlt.
    assert (Hhere : common_block A B i (S j) (hd 0 j2len)).
    { destruct j2len as [|k0 j2len]; simpl.
      - apply common_block_zero; lia.
      - specialize (Hrow 0 k0 eq_refl). by rewrite Nat.add_0_r in Hrow. }
    assert (Htl : ∀ j' k, tl j2len !! j' = Some k → common_block A B i (S (S j + j')) k).
    { intros j' k Hk. replace (S (S j + j')) with (S (j + S j')) by lia.
      apply Hrow. destruct j2len; simpl in Hk; [by rewrite lookup_nil in Hk | done]. }
    simpl in Hrun. destruct (Ascii.eqb x y && negb (popular y)) eqn:Hxy.
    + apply andb_true_iff in Hxy as [Hxy _]. apply Ascii.eqb_eq in Hxy as <-.
      assert (Hnew : common_block A B (S i) (S j) (diag + 1)).
      { rewrite Nat.add_1_r. by apply (common_block_extend A B i j diag x). }
      set (best1 := if best.2 <? diag + 1
                    then (i + 1 - (diag + 1), j + 1 - (diag + 1), diag + 1)
                    else best) in *.
      assert (Hbest1 : best_ok A B best1).
      { unfold best1. destruct (best.2 <? diag + 1); [| done].
        destruct Hnew as (? & ? & ? & ? & ?). unfold best_ok. simpl.
        replace (i + 1 - (diag + 1) + (diag + 1)) with (S i) by lia.
        replace (j + 1 - (diag + 1) + (diag + 1)) with (S j) by lia.
        by repeat split. }
      destruct (longest_row popular x b (tl j2len) (hd 0 j2len) i (S j) best1)
        as [row best2] eqn:Hrec.
      injection Hrun as <- <-.
      destruct (IH _ _ _ _ _ _ Hb Htl Hhere Hbest1 Hrec) as [Hrow' Hbest2].
      split; [| done]. intros [|j'] k Hk.
      * injection Hk as <-. by rewrite Nat.add_0_r.
      * replace (S (j + S j')) with (S (S j + j')) by lia. by apply Hrow'.
    + destruct (longest_row popular x b (tl j2len) (hd 0 j2len) i (S j) best)
        as [row best2] eqn:Hrec.
      injection Hrun as <- <-.
      destruct (IH _ _ _ _ _ _ Hb Htl Hhere Hbest Hrec) as [Hrow' Hbest2].
      split; [| done]. intros [|j'] k Hk.
      * injection Hk as <-. apply common_block_zero; lia.
      * replace (S (j + S j')) with (S (S j + j')) by lia. by apply Hrow'.
Qed.

Lemma longest_rows_ok (popular : ascii → bool) (A B : pystr) :
  ∀ (a : pystr) (i : nat) (j2len : list nat) (best : nat * nat * nat),
    a = drop i A →
    (∀ j' k, j2len !! j' = Some k → common_block A B i (S j') k) →
    best_ok A B best →
    best_ok A B (longest_rows popular a B j2len i best).
Proof.
  induction a as [|x a IH]; intros i j2len best Ha Hrow Hbest; [done |].
  symmetry in Ha. apply drop_cons_lookup in Ha as [Hi Ha].
  pose proof (lookup_lt_Some _ _ _ Hi) as Hilt.
  simpl. destruct (longest_row popular x B j2len 0 i 0 best) as [row best1] eqn:Hrun.
  destruct (longest_row_ok popular A B x i Hi B j2len 0 0 best row best1)
    as [Hrow' Hbest1];
    try done.
  - apply common_block_zero; lia.
  - by apply IH.
Qed.

Lemma common_prefix_spec (a b : pystr) :
  common_prefix a b ≤ length a ∧ common_prefix a b ≤ length b
  ∧ take (common_prefix a b) a = take (common_prefix a b) b.
Proof.
  revert b. induction a as [|x a IH]; intros [|y b]; simpl; try (repeat split; lia).
  destruct (Ascii.eqb x y) eqn:Hxy; simpl; [| repeat split; lia].
  apply Ascii.eqb_eq in Hxy as ->. destruct (IH b) as (? & ? & Heq).
  repeat split; [lia | lia | by rewrite Heq].
Qed.

Lemma common_prefix_same (a : pystr) : common_prefix a a = length a.
Proof. induction a as [|x a IH]; [done |]. simpl. by rewrite Ascii.eqb_refl, IH. Qed.

(** The block the table gives stays a common block when it is extended. *)
Lemma extend_back_ok (a b : pystr) (i j k : nat) :
  i + k ≤ length a → j + k ≤ length b →
  take k (drop i a) = take k (drop j b) →
  let back := common_prefix (rev (take i a)) (rev (take j b)) in
  back ≤ i ∧ back ≤ j
  ∧ take (k + back) (drop (i - back) a) = take (k + back) (drop (j - back) b).
Proof.
  intros Hi Hj Heq back.
  destruct (common_prefix_spec (rev (take i a)) (rev (take j b))) as (Hla & Hlb & Hpre).
  fold back in Hla, Hlb, Hpre.
  rewrite length_rev, length_take in Hla, Hlb.
  split; [lia |]. split; [lia |].
  rewrite !firstn_rev, !length_take in Hpre.
  apply (f_equal (@rev _)) in Hpre. rewrite !rev_involutive in Hpre.
  replace (i `min` length a - back) with (i - back) in Hpre by lia.
  replace (j `min` length b - back) with (j - back) in Hpre by lia.
  rewrite (Nat.add_comm k back), <- !take_take_drop, !drop_drop.
  replace (i - back + back) with i by lia. replace (j - back + back) with j by lia.
  rewrite Heq. f_equal.
  rewrite !take_drop_commute.
  replace (i - back + back) with i by lia. replace (j - back + back) with j by lia.
  exact Hpre.
Qed.

Lemma extend_forth_ok (a b : pystr) (i j k : nat) :
  i + k ≤ length a → j + k ≤ length b →
  take k (drop i a) = take k (drop j b) →
  let forth := common_prefix (drop (i + k) a) (drop (j + k) b) in
  i + (k + forth) ≤ length a ∧ j + (k + forth) ≤ length b
  ∧ take (k + forth) (drop i a) = take (k + forth) (drop j b).
Proof.
  intros Hi Hj Heq forth.
  destruct (common_prefix_spec (drop (i + k) a) (drop (j + k) b)) as (Hla & Hlb & Hpre).
  fold forth in Hla, Hlb, Hpre. rewrite length_drop in Hla, Hlb.
  split; [lia |]. split; [lia |].
  by rewrite <- !take_take_drop, !drop_drop, Heq, Hpre.
Qed.

Lemma find_longest_match_ok (popular : ascii → bool) (a b : pystr) (i j k : nat) :
  find_longest_match popular a b = (i, j, k) →
  i + k ≤ length a ∧ j + k ≤ length b ∧ take k (drop i a) = take k (drop j b).
Proof.
  unfold find_longest_match.
  pose proof (longest_rows_ok popular a b a 0 [] (0, 0, 0)) as Hok.
  destruct (longest_rows popular a b [] 0 (0, 0, 0)) as [[i0 j0] k0].
  destruct Hok as (_ & _ & Hla & Hlb & Heq).
  - done.
  - intros j' k' Hk. by rewrite lookup_nil in Hk.
  - apply common_block_zero; simpl; lia.
  - simpl in Hla, Hlb, Heq.
    replace (i0 + k0 - k0) with i0 in Heq by lia.
    replace (j0 + k0 - k0) with j0 in Heq by lia.
    destruct (extend_back_ok a b i0 j0 k0 Hla Hlb Heq) as (Hbi & Hbj & Heq1).
    set (back := common_prefix (rev (take i0 a)) (rev (take j0 b))) in *.
    destruct (extend_forth_ok a b (i0 - back) (j0 - back) (k0 + back)) as (Hfi & Hfj & Heq2);
      [lia | lia | done |].
    intros [= <- <- <-]. done.
Qed.

(** The fuel [length a] of [matches] is enough: more fuel counts the same. *)
Lemma count_matches_fuel (popular : ascii → bool) (fuel : nat) :
  ∀ a b : pystr,
    length a ≤ fuel →
    count_matches (S fuel) popular a b = count_matches fuel popular a b.
Proof.
  induction fuel as [|fuel IH]; intros a b Hlen.
  - destruct a; [| simpl in Hlen; lia]. reflexivity.
  - change (count_matches (S (S fuel)) popular a b)
      with (let '(i, j, k) := find_longest_match popular a b in
            if k =? 0 then 0
            else k + count_matches (S fuel) popular (take i a) (take j b)
                   + count_matches (S fuel) popular (drop (i + k) a) (drop (j + k) b)).
    change (count_matches (S fuel) popular a b)
      with (let '(i, j, k) := find_longest_match popular a b in
            if k =? 0 then 0
            else k + count_matches fuel popular (take i a) (take j b)
                   + count_matches fuel popular (drop (i + k) a) (drop (j + k) b)).
    destruct (find_longest_match popular a b) as [[i j] k] eqn:Hflm.
    apply find_longest_match_ok in Hflm as (Hia & _ & _).
    destruct (k =? 0) eqn:Hk; [done |]. apply Nat.eqb_neq in Hk.
    rewrite !IH; [done | |].
    + rewrite length_drop. lia.
    + rewrite length_take. lia.
Qed.

Lemma matches_fuel (fuel : nat) (a b : pystr) :
  length a ≤ fuel → count_matches fuel (bpopular b) a b = matches a b.
Proof.
  unfold matches. induction 1 as [|fuel Hle IH]; [done |].
  by rewrite count_matches_fuel.
Qed.

Lemma split_at_block {A : Type} (l : list A) (i k : nat) :
  l = take i l ++ take k (drop i l) ++ drop (i + k) l.
Proof. by rewrite <- drop_drop, !take_drop. Qed.

(** The blocks counted by [count_matches], read left to right, form a text
    that can be obtained from [a] and from [b] by deleting characters. *)
Lemma count_matches_common (popular : ascii → bool) (fuel : nat) (a b : pystr) :
  ∃ m : pystr, m `sublist_of` a ∧ m `sublist_of` b
               ∧ length m = count_matches fuel popular a b.
Proof.
  revert a b. induction fuel as [|fuel IH]; intros a b; simpl.
  - exists []. repeat split; apply sublist_nil_l.
  - destruct (find_longest_match popular a b) as [[i j] k] eqn:Hflm.
    apply find_longest_match_ok in Hflm as (Hia & Hjb & Heq).
    destruct (k =? 0) eqn:Hk.
    + exists []. repeat split; apply sublist_nil_l.
    + destruct (IH (take i a) (take j b)) as (m1 & Hm1a & Hm1b & Hlen1).
      destruct (IH (drop (i + k) a) (drop (j + k) b)) as (m2 & Hm2a & Hm2b & Hlen2).
      exists (m1 ++ take k (drop i a) ++ m2). split; [| split].
      * assert (Hsub : m1 ++ take k (drop i a) ++ m2 `sublist_of`
                         take i a ++ take k (drop i a) ++ drop (i + k) a).
        { apply sublist_app; [done |]. by apply sublist_app. }
        by rewrite <- (split_at_block a i k) in Hsub.
      * assert (Hsub : m1 ++ take k (drop i a) ++ m2 `sublist_of`
                         take j b ++ take k (drop j b) ++ drop (j + k) b).
        { rewrite Heq. apply sublist_app; [done |]. by apply sublist_app. }
        by rewrite <- (split_at_block b j k) in Hsub.
      * rewrite !length_app, length_take, length_drop, Hlen1, Hlen2. lia.
Qed.

(** ** The quick ratios are upper bounds of the ratio *)

Lemma count_char_cons (c x : ascii) (s : pystr) :
  count_char c (x :: s) = (if Ascii.eqb c x then 1 else 0) + count_char c s.
Proof. unfold count_char. simpl. by destruct (Ascii.eqb c x). Qed.

Lemma count_char_app (c : ascii) (s t : pystr) :
  count_char c (s ++ t) = count_char c s + count_char c t.
Proof.
  induction s as [|x s IH]; [done |].
  simpl. rewrite !count_char_cons, IH. lia.
Qed.

Lemma count_char_perm (c : ascii) (s t : pystr) :
  s ≡ₚ t → count_char c s = count_char c t.
Proof.
  induction 1 as [| x s t _ IH | x y s | s t u _ IH1 _ IH2].
  - done.
  - by rewrite !count_char_cons, IH.
  - rewrite !count_char_cons. lia.
  - by rewrite IH1.
Qed.

Lemma count_char_submseteq (c : ascii) (m b : pystr) :
  m ⊆+ b → count_char c m ≤ count_char c b.
Proof.
  intros [k Hk]%submseteq_Permutation.
  rewrite (count_char_perm c _ _ Hk), count_char_app. lia.
Qed.

Lemma count_char_elem_of (c : ascii) (m : pystr) :
  c ∈ m → 1 ≤ count_char c m.
Proof.
  intros [k Hk]%elem_of_Permutation.
  rewrite (count_char_perm c _ _ Hk), count_char_cons, Ascii.eqb_refl. lia.
Qed.

Lemma quick_matches_ge (a : pystr) :
  ∀ (avail : ascii → Z) (m : pystr),
    m ⊆+ a →
    (∀ c, c ∈ m → (Z.of_nat (count_char c m) ≤ avail c)%Z) →
    length m ≤ quick_matches a avail.
Proof.
  induction a as [|x a IH]; intros avail m Hsub Havail.
  - apply submseteq_nil_r in Hsub as ->. done.
  - simpl. destruct (decide (x ∈ m)) as [Hx | Hx].
    + pose proof (Havail x Hx) as Hnumb.
      pose proof (count_char_elem_of x m Hx) as Hone.
      apply elem_of_Permutation in Hx as [m' Hm'].
      assert (Hsub' : m' ⊆+ a).
      { rewrite Hm' in Hsub. by apply (submseteq_app_inv_l _ _ [x]). }
      rewrite (proj2 (Z.ltb_lt 0 (avail x))) by lia.
      rewrite (Permutation_length Hm'). simpl.
      apply le_n_S, IH; [done |].
      intros c Hc.
      assert (Hcm : c ∈ m) by (rewrite Hm'; by right).
      specialize (Havail c Hcm).
      rewrite (count_char_perm c _ _ Hm'), count_char_cons in Havail.
      destruct (Ascii.eqb c x) eqn:Hcx; [| lia].
      apply Ascii.eqb_eq in Hcx as ->. lia.
    + apply submseteq_cons_r in Hsub as [Hsub | (m' & Hm' & _)].
      * assert (length m ≤ quick_matches a
                  (λ c, if Ascii.eqb c x then (avail x - 1)%Z else avail c)) as Hle.
        { apply IH; [done |]. intros c Hc.
          destruct (Ascii.eqb c x) eqn:Hcx; [| by apply Havail].
          apply Ascii.eqb_eq in Hcx as ->. done. }
        destruct (0 <? avail x)%Z; lia.
      * exfalso. apply Hx. rewrite Hm'. by left.
Qed.

Lemma matches_le_quick (a b : pystr) :
  matches a b ≤ quick_matches a (λ c, Z.of_nat (count_char c b)).
Proof.
  unfold matches.
  destruct (count_matches_common (bpopular b) (length a) a b) as (m & Hma & Hmb & <-).
  apply quick_matches_ge; [by apply sublist_submseteq |].
  intros c _. apply inj_le, count_char_submseteq. by apply sublist_submseteq.
Qed.

Lemma matches_le_min (a b : pystr) :
  matches a b ≤ Nat.min (length a) (length b).
Proof.
  unfold matches.
  destruct (count_matches_common (bpopular b) (length a) a b) as (m & Hma & Hmb & <-).
  apply sublist_length in Hma, Hmb. lia.
Qed.

Lemma calculate_ratio_mono (m1 m2 len : nat) :
  m1 ≤ m2 → Qle (calculate_ratio m1 len) (calculate_ratio m2 len).
Proof.
  intros Hm. unfold calculate_ratio. destruct (len =? 0); [apply Qle_refl |].
  unfold Qle. simpl. apply Z.mul_le_mono_nonneg_r; lia.
Qed.

Lemma ratio_le_quick_ratio (a b : pystr) : Qle (ratio a b) (quick_ratio a b).
Proof. apply calculate_ratio_mono, matches_le_quick. Qed.

Lemma ratio_le_real_quick_ratio (a b : pystr) : Qle (ratio a b) (real_quick_ratio a b).
Proof. apply calculate_ratio_mono, matches_le_min. Qed.

(** The two quick tests never reject a candidate the ratio accepts. *)
Lemma close_enough_ratio (cutoff : Q) (word x : pystr) :
  close_enough cutoff word x = true ↔ Qle cutoff (ratio x word).
Proof.
  unfold close_enough. rewrite !andb_true_iff, !Qle_bool_iff. split.
  - by intros [_ H].
  - intros H. repeat split; [| | done].
    + eapply Qle_trans; [done | apply ratio_le_real_quick_ratio].
    + eapply Qle_trans; [done | apply ratio_le_quick_ratio].
Qed.

(** ** Close matches *)

Section close_matches.
Variables (word : pystr) (possibilities : list pystr) (n : nat) (cutoff : Q).

Local Abbreviation scored := (scored_candidates word possibilities cutoff).

Lemma scored_elem_of (p : Q * pystr) :
  p ∈ sort_desc scored ↔
  p = (ratio p.2 word, p.2) ∧ p.2 ∈ possibilities ∧ Qle cutoff (ratio p.2 word).
Proof.
  rewrite sort_desc_perm. unfold scored_candidates.
  rewrite list_elem_of_fmap. setoid_rewrite elem_of_list_filter.
  setoid_rewrite close_enough_ratio. split.
  - by intros (x & -> & Hx & Hr).
  - intros (Hp & Hx & Hr). exists p.2. by rewrite <- Hp.
Qed.

Lemma get_close_matches_lookup (i : nat) (x : pystr) :
  get_close_matches word possibilities n cutoff !! i = Some x ↔
  i < n ∧ sort_desc scored !! i = Some (ratio x word, x).
Proof.
  unfold get_close_matches, nlargest. fold scored.
  rewrite list_lookup_fmap, fmap_Some. setoid_rewrite lookup_take_Some. split.
  - intros (p & [Hp Hi] & ->). split; [done |].
    assert (Hin : p ∈ sort_desc scored) by (by eapply list_elem_of_lookup_2).
    apply scored_elem_of in Hin as [Heq _]. by rewrite <- Heq.
  - intros [Hi Hp]. by exists (ratio x word, x).
Qed.

Lemma get_close_matches_length :
  length (get_close_matches word possibilities n cutoff) ≤ n.
Proof.
  unfold get_close_matches, nlargest. rewrite length_map, length_take. lia.
Qed.

Lemma get_close_matches_sound (x : pystr) :
  x ∈ get_close_matches word possibilities n cutoff →
  x ∈ possibilities ∧ Qle cutoff (ratio x word).
Proof.
  intros [i Hi]%list_elem_of_lookup_1.
  apply get_close_matches_lookup in Hi as [_ Hi].
  apply list_elem_of_lookup_2, scored_elem_of in Hi as (_ & Hx & Hr).
  by split.
Qed.

Lemma get_close_matches_ordered (i j : nat) (x y : pystr) :
  i < j →
  get_close_matches word possibilities n cutoff !! i = Some x →
  get_close_matches word possibilities n cutoff !! j = Some y →
  scored_le (ratio y word, y) (ratio x word, x).
Proof.
  intros Hij [_ Hi]%get_close_matches_lookup [_ Hj]%get_close_matches_lookup.
  exact (StronglySorted_lookup _ _ i j _ _ (sort_desc_sorted scored) Hij Hi Hj).
Qed.

Lemma get_close_matches_best (z : pystr) :
  z ∈ possibilities → Qle cutoff (ratio z word) →
  z ∉ get_close_matches word possibilities n cutoff →
  length (get_close_matches word possibilities n cutoff) = n
  ∧ ∀ x, x ∈ get_close_matches word possibilities n cutoff →
         scored_le (ratio z word, z) (ratio x word, x).
Proof.
  intros Hz Hr Hnot.
  assert (Hin : (ratio z word, z) ∈ sort_desc scored) by (by apply scored_elem_of).
  apply list_elem_of_lookup_1 in Hin as [k Hk].
  assert (Hkn : n ≤ k).
  { destruct (decide (k < n)) as [Hlt | Hge]; [| lia].
    exfalso. apply Hnot. eapply list_elem_of_lookup_2.
    apply get_close_matches_lookup. by split. }
  pose proof (lookup_lt_Some _ _ _ Hk) as Hlen. split.
  - unfold get_close_matches, nlargest. fold scored.
    rewrite length_map, length_take. lia.
  - intros x [i Hi]%list_elem_of_lookup_1.
    apply get_close_matches_lookup in Hi as [Hin Hi].
    apply (StronglySorted_lookup _ _ i k _ _ (sort_desc_sorted scored)); [lia | done | done].
Qed.

End close_matches.

(** ** The suggestion mapping *)

Lemma get_genre_suggestions_fold (all_genres : list pystr) (cutoff : Q)
    (chosen_genres : list pystr) (suggestions : gmap pystr (list pystr))
    (genre : pystr) :
  foldl (λ suggestions genre,
           match get_close_matches (lower genre) all_genres 3 cutoff with
           | [] => suggestions
           | _ :: _ => <[genre := get_close_matches (lower genre) all_genres 3 cutoff]> suggestions
           end) suggestions chosen_genres !! genre
  = if bool_decide (genre ∈ chosen_genres) &&
       negb (bool_decide (get_close_matches (lower genre) all_genres 3 cutoff = []))
    then Some (get_close_matches (lower genre) all_genres 3 cutoff)
    else suggestions !! genre.
Proof.
  revert suggestions. induction chosen_genres as [|g chosen IH]; intros suggestions; [done |].
  simpl. rewrite IH. clear IH.
  destruct (decide (genre = g)) as [-> | Hne].
  - rewrite (bool_decide_eq_true_2 (g ∈ g :: chosen)) by (by left).
    destruct (get_close_matches (lower g) all_genres 3 cutoff) as [|m ms] eqn:Hm.
    + rewrite (bool_decide_eq_true_2 ([] = [])) by done. simpl.
      by rewrite andb_false_r.
    + rewrite (bool_decide_eq_false_2 (m :: ms = [])) by done. simpl.
      rewrite andb_true_r, lookup_insert_eq. by destruct (bool_decide (g ∈ chosen)).
  - assert (Hiff : bool_decide (genre ∈ g :: chosen) = bool_decide (genre ∈ chosen)).
    { apply bool_decide_ext. rewrite elem_of_cons.
      split; [by intros [? | ?] | by right]. }
    rewrite Hiff.
    destruct (bool_decide (genre ∈ chosen) && _); [done |].
    destruct (get_close_matches (lower g) all_genres 3 cutoff); [done |].
    by rewrite lookup_insert_ne.
Qed.

Lemma get_genre_suggestions_lookup (chosen_genres all_genres : list pystr)
    (cutoff : Q) (genre : pystr) :
  get_genre_suggestions chosen_genres all_genres cutoff !! genre
  = if bool_decide (genre ∈ chosen_genres) &&
       negb (bool_decide (get_close_matches (lower genre) all_genres 3 cutoff = []))
    then Some (get_close_matches (lower genre) all_genres 3 cutoff)
    else None.
Proof.
  unfold get_genre_suggestions. by rewrite get_genre_suggestions_fold, lookup_empty.
Qed.

(** ** The vocabulary *)

Lemma add_parts_elem_of (genres : gset pystr) (g x : pystr) :
  x ∈ add_parts genres g ↔ x ∈ genres ∨ genre_part_of g x.
Proof.
  unfold add_parts, genre_part_of.
  generalize (split_commas g). intros parts. revert genres.
  induction parts as [|part parts IH]; intros genres; simpl.
  - split; [by left | intros [? | (part & Hp & _)]; [done | by apply elem_of_nil in Hp]].
  - rewrite IH. clear IH.
    destruct (bool_decide (lower (strip part) = [])) eqn:He; simpl.
    { apply bool_decide_eq_true in He. split.
      - intros [? | (p & Hp & ?)]; [by left | right; exists p; split; [by right | done]].
      - intros [? | (p & [-> | Hp]%elem_of_cons & Hx & Hne & Hex)]; [by left | | ].
        + congruence.
        + right. by exists p. }
    apply bool_decide_eq_false in He.
    destruct (bool_decide (lower (strip part) ∈ excluded)) eqn:Hx; simpl.
    { apply bool_decide_eq_true in Hx. split.
      - intros [? | (p & Hp & ?)]; [by left | right; exists p; split; [by right | done]].
      - intros [? | (p & [-> | Hp]%elem_of_cons & Hxp & Hne & Hex)]; [by left | | ].
        + congruence.
        + right. by exists p. }
    apply bool_decide_eq_false in Hx.
    rewrite elem_of_union, elem_of_singleton. split.
    + intros [[-> | ?] | (p & Hp & ?)].
      * right. exists part. split; [by left | done].
      * by left.
      * right. exists p. split; [by right | done].
    + intros [? | (p & [-> | Hp]%elem_of_cons & Hxp & Hne & Hex)].
      * left. by right.
      * left. by left.
      * right. by exists p.
Qed.

Lemma get_all_genres_elem_of (df : list row) (x : pystr) :
  x ∈ get_all_genres df ↔
  ∃ r g, r ∈ df ∧ row_genre r = Some g ∧ genre_part_of g x.
Proof.
  unfold get_all_genres.
  assert (Hfold : ∀ gs genres, x ∈ foldl add_parts genres gs ↔
                    x ∈ genres ∨ ∃ g, g ∈ gs ∧ genre_part_of g x).
  { induction gs as [|g gs IH]; intros genres; simpl.
    - split; [by left | intros [? | (g & Hg & _)]; [done | by apply elem_of_nil in Hg]].
    - rewrite IH, add_parts_elem_of. split.
      + intros [[? | ?] | (g' & Hg' & ?)].
        * by left.
        * right. exists g. split; [by left | done].
        * right. exists g'. split; [by right | done].
      + intros [? | (g' & [-> | Hg']%elem_of_cons & ?)].
        * left. by left.
        * left. by right.
        * right. by exists g'. }
  rewrite Hfold. split.
  - intros [Hx | (g & Hg & Hpart)]; [by apply elem_of_empty in Hx |].
    apply list_elem_of_omap in Hg as (r & Hr & Hrg). by exists r, g.
  - intros (r & g & Hr & Hrg & Hpart). right. exists g. split; [| done].
    apply list_elem_of_omap. by exists r.
Qed.

Lemma get_close_matches_NoDup (word : pystr) (possibilities : list pystr)
    (n : nat) (cutoff : Q) :
  NoDup possibilities → NoDup (get_close_matches word possibilities n cutoff).
Proof.
  intros Hnd. unfold get_close_matches, nlargest.
  set (scored := map (λ x, (ratio x word, x))
                     (List.filter (close_enough cutoff word) possibilities)).
  assert (Hsnd : map snd scored = List.filter (close_enough cutoff word) possibilities).
  { unfold scored. rewrite map_map. simpl. apply map_id. }
  assert (Hscored : NoDup (map snd (sort_desc scored))).
  { rewrite sort_desc_perm, Hsnd.
    eapply sublist_NoDup; [exact Hnd | apply filter_sublist]. }
  eapply sublist_NoDup; [exact Hscored |].
  apply fmap_sublist, sublist_take.
Qed.

Lemma mystery_store_genres :
  get_all_genres mystery_store
  = {[str "history"]} ∪ ({[str "mystery"]} ∪ ({[str "western"]} ∪ ∅)).
Proof.
  apply set_eq. intros x. rewrite get_all_genres_elem_of.
  rewrite !elem_of_union, !elem_of_singleton. split.
  - intros (r & g & Hr & Hg & part & Hpart & -> & _).
    unfold mystery_store in Hr.
    repeat (apply elem_of_cons in Hr as [-> | Hr]);
      try (by apply elem_of_nil in Hr);
      simpl in Hg; injection Hg as <-;
      vm_compute in Hpart; apply list_elem_of_singleton in Hpart as ->; vm_compute; tauto.
  - intros [-> | [-> | [-> | Hx]]]; [| | | by apply elem_of_empty in Hx].
    + exists (Row (Str (str "Lincoln")) (Some (str "history")) NaN (whole 2012)),
        (str "history").
      split; [by left |]. split; [done |]. exists (str "history").
      split; [by left |]. split; [reflexivity |]. split; [done |].
      unfold excluded. rewrite !elem_of_cons, elem_of_nil. intros [? | [? | ?]]; done.
    + exists (Row (Str (str "Vertigo")) (Some (str "mystery")) NaN (whole 1958)),
        (str "mystery").
      split; [right; by left |]. split; [done |]. exists (str "mystery").
      split; [by left |]. split; [reflexivity |]. split; [done |].
      unfold excluded. rewrite !elem_of_cons, elem_of_nil. intros [? | [? | ?]]; done.
    + exists (Row (Str (str "Shane")) (Some (str "western")) NaN (whole 1953)),
        (str "western").
      split; [right; right; by left |]. split; [done |]. exists (str "western").
      split; [by left |]. split; [reflexivity |]. split; [done |].
      unfold excluded. rewrite !elem_of_cons, elem_of_nil. intros [? | [? | ?]]; done.
Qed.

Lemma mystery_store_enumerated (all_genres : list pystr) :
  all_genres ≡ₚ [str "history"; str "mystery"; str "western"] →
  enumerates all_genres (get_all_genres mystery_store).
Proof.
  intros Hperm. split.
  - rewrite Hperm. repeat constructor;
      rewrite ?elem_of_cons, ?elem_of_nil; intros H; repeat destruct H as [H | H]; done.
  - intros x. rewrite mystery_store_genres, Hperm.
    rewrite !elem_of_union, !elem_of_singleton, !elem_of_cons, elem_of_nil,
      elem_of_empty. tauto.
Qed.

(** C4, counterexample: for the query "mstery" the candidates "western"
    and "history" have the same score and "western" is returned first,
    whether the vocabulary enumerates it before or after "history". *)
Lemma C4_counterexample_tie_not_by_position :
  load_and_clean_movies (Stored mystery_read) = Some mystery_store
  ∧ filter_movies_by_genres mystery_store [str "mstery"] = []
  ∧ enumerates [str "history"; str "mystery"; str "western"]
               (get_all_genres mystery_store)
  ∧ enumerates [str "western"; str "history"; str "mystery"]
               (get_all_genres mystery_store)
  ∧ get_genre_suggestions [str "mstery"]
      [str "history"; str "mystery"; str "western"] default_cutoff !! str "mstery"
    = Some [str "mystery"; str "western"; str "history"]
  ∧ get_genre_suggestions [str "mstery"]
      [str "western"; str "history"; str "mystery"] default_cutoff !! str "mstery"
    = Some [str "mystery"; str "western"; str "history"]
  ∧ ¬ earlier_position_first [str "history"; str "mystery"; str "western"]
        (str "mstery") [str "mystery"; str "western"; str "history"]
  ∧ ¬ later_position_first [str "western"; str "history"; str "mystery"]
        (str "mstery") [str "mystery"; str "western"; str "history"].
Proof.
  split; [reflexivity |]. split; [reflexivity |].
  split; [by apply mystery_store_enumerated |].
  split.
  { apply mystery_store_enumerated.
    change ([str "western"] ++ [str "history"; str "mystery"]
            ≡ₚ [str "history"; str "mystery"] ++ [str "western"]).
    apply Permutation_app_comm. }
  split; [by rewrite get_genre_suggestions_lookup |].
  split; [by rewrite get_genre_suggestions_lookup |].
  split.
  - intros H.
    destruct (H 1 2 (str "western") (str "history")) as [Hlt | [_ (p & q & Hp & Hq & Hpq)]];
      [lia | done | done | |].
    + vm_compute in Hlt. discriminate.
    + destruct p as [|[|[|p]]]; try discriminate;
        destruct q as [|[|[|q]]]; try discriminate; lia.
  - intros H.
    destruct (H 1 2 (str "western") (str "history")) as [Hlt | [_ (p & q & Hp & Hq & Hpq)]];
      [lia | done | done | |].
    + vm_compute in Hlt. discriminate.
    + destruct p as [|[|[|p]]]; try discriminate;
        destruct q as [|[|[|q]]]; try discriminate; lia.
Qed.

(** C4, amended: the candidates are the distinct trimmed, lowercased,
    comma-separated parts of the stored genres other than "unknown" and
    "n/a"; for a queried genre at most 3 of them are returned, each with a
    score of at least 0.6, by descending score, candidates of equal score
    by descending string order (their position in the vocabulary plays no
    part), and they are the best ones; a queried genre with no candidate at
    or above the threshold has no entry in the mapping. *)
Theorem C4_suggestions_by_score_then_name :
  ∀ (df : list row) (all_genres chosen_genres : list pystr) (genre : pystr),
    enumerates all_genres (get_all_genres df) →
    (∀ x, x ∈ all_genres ↔ ∃ r g, r ∈ df ∧ row_genre r = Some g ∧ genre_part_of g x)
    ∧ let matches := get_close_matches (lower genre) all_genres 3 default_cutoff in
      length matches ≤ 3
      ∧ (∀ x, x ∈ matches →
           x ∈ all_genres ∧ Qle default_cutoff (ratio x (lower genre)))
      ∧ (∀ i j x y, i < j → matches !! i = Some x → matches !! j = Some y →
           Qlt (ratio y (lower genre)) (ratio x (lower genre))
           ∨ (Qeq (ratio y (lower genre)) (ratio x (lower genre))
              ∧ pystr_compare y x = Lt))
      ∧ (∀ z, z ∈ all_genres → Qle default_cutoff (ratio z (lower genre)) →
           z ∉ matches →
           length matches = 3
           ∧ ∀ x, x ∈ matches →
               scored_le (ratio z (lower genre), z) (ratio x (lower genre), x))
      ∧ get_genre_suggestions chosen_genres all_genres default_cutoff !! genre
        = if bool_decide (genre ∈ chosen_genres) && negb (bool_decide (matches = []))
          then Some matches else None.
Proof.
  intros df all_genres chosen genre [Hnd Henum]. split.
  { intros x. by rewrite Henum, get_all_genres_elem_of. }
  simpl. split; [apply get_close_matches_length |].
  split; [apply get_close_matches_sound |].
  split; [| split; [apply get_close_matches_best | apply get_genre_suggestions_lookup]].
  intros i j x y Hij Hi Hj.
  destruct (get_close_matches_ordered _ _ _ _ i j x y Hij Hi Hj) as [Hlt | [Heq Hle]];
    [by left | right]. split; [done |].
  simpl in Hle. unfold pystr_le in Hle.
  destruct (pystr_compare y x) eqn:Hc; [| done | done].
  apply pystr_compare_eq in Hc as ->.
  pose proof (get_close_matches_NoDup (lower genre) all_genres 3 default_cutoff Hnd) as Hm.
  pose proof (NoDup_lookup _ i j x Hm Hi Hj). lia.
Qed.

Lemma C4_suggestions_witness :
  length (get_close_matches (lower (str "mstery"))
            [str "history"; str "mystery"; str "western"] 3 default_cutoff) ≤ 3.
Proof.
  exact (proj1 (proj2 (C4_suggestions_by_score_then_name mystery_store
                         [str "history"; str "mystery"; str "western"]
                         [str "mstery"] (str "mstery")
                         (mystery_store_enumerated _ (reflexivity _))))).
Defined.

(** ** The matcher *)

Lemma rev_cons_app (c : ascii) (w b : pystr) : rev (c :: w) ++ b = rev w ++ c :: b.
Proof. simpl. by rewrite <- app_assoc. Qed.

Lemma captured_text (w b : pystr) :
  rev (take (length (rev w ++ b) - length b) (rev w ++ b)) = w.
Proof.
  rewrite length_app, Nat.add_sub.
  rewrite take_app_length. apply rev_involutive.
Qed.

Lemma star_lazy_Some (p : ascii → bool) (k : pystr → pystr → option mstate) :
  ∀ (a b : pystr) (m : mstate),
    star_lazy p k b a = Some m ↔
    ∃ w a', a = w ++ a' ∧ forallb p w = true ∧ k (rev w ++ b) a' = Some m
            ∧ ∀ w1 w2, w = w1 ++ w2 → w2 ≠ [] → k (rev w1 ++ b) (w2 ++ a') = None.
Proof.
  induction a as [|c a IH]; intros b m.
  - simpl. split.
    + destruct (k b []) eqn:Hk; [| done]. intros [= <-].
      exists [], []. repeat split; try done.
      intros w1 w2 Hw Hne. by destruct w1, w2.
    + intros (w & a' & Ha & _ & Hk & _).
      symmetry in Ha. apply app_eq_nil in Ha as [-> ->]. simpl in Hk. by rewrite Hk.
  - cbn [star_lazy]. destruct (k b (c :: a)) as [m0|] eqn:Hk.
    + split.
      * intros [= <-]. exists [], (c :: a). repeat split; try done.
        intros w1 w2 Hw Hne. by destruct w1, w2.
      * intros (w & a' & Ha & _ & Hkw & Hmin).
        destruct w as [|d w].
        -- simpl in *. subst a'. congruence.
        -- specialize (Hmin [] (d :: w) eq_refl). simpl in Ha, Hmin.
           rewrite <- Ha, Hk in Hmin.
           assert (Some m0 = None) by (by apply Hmin). done.
    + destruct (p c) eqn:Hpc.
      * rewrite IH. split.
        -- intros (w & a' & -> & Hw & Hkw & Hmin).
           exists (c :: w), a'. rewrite rev_cons_app. simpl. rewrite Hpc.
           repeat split; try done.
           intros w1 w2 Hsplit Hne. destruct w1 as [|d w1].
           ++ simpl in *. by rewrite <- Hsplit.
           ++ injection Hsplit as <- ->. rewrite rev_cons_app. by apply Hmin.
        -- intros (w & a' & Ha & Hw & Hkw & Hmin). destruct w as [|d w].
           ++ simpl in *. subst a'. congruence.
           ++ injection Ha as <- ->. simpl in Hw. rewrite Hpc in Hw.
              exists w, a'. rewrite rev_cons_app in Hkw. repeat split; try done.
              intros w1 w2 -> Hne. specialize (Hmin (c :: w1) w2 eq_refl Hne).
              by rewrite rev_cons_app in Hmin.
      * split; [done |]. intros (w & a' & Ha & Hw & Hkw & Hmin).
        destruct w as [|d w].
        -- simpl in *. subst a'. congruence.
        -- injection Ha as <- ->. simpl in Hw. by rewrite Hpc in Hw.
Qed.

Lemma star_lazy_None (p : ascii → bool) (k : pystr → pystr → option mstate) :
  ∀ (a b : pystr),
    star_lazy p k b a = None ↔
    ∀ w a', a = w ++ a' → forallb p w = true → k (rev w ++ b) a' = None.
Proof.
  induction a as [|c a IH]; intros b.
  - simpl. split.
    + destruct (k b []) eqn:Hk; [done |]. intros _ w a' Ha _.
      symmetry in Ha. by apply app_eq_nil in Ha as [-> ->].
    + intros H. specialize (H [] [] eq_refl eq_refl). simpl in H. by rewrite H.
  - cbn [star_lazy]. destruct (k b (c :: a)) as [m0|] eqn:Hk.
    + split; [done |]. intros H. specialize (H [] (c :: a) eq_refl eq_refl).
      simpl in H. congruence.
    + destruct (p c) eqn:Hpc.
      * rewrite IH. split.
        -- intros H w a' Ha Hw. destruct w as [|d w].
           ++ simpl in *. by subst a'.
           ++ injection Ha as <- ->. simpl in Hw. rewrite Hpc in Hw.
              rewrite rev_cons_app. by apply H.
        -- intros H w a' -> Hw. specialize (H (c :: w) a' eq_refl).
           rewrite rev_cons_app in H. apply H. simpl. by rewrite Hpc.
      * split; [| done]. intros _ w a' Ha Hw. destruct w as [|d w].
        -- simpl in *. by subst a'.
        -- injection Ha as <- ->. simpl in Hw. by rewrite Hpc in Hw.
Qed.

Lemma star_greedy_sound (p : ascii → bool) (k : pystr → pystr → option mstate) :
  ∀ (a b : pystr) (m : mstate),
    star_greedy p k b a = Some m →
    ∃ w a', a = w ++ a' ∧ forallb p w = true ∧ k (rev w ++ b) a' = Some m.
Proof.
  induction a as [|c a IH]; intros b m; simpl.
  - intros Hk. by exists [], [].
  - destruct (p c) eqn:Hpc; [| intros Hk; by exists [], (c :: a)].
    destruct (star_greedy p k (c :: b) a) as [m0|] eqn:Hrec.
    + intros [= <-]. apply IH in Hrec as (w & a' & -> & Hw & Hk).
      exists (c :: w), a'. rewrite rev_cons_app. simpl. by rewrite Hpc.
    + intros Hk. by exists [], (c :: a).
Qed.

Lemma star_greedy_complete (p : ascii → bool) (k : pystr → pystr → option mstate) :
  ∀ (w a' b : pystr),
    forallb p w = true → is_Some (k (rev w ++ b) a') →
    is_Some (star_greedy p k b (w ++ a')).
Proof.
  induction w as [|c w IH]; intros a' b Hw Hk.
  - simpl in *. destruct a' as [|d a']; [done |]. simpl.
    destruct (p d); [| done]. by destruct (star_greedy p k (d :: b) a').
  - simpl in Hw. apply andb_true_iff in Hw as [Hpc Hw].
    simpl. rewrite Hpc. rewrite rev_cons_app in Hk.
    by destruct (IH a' (c :: b) Hw Hk) as [m ->].
Qed.

Lemma star_lazy_complete (p : ascii → bool) (k : pystr → pystr → option mstate)
    (w a' b : pystr) :
  forallb p w = true → is_Some (k (rev w ++ b) a') →
  is_Some (star_lazy p k b (w ++ a')).
Proof.
  intros Hw Hk. destruct (star_lazy p k b (w ++ a')) eqn:Hs; [done |].
  rewrite star_lazy_None in Hs. rewrite (Hs w a' eq_refl Hw) in Hk.
  by destruct Hk.
Qed.

(** Whatever the matcher returns comes from a match of the pattern. *)
Lemma rmatch_sound (r : regex) :
  ∀ (b a : pystr) (g : list (nat * pystr)) (k : kont) (m : mstate),
    rmatch r b a g k = Some m →
    ∃ w a' g', a = w ++ a' ∧ matches_re r b w a' g g'
               ∧ k (rev w ++ b) a' g' = Some m.
Proof.
  induction r as [| | | p | greedy p | r1 IH1 r2 IH2 | r1 IH1 r2 IH2 | n r IH];
    intros b a g k m; simpl.
  - intros Hk. by exists [], a, g.
  - destruct b; [| done]. intros Hk. by exists [], a, g.
  - destruct (xorb _ _) eqn:Hx; [| done]. intros Hk. by exists [], a, g.
  - destruct a as [|c a]; [done |]. destruct (p c) eqn:Hpc; [| done].
    intros Hk. exists [c], a, g. repeat split; [| done]. by exists c.
  - destruct greedy.
    + intros (w & a' & -> & Hw & Hk)%star_greedy_sound. by exists w, a', g.
    + intros (w & a' & -> & Hw & Hk & _)%star_lazy_Some. by exists w, a', g.
  - intros (w1 & a1 & g1 & -> & Hm1 & Hk1)%IH1.
    apply IH2 in Hk1 as (w2 & a2 & g2 & -> & Hm2 & Hk2).
    exists (w1 ++ w2), a2, g2. rewrite rev_app_distr, <- !app_assoc.
    repeat split; [| done]. by exists w1, w2, g1.
  - destruct (rmatch r1 b a g k) as [m1|] eqn:H1.
    + intros [= <-]. apply IH1 in H1 as (w & a' & g' & -> & Hm & Hk).
      exists w, a', g'. repeat split; [by left | done].
    + intros (w & a' & g' & -> & Hm & Hk)%IH2.
      exists w, a', g'. repeat split; [by right | done].
  - intros (w & a' & g' & -> & Hm & Hk)%IH.
    rewrite captured_text in Hk. exists w, a', ((n, w) :: g').
    repeat split; [| done]. by exists g'.
Qed.

(** Whenever the pattern has a match the continuation accepts, the matcher
    returns a result. *)
Lemma rmatch_complete (r : regex) :
  ∀ (b w a' : pystr) (g g' : list (nat * pystr)) (k : kont),
    matches_re r b w a' g g' → is_Some (k (rev w ++ b) a' g') →
    is_Some (rmatch r b (w ++ a') g k).
Proof.
  induction r as [| | | p | greedy p | r1 IH1 r2 IH2 | r1 IH1 r2 IH2 | n r IH];
    intros b w a' g g' k; simpl.
  - by intros [-> ->].
  - by intros (-> & -> & ->).
  - intros (Hx & -> & ->). simpl. by rewrite Hx.
  - intros (c & -> & Hpc & ->). simpl. by rewrite Hpc.
  - intros [Hw ->] Hk. destruct greedy.
    + by apply star_greedy_complete.
    + by apply star_lazy_complete.
  - intros (w1 & w2 & g1 & -> & Hm1 & Hm2) Hk.
    rewrite <- app_assoc. apply (IH1 _ _ _ _ g1); [done |].
    apply (IH2 _ _ _ _ g'); [done |].
    by rewrite rev_app_distr, <- app_assoc in Hk.
  - intros [Hm | Hm] Hk.
    + by destruct (IH1 _ _ _ _ _ k Hm Hk) as [m ->].
    + destruct (rmatch r1 b (w ++ a') g k); [done |]. by apply (IH2 _ _ _ _ g').
  - intros (g1 & Hm & ->) Hk. apply (IH _ _ _ _ g1); [done |].
    by rewrite captured_text.
Qed.

Lemma prefix_shorter {A : Type} (w w' x y : list A) :
  w ++ x = w' ++ y → length w' < length w →
  ∃ z, w = w' ++ z ∧ z ≠ [] ∧ y = z ++ x.
Proof.
  revert w. induction w' as [|c w' IH]; intros w Heq Hlen.
  - exists w. repeat split; [| done]. destruct w; [simpl in Hlen; lia | done].
  - destruct w as [|d w]; [simpl in Hlen; lia |].
    injection Heq as -> Heq. simpl in Hlen.
    destruct (IH w Heq ltac:(lia)) as (z & -> & Hz & ->). by exists z.
Qed.

(** A lazy run of [p] followed by [tail]: the matcher returns the match
    with the shortest run. *)
Lemma lazy_prefix_spec (p : ascii → bool) (tail : regex)
    (g0 : pystr → list (nat * pystr)) (b0 a : pystr) :
  match star_lazy p (λ b' a', rmatch tail b' a' (g0 b') accept) b0 a with
  | Some m =>
      ∃ w w2 a2 g',
        a = w ++ w2 ++ a2 ∧ forallb p w = true
        ∧ matches_re tail (rev w ++ b0) w2 a2 (g0 (rev w ++ b0)) g'
        ∧ m = MState (rev w2 ++ rev w ++ b0) a2 g'
        ∧ ∀ w' w2' a2' g'',
            a = w' ++ w2' ++ a2' → forallb p w' = true →
            matches_re tail (rev w' ++ b0) w2' a2' (g0 (rev w' ++ b0)) g'' →
            length w ≤ length w'
  | None =>
      ∀ w w2 a2 g',
        a = w ++ w2 ++ a2 → forallb p w = true →
        ¬ matches_re tail (rev w ++ b0) w2 a2 (g0 (rev w ++ b0)) g'
  end.
Proof.
  destruct (star_lazy p _ b0 a) as [m|] eqn:Hs.
  - apply star_lazy_Some in Hs as (w & a' & -> & Hw & Hk & Hmin).
    apply rmatch_sound in Hk as (w2 & a2 & g' & -> & Hm & Hacc).
    injection Hacc as <-.
    exists w, w2, a2, g'. repeat split; try done.
    intros w' w2' a2' g'' Heq Hw' Hm'.
    destruct (decide (length w ≤ length w')) as [| Hlt]; [done | exfalso].
    destruct (prefix_shorter w w' (w2 ++ a2) (w2' ++ a2') Heq ltac:(lia))
      as (z & -> & Hz & Hrest).
    specialize (Hmin w' z eq_refl Hz). simpl in Hmin.
    rewrite <- Hrest in Hmin.
    destruct (rmatch_complete tail _ _ _ _ _ accept Hm') as [m' Hm'']; [done |].
    congruence.
  - intros w w2 a2 g' -> Hw Hm.
    rewrite star_lazy_None in Hs. specialize (Hs w (w2 ++ a2) eq_refl Hw).
    simpl in Hs.
    destruct (rmatch_complete tail _ _ _ _ _ accept Hm) as [m' Hm']; [done |].
    congruence.
Qed.

(** ** The patterns of the record extractor *)

Lemma matches_chr (c : ascii) (b w a : pystr) (g g' : list (nat * pystr)) :
  matches_re (chr c) b w a g g' ↔ w = [c] ∧ g' = g.
Proof.
  simpl. split.
  - intros (d & -> & Hd & ->). by apply Ascii.eqb_eq in Hd as ->.
  - intros [-> ->]. exists c. by rewrite Ascii.eqb_refl.
Qed.

Lemma matches_lit (s b w a : pystr) (g g' : list (nat * pystr)) :
  matches_re (lit s) b w a g g' ↔ w = s ∧ g' = g.
Proof.
  revert b w g. induction s as [|c s IH]; intros b w g; [done |].
  cbn [lit matches_re]. split.
  - intros (w1 & w2 & g1 & -> & Hc & Hs).
    apply matches_chr in Hc as [-> ->]. by apply IH in Hs as [-> ->].
  - intros [-> ->]. exists [c], s, g. split; [done |].
    split; [by apply matches_chr | by apply IH].
Qed.

Lemma matches_plus (greedy : bool) (p : ascii → bool) (b w a : pystr)
    (g g' : list (nat * pystr)) :
  matches_re (plus greedy p) b w a g g' ↔ w ≠ [] ∧ forallb p w = true ∧ g' = g.
Proof.
  unfold plus. cbn [matches_re]. split.
  - intros (w1 & w2 & g1 & -> & (c & -> & Hc & ->) & Hw2 & ->).
    simpl. by rewrite Hc, Hw2.
  - intros (Hne & Hw & ->). destruct w as [|c w]; [done |].
    simpl in Hw. apply andb_true_iff in Hw as [Hc Hw].
    exists [c], w, g. split; [done |]. split; [by exists c | done].
Qed.

Lemma matches_digits4 (b w a : pystr) (g g' : list (nat * pystr)) :
  matches_re digits4 b w a g g' ↔
  length w = 4 ∧ forallb is_digit w = true ∧ g' = g.
Proof.
  unfold digits4. cbn [cats matches_re]. split.
  - intros (w1 & w2 & g1 & -> & (c1 & -> & H1 & ->) &
            w3 & w4 & g2 & -> & (c2 & -> & H2 & ->) &
            w5 & w6 & g3 & -> & (c3 & -> & H3 & ->) &
            w7 & w8 & g4 & -> & (c4 & -> & H4 & ->) & -> & ->).
    simpl. by rewrite H1, H2, H3, H4.
  - intros (Hlen & Hw & ->).
    destruct w as [|c1 [|c2 [|c3 [|c4 [|c5 w]]]]]; try done.
    simpl in Hw. rewrite !andb_true_iff in Hw.
    destruct Hw as (H1 & H2 & H3 & H4 & _).
    exists [c1], [c2; c3; c4], g. split; [done |]. split; [by exists c1 |].
    exists [c2], [c3; c4], g. split; [done |]. split; [by exists c2 |].
    exists [c3], [c4], g. split; [done |]. split; [by exists c3 |].
    exists [c4], [], g. split; [done |]. split; [by exists c4 | done].
Qed.

Lemma matches_paren_year_tail (b w a : pystr) (g g' : list (nat * pystr)) :
  matches_re paren_year_tail b w a g g' ↔
  ∃ ws year, w = ws ++ str "(" ++ year ++ str ")"
             ∧ ws ≠ [] ∧ forallb is_space ws = true
             ∧ length year = 4 ∧ forallb is_digit year = true
             ∧ g' = (2, year) :: g.
Proof.
  unfold paren_year_tail. cbn [cats]. split.
  - intros (ws & w2 & g1 & -> & (Hne & Hws & ->)%matches_plus &
            w3 & w4 & g2 & -> & [-> ->]%matches_chr &
            w5 & w6 & g3 & -> & (g4 & (Hlen & Hdig & ->)%matches_digits4 & ->) &
            w7 & w8 & g5 & -> & [-> ->]%matches_chr & -> & ->).
    by exists ws, w5.
  - intros (ws & year & -> & Hne & Hws & Hlen & Hdig & ->).
    exists ws, (str "(" ++ year ++ str ")"), g. split; [done |].
    split; [by apply matches_plus |].
    exists (str "("), (year ++ str ")"), g. split; [done |].
    split; [by apply matches_chr |].
    exists year, (str ")"), ((2, year) :: g). split; [done |]. split.
    { exists g. split; [by apply matches_digits4 | done]. }
    exists (str ")"), [], ((2, year) :: g). split; [done |].
    split; [by apply matches_chr | done].
Qed.

(** Bring nested concatenations to the right-nested form. *)
Ltac norm_app :=
  repeat first [progress simpl | rewrite <- app_assoc];
  repeat match goal with
         | H : _ |- _ => first [progress simpl in H | rewrite <- app_assoc in H]
         end.

Lemma re_match_title_paren_year (text : pystr) :
  match re_match re_title_paren_year text with
  | Some m =>
      title_then_year text (group 1 m) (group 2 m)
      ∧ ∀ title year, title_then_year text title year →
                      length (group 1 m) ≤ length title
  | None => ∀ title year, ¬ title_then_year text title year
  end.
Proof.
  pose proof (lazy_prefix_spec not_newline paren_year_tail
                (λ b', [(1, rev (take (length b' - 0) b'))]) [] text) as Hspec.
  change (re_match re_title_paren_year text)
    with (star_lazy not_newline
            (λ b' a', rmatch paren_year_tail b' a'
                        [(1, rev (take (length b' - 0) b'))] accept) [] text).
  destruct (star_lazy not_newline _ [] text) as [m|].
  - destruct Hspec as (w & w2 & a2 & g' & -> & Hw & Hm & -> & Hmin).
    apply matches_paren_year_tail in Hm as (ws & year & -> & Hne & Hws & Hlen & Hdig & ->).
    pose proof (captured_text w []) as Hcap.
    unfold group. cbn [groups lookup_group Nat.eqb].
    rewrite Nat.sub_0_r in *. rewrite Hcap. split.
    + exists ws, a2. repeat split; try done. by norm_app.
    + intros title year' (ws' & rest' & Heq & Ht & Hne' & Hws' & Hlen' & Hdig').
      eapply (Hmin title (ws' ++ str "(" ++ year' ++ str ")") rest').
      * rewrite Heq. by norm_app.
      * done.
      * apply matches_paren_year_tail. by exists ws', year'.
  - intros title year (ws & rest & -> & Ht & Hne & Hws & Hlen & Hdig).
    eapply (Hspec title (ws ++ str "(" ++ year ++ str ")") rest).
    + by norm_app.
    + done.
    + apply matches_paren_year_tail. by exists ws, year.
Qed.





(** ** The year search *)

(** [re.search] returns the leftmost match. *)
Lemma search_from_spec (r : regex) :
  ∀ (a b : pystr),
    match search_from r b a with
    | Some (whole, m) =>
        ∃ pre a',
          a = pre ++ whole ++ a'
          ∧ matches_re r (rev pre ++ b) whole a' [] (groups m)
          ∧ ∀ pre' w' a'' g',
              a = pre' ++ w' ++ a'' →
              matches_re r (rev pre' ++ b) w' a'' [] g' →
              length pre ≤ length pre'
    | None =>
        ∀ pre w a' g',
          a = pre ++ w ++ a' → ¬ matches_re r (rev pre ++ b) w a' [] g'
    end.
Proof.
  assert (Hnone : ∀ a b, match_at r b a = None →
                    ∀ w a' g', a = w ++ a' → ¬ matches_re r b w a' [] g').
  { intros a b Hm w a' g' -> Hw. unfold match_at in Hm.
    destruct (rmatch_complete r _ _ _ _ _ accept Hw) as [m Hm']; [done |].
    congruence. }
  induction a as [|c a IH]; intros b; cbn [search_from].
  - destruct (match_at r b []) as [m|] eqn:Hm.
    + apply rmatch_sound in Hm as (w & a' & g' & Heq & Hw & Hacc).
      injection Hacc as <-. simpl. rewrite captured_text.
      exists [], a'. repeat split; try done. intros. simpl. lia.
    + intros pre w a' g' Heq.
      destruct pre; [| discriminate]. by apply (Hnone [] b Hm).
  - destruct (match_at r b (c :: a)) as [m|] eqn:Hm.
    + apply rmatch_sound in Hm as (w & a' & g' & Heq & Hw & Hacc).
      injection Hacc as <-. simpl. rewrite captured_text.
      exists [], a'. repeat split; try done. intros. simpl. lia.
    + specialize (IH (c :: b)).
      destruct (search_from r (c :: b) a) as [[whole m]|].
      * destruct IH as (pre & a' & -> & Hw & Hmin).
        exists (c :: pre), a'. rewrite rev_cons_app. repeat split; try done.
        intros pre' w' a'' g' Heq Hw'. destruct pre' as [|d pre'].
        -- exfalso. by apply (Hnone _ b Hm w' a'' g').
        -- injection Heq as <- Heq. rewrite rev_cons_app in Hw'. simpl.
           apply le_n_S. by eapply Hmin.
      * intros pre w a' g' Heq. destruct pre as [|d pre].
        -- by apply (Hnone _ b Hm).
        -- injection Heq as <- Heq. rewrite rev_cons_app. by apply IH.
Qed.

Lemma is_digit_word (c : ascii) : is_digit c = true → is_word c = true.
Proof. unfold is_word. by intros ->. Qed.

Lemma matches_re_year (b w a : pystr) (g g' : list (nat * pystr)) :
  matches_re re_year b w a g g' ↔
  ∃ century d1 d2,
    w = century ++ [d1; d2]
    ∧ (century = str "19" ∨ century = str "20")
    ∧ is_digit d1 = true ∧ is_digit d2 = true
    ∧ head_is is_word b = false ∧ head_is is_word a = false
    ∧ g' = (1, century) :: g.
Proof.
  unfold re_year. cbn [cats matches_re]. split.
  - intros (w1 & w2 & g1 & -> & (Hb & -> & ->) &
            w3 & w4 & g2 & -> & (g3 & Hcent & ->) &
            w5 & w6 & g4 & -> & (d1 & -> & Hd1 & ->) &
            w7 & w8 & g5 & -> & (d2 & -> & Hd2 & ->) &
            w9 & w10 & g6 & -> & (Ha & -> & ->) & -> & ->).
    assert (Hw3 : (w3 = str "19" ∨ w3 = str "20") ∧ g3 = g).
    { destruct Hcent as [[-> ->]%matches_lit | [-> ->]%matches_lit]; auto. }
    destruct Hw3 as [Hw3 ->].
    assert (Hhead : head_is is_word ((w3 ++ [d1] ++ [d2] ++ [] ++ []) ++ a) = true)
      by (by destruct Hw3 as [-> | ->]).
    rewrite Hhead in Hb.
    simpl in Ha. rewrite (is_digit_word d2 Hd2) in Ha.
    destruct (head_is is_word b); [done |].
    destruct (head_is is_word a); [done |].
    exists w3, d1, d2. by rewrite !app_nil_r.
  - intros (century & d1 & d2 & -> & Hcent & Hd1 & Hd2 & Hb & Ha & ->).
    exists [], (century ++ [d1; d2]), g. split; [done |]. split.
    { rewrite Hb. by destruct Hcent as [-> | ->]. }
    exists century, [d1; d2], ((1, century) :: g). split; [done |]. split.
    { exists g. split; [| done].
      destruct Hcent as [-> | ->]; [left | right]; by apply matches_lit. }
    exists [d1], [d2], ((1, century) :: g). split; [done |].
    split; [by exists d1 |].
    exists [d2], [], ((1, century) :: g). split; [done |].
    split; [by exists d2 |].
    exists [], [], ((1, century) :: g). split; [done |]. split; [| done].
    simpl. by rewrite (is_digit_word d2 Hd2), Ha.
Qed.

(** [find_year] returns the leftmost standalone year, and the empty string
    when there is none. *)
Lemma find_year_spec (text : pystr) :
  (∃ pre post,
     standalone_year text pre (find_year text) post
     ∧ ∀ pre' year' post', standalone_year text pre' year' post' →
                           length pre ≤ length pre')
  ∨ (find_year text = []
     ∧ ∀ pre year post, ¬ standalone_year text pre year post).
Proof.
  unfold find_year, re_search.
  pose proof (search_from_spec re_year text []) as Hspec.
  destruct (search_from re_year [] text) as [[whole m]|].
  - left. destruct Hspec as (pre & post & -> & Hm & Hmin).
    rewrite app_nil_r in Hm.
    apply matches_re_year in Hm as (century & d1 & d2 & -> & Hc & Hd1 & Hd2 & Hb & Ha & _).
    exists pre, post. split.
    + split; [done |]. split; [by exists century, d1, d2 | done].
    + intros pre' year' post' (Heq & (c' & e1 & e2 & -> & Hc' & He1 & He2) & Hb' & Ha').
      apply (Hmin pre' (c' ++ [e1; e2]) post' ((1, c') :: [])); [done |].
      apply matches_re_year. exists c', e1, e2. by rewrite app_nil_r.
  - right. split; [done |].
    intros pre year post (Heq & (c' & e1 & e2 & -> & Hc' & He1 & He2) & Hb' & Ha').
    apply (Hspec pre (c' ++ [e1; e2]) post ((1, c') :: [])); [done |].
    apply matches_re_year. exists c', e1, e2. by rewrite app_nil_r.
Qed.

(** ** Removing parenthetical asides *)




Lemma drop_while_head (p : ascii → bool) (s : pystr) :
  head_is p (drop_while p s) = false.
Proof.
  induction s as [|c s IH]; [done |]. simpl.
  destruct (p c) eqn:Hc; [done | by simpl].
Qed.

Lemma drop_while_id (p : ascii → bool) (s : pystr) :
  head_is p s = false → drop_while p s = s.
Proof. destruct s as [|c s]; [done |]. simpl. by intros ->. Qed.

Lemma drop_while_split (p : ascii → bool) (s : pystr) :
  ∃ pre, s = pre ++ drop_while p s ∧ forallb p pre = true.
Proof.
  induction s as [|c s (pre & IH & Hpre)]; [by exists [] |]. simpl.
  destruct (p c) eqn:Hc; [| by exists []].
  exists (c :: pre). simpl. rewrite Hc, Hpre. split; [by f_equal | done].
Qed.











(** ** The record extractor *)



(** A narrative item: the clause loses its parenthetical aside, and the
    year comes from the rest of the sentence. *)
Example extract_narrative_item :
  extract_movie_from_li
    (str "Casablanca (film) was voted best film in a 1999 poll") (str "Romance")
  = Some (Movie (str "Casablanca") (str "Romance") unrated (str "1999")).
Proof. vm_compute. reflexivity. Qed.

(** Whitespace and word characters beyond ASCII: a no-break space (U+00A0)
    separates the title from the year, and a letter with an accent (U+00E9)
    before the digits makes them part of a word, so that they are no
    standalone year. *)
Example extract_latin1_item :
  extract_movie_from_li (str "Alien" ++ ascii_of_nat 160 :: str "(1979)")
                        (str "Horror")
  = Some (Movie (str "Alien") (str "Horror") unrated (str "1979"))
  ∧ extract_movie_from_li (str "caf" ++ ascii_of_nat 233 :: str "1999 was good")
                          (str "Drama")
    = Some (Movie (str "caf" ++ ascii_of_nat 233 :: str "1999") (str "Drama")
                  unrated [])
  ∧ find_year (str "cafe 1999 was good") = str "1999".
Proof. vm_compute. repeat split; reflexivity. Qed.

(** * The program as a whole *)

(** ** Trimming and case *)

Lemma head_is_app (p : ascii → bool) (s t : pystr) :
  s ≠ [] → head_is p (s ++ t) = head_is p s.
Proof. by destruct s. Qed.

Lemma strip_trimmed (s : pystr) : trimmed (strip s).
Proof.
  unfold trimmed, strip.
  set (t := drop_while is_space s). set (u := drop_while is_space (rev t)).
  split; [| rewrite rev_involutive; apply drop_while_head].
  destruct (drop_while_split is_space (rev t)) as (pre & Hrev & _). fold u in Hrev.
  destruct u as [|c u]; [done |].
  assert (Ht : t = rev (c :: u) ++ rev pre).
  { by rewrite <- rev_app_distr, <- Hrev, rev_involutive. }
  assert (Hne : rev (c :: u) ≠ []).
  { intros H. apply (f_equal (@length _)) in H. rewrite length_rev in H. done. }
  rewrite <- (head_is_app is_space _ (rev pre) Hne), <- Ht.
  apply drop_while_head.
Qed.

Lemma trimmed_strip (s : pystr) : trimmed s → strip s = s.
Proof.
  intros [Hs Hr]. unfold strip.
  by rewrite (drop_while_id _ _ Hs), (drop_while_id _ _ Hr), rev_involutive.
Qed.

Lemma strip_idemp (s : pystr) : strip (strip s) = strip s.
Proof. apply trimmed_strip, strip_trimmed. Qed.

Lemma lower_char_is_space (c : ascii) : is_space (lower_char c) = is_space c.
Proof. destruct c as [[] [] [] [] [] [] [] []]; reflexivity. Qed.

Lemma lower_drop_while (s : pystr) :
  lower (drop_while is_space s) = drop_while is_space (lower s).
Proof.
  induction s as [|c s IH]; [done |]. simpl. rewrite lower_char_is_space.
  by destruct (is_space c).
Qed.

Lemma lower_rev (s : pystr) : lower (rev s) = rev (lower s).
Proof. unfold lower. apply map_rev. Qed.

Lemma lower_strip (s : pystr) : lower (strip s) = strip (lower s).
Proof.
  unfold strip. by rewrite lower_rev, lower_drop_while, lower_rev, lower_drop_while.
Qed.

Lemma occurs_in_refl (s : pystr) : occurs_in s s.
Proof. exists [], []. by rewrite app_nil_r. Qed.

Lemma occurs_in_trans (s t u : pystr) :
  occurs_in s t → occurs_in t u → occurs_in s u.
Proof.
  intros (p1 & q1 & ->) (p2 & q2 & ->).
  exists (p2 ++ p1), (q1 ++ q2). by rewrite <- !app_assoc.
Qed.

Lemma occurs_in_lower (s t : pystr) : occurs_in s t → occurs_in (lower s) (lower t).
Proof.
  intros (p & q & ->). exists (lower p), (lower q).
  unfold lower. by rewrite !map_app.
Qed.

Lemma occurs_in_elem_of (s t : pystr) (c : ascii) :
  occurs_in s t → c ∈ s → c ∈ t.
Proof. intros (p & q & ->) Hc. rewrite !elem_of_app. auto. Qed.

Lemma strip_occurs_in (s : pystr) : occurs_in (strip s) s.
Proof.
  unfold strip.
  destruct (drop_while_split is_space s) as (pre & Hs & _).
  destruct (drop_while_split is_space (rev (drop_while is_space s))) as (pre2 & Hr & _).
  exists pre, (rev pre2). rewrite Hs at 1. f_equal.
  by rewrite <- rev_app_distr, <- Hr, rev_involutive.
Qed.

Lemma split_commas_aux_occurs_in (s cur part : pystr) :
  part ∈ split_commas_aux cur s → occurs_in part (rev cur ++ s).
Proof.
  revert cur. induction s as [|c s IH]; intros cur; simpl.
  - intros ->%list_elem_of_singleton. rewrite app_nil_r. apply occurs_in_refl.
  - destruct (code c =? 44).
    + intros [-> | Hin]%elem_of_cons.
      * by exists [], (c :: s).
      * apply IH in Hin as (p & q & Hs). simpl in Hs. rewrite Hs.
        exists (rev cur ++ c :: p), q. by rewrite <- app_assoc.
    + intros Hin%IH. simpl in Hin. by rewrite <- app_assoc in Hin.
Qed.

Lemma split_commas_occurs_in (s part : pystr) :
  part ∈ split_commas s → occurs_in part s.
Proof. apply (split_commas_aux_occurs_in s []). Qed.

Lemma split_commas_aux_no_comma (s cur part : pystr) :
  Forall (λ c, code c ≠ 44) cur →
  part ∈ split_commas_aux cur s → Forall (λ c, code c ≠ 44) part.
Proof.
  revert cur. induction s as [|c s IH]; intros cur Hcur; simpl.
  - intros ->%list_elem_of_singleton. by apply Forall_rev.
  - destruct (code c =? 44) eqn:Hc.
    + intros [-> | Hin]%elem_of_cons; [by apply Forall_rev | by apply (IH [])].
    + apply IH. constructor; [| done]. by apply Nat.eqb_neq.
Qed.

Lemma split_commas_no_comma (s part : pystr) :
  part ∈ split_commas s → Forall (λ c, code c ≠ 44) part.
Proof. by apply split_commas_aux_no_comma. Qed.

Lemma parse_genres_elem_of (user_input g : pystr) :
  g ∈ parse_genres user_input ↔
  ∃ part, part ∈ split_commas user_input ∧ g = strip part ∧ g ≠ [].
Proof.
  unfold parse_genres. rewrite list_elem_of_omap. split.
  - intros (part & Hpart & Hg). exists part.
    destruct (bool_decide (strip part = [])) eqn:He; [done |].
    apply bool_decide_eq_false in He. injection Hg as <-. done.
  - intros (part & Hpart & -> & Hne). exists part. split; [done |].
    by rewrite bool_decide_eq_false_2.
Qed.

(** What a line that leads to a search looks like. *)
Lemma read_command_lookup_inv (line : pystr) (chosen_genres : list pystr) :
  read_command line = Lookup chosen_genres →
  (lower (strip line) ∉ sentinels)
  ∧ chosen_genres ≠ []
  ∧ Forall (λ g, g ≠ [] ∧ strip g = g ∧ occurs_in g line
                 ∧ Forall (λ c, code c ≠ 44) g) chosen_genres.
Proof.
  unfold read_command.
  destruct (bool_decide (lower (strip line) ∈ sentinels)) eqn:Hq; [done |].
  apply bool_decide_eq_false in Hq.
  destruct (bool_decide (strip line = [])); [done |].
  destruct (parse_genres (strip line)) as [|g gs] eqn:Hp; [done |].
  intros [= <-]. split; [done |]. split; [done |].
  rewrite <- Hp. apply Forall_forall. intros x (part & Hpart & -> & Hne)%parse_genres_elem_of.
  split; [done |]. split; [apply strip_idemp |]. split.
  - eapply occurs_in_trans; [apply strip_occurs_in |].
    eapply occurs_in_trans; [by apply split_commas_occurs_in | apply strip_occurs_in].
  - apply Forall_forall. intros c Hc.
    apply (occurs_in_elem_of _ _ _ (strip_occurs_in part)) in Hc.
    apply split_commas_no_comma in Hpart. rewrite Forall_forall in Hpart. by apply Hpart.
Qed.

(** X18: when a line typed leads to a search, it is no quit command, and the
    genres searched for are a non-empty list of non-empty, trimmed, comma-free
    pieces of the line. *)
Theorem read_command_lookup (line : pystr) (chosen_genres : list pystr) :
  read_command line = Lookup chosen_genres →
  (lower (strip line) ∉ sentinels)
  ∧ chosen_genres ≠ []
  ∧ Forall (λ g, g ≠ [] ∧ strip g = g ∧ occurs_in g line
                 ∧ Forall (λ c, code c ≠ 44) g) chosen_genres.
Proof. exact (read_command_lookup_inv line chosen_genres). Qed.

Lemma read_command_lookup_witness :
  (lower (strip (str " Action , sci-fi,, ")) ∉ sentinels)
  ∧ [str "Action"; str "sci-fi"] ≠ []
  ∧ Forall (λ g, g ≠ [] ∧ strip g = g ∧ occurs_in g (str " Action , sci-fi,, ")
                 ∧ Forall (λ c, code c ≠ 44) g)
           [str "Action"; str "sci-fi"].
Proof.
  apply (read_command_lookup (str " Action , sci-fi,, ") [str "Action"; str "sci-fi"]).
  vm_compute. reflexivity.
Defined.

Lemma normalize_query_trimmed (q : pystr) :
  strip q = q → normalize_query q = remove_spaces (lower q).
Proof. unfold normalize_query. by intros ->. Qed.

(** X19: for the genres [main] passes on from a line typed, which are already
    trimmed, the filter selects exactly the rows whose normalized genre
    contains one of the genres lowercased and with its spaces removed. *)
Theorem main_filter_lowercase_and_spaces
    (line : pystr) (chosen_genres : list pystr)
    (csv_file : file_state) (df : list row) :
  read_command line = Lookup chosen_genres →
  load_and_clean_movies csv_file = Some df →
  selects_by_lowercase_and_spaces df chosen_genres.
Proof.
  intros (_ & _ & Hchosen)%read_command_lookup_inv
         (lines & -> & _ & ->)%load_and_clean_movies_Some.
  rewrite Forall_forall in Hchosen.
  intros r. unfold filter_movies_by_genres.
  rewrite elem_of_list_filter, genre_mask_spec. split.
  - intros [Hr (q & Hq & Hocc)]. split; [done |]. exists q. split; [done |].
    apply clean_rows in Hr as (r0 & g & _ & _ & _ & ->). simpl in *.
    destruct (Hchosen q Hq) as (_ & Hstrip & _).
    rewrite normalize_genre_idemp. rewrite lower_normalize_genre in Hocc.
    by rewrite <- (normalize_query_trimmed q Hstrip).
  - intros [Hr (q & Hq & Hocc)]. split; [done |]. exists q. split; [done |].
    apply clean_rows in Hr as (r0 & g & _ & _ & _ & ->). simpl in *.
    destruct (Hchosen q Hq) as (_ & Hstrip & _).
    rewrite normalize_genre_idemp in Hocc. rewrite lower_normalize_genre.
    by rewrite (normalize_query_trimmed q Hstrip).
Qed.

Lemma main_filter_witness :
  selects_by_lowercase_and_spaces [action_row] [str "Action"].
Proof.
  apply (main_filter_lowercase_and_spaces (str " Action ") [str "Action"]
           (Stored [action_read]) [action_row]).
  - vm_compute. reflexivity.
  - reflexivity.
Defined.

(** C3: for a store that was loaded and the genres [main] passes on from a
    line typed, the filter selects, in store order, exactly the rows whose
    stored genre, which is in lower case and without spaces, contains one of
    the genres put in lower case and with its spaces removed.  (The filter
    also trims each genre; the genres coming from [main] are trimmed
    already.)  With the stored genres action, actioncomedy and drama the
    query action selects the first two rows, and so does the query
    "Act ION". *)
Theorem C3_filter_selects_substring_matches :
  (∀ (csv_file : file_state) (df : list row) (line : pystr) (genres : list pystr),
     load_and_clean_movies csv_file = Some df →
     read_command line = Lookup genres →
     filter_movies_by_genres df genres `sublist_of` df
     ∧ ∀ r, r ∈ filter_movies_by_genres df genres ↔
            r ∈ df ∧ ∃ q g, q ∈ genres ∧ row_genre r = Some g
                     ∧ remove_spaces (lower g) = g
                     ∧ occurs_in (remove_spaces (lower q)) g)
  ∧ (∀ (df : list row) (genres : list pystr) (r : row),
       r ∈ filter_movies_by_genres df genres ↔
       r ∈ df ∧ ∃ q, q ∈ genres
                ∧ occurs_in (remove_spaces (lower (strip q)))
                            (lower (cell_str (row_genre r))))
  ∧ (∀ t1 t2 t3 y1 y2 y3 r1 r2 r3 q,
       q = str "action" ∨ q = str "Act ION" →
       filter_movies_by_genres
         [ Row t1 (Some (str "action")) r1 y1;
           Row t2 (Some (str "actioncomedy")) r2 y2;
           Row t3 (Some (str "drama")) r3 y3 ]
         [q]
       = [ Row t1 (Some (str "action")) r1 y1;
           Row t2 (Some (str "actioncomedy")) r2 y2 ]).
Proof.
  split; [| split].
  - intros csv_file df line genres (rows & -> & _ & ->)%load_and_clean_movies_Some
           (_ & _ & Hchosen)%read_command_lookup_inv.
    rewrite Forall_forall in Hchosen.
    split; [apply filter_sublist |].
    intros r. unfold filter_movies_by_genres.
    rewrite elem_of_list_filter, genre_mask_spec. split.
    + intros [Hr (q & Hq & Hocc)]. split; [done |].
      apply clean_rows in Hr as (r0 & g & _ & _ & _ & ->). simpl in *.
      destruct (Hchosen q Hq) as (_ & Hstrip & _).
      exists q, (normalize_genre g). split; [done |]. split; [done |].
      split; [apply normalize_genre_idemp |].
      rewrite lower_normalize_genre in Hocc.
      by rewrite <- (normalize_query_trimmed q Hstrip).
    + intros [Hr (q & g & Hq & Hg & Hnorm & Hocc)]. split; [done |].
      exists q. split; [done |]. rewrite Hg. simpl.
      destruct (Hchosen q Hq) as (_ & Hstrip & _).
      rewrite (normalize_query_trimmed q Hstrip).
      change (remove_spaces (lower g)) with (normalize_genre g) in Hnorm.
      by rewrite <- Hnorm, lower_normalize_genre, Hnorm.
  - intros df genres r. unfold filter_movies_by_genres.
    by rewrite elem_of_list_filter, genre_mask_spec.
  - intros t1 t2 t3 y1 y2 y3 r1 r2 r3 q [-> | ->]; reflexivity.
Qed.

Lemma C3_filter_witness :
  filter_movies_by_genres [action_row] [str "Action"] `sublist_of` [action_row].
Proof.
  refine (proj1 (proj1 C3_filter_selects_substring_matches
                   (Stored [action_read]) [action_row] (str " Action ")
                   [str "Action"] eq_refl _)).
  vm_compute. reflexivity.
Defined.

(** ** Cleaning twice *)

Lemma drop_duplicates_from_id {A K : Type} `{EqDecision K} (key : A → K)
    (seen : list K) (rows : list A) :
  NoDup (map key rows) → (∀ r, r ∈ rows → key r ∉ seen) →
  drop_duplicates_from key seen rows = rows.
Proof.
  revert seen. induction rows as [|r rows IH]; intros seen Hnd Hseen; [done |].
  simpl in *. apply NoDup_cons in Hnd as [Hr Hnd].
  rewrite (bool_decide_eq_false_2 (key r ∈ seen)) by (apply Hseen; by left).
  f_equal. apply IH; [done |].
  intros x Hx [Heq | Hin]%elem_of_cons.
  - apply Hr. rewrite <- Heq. by apply list_elem_of_fmap_2.
  - apply (Hseen x); [by right | done].
Qed.

Lemma filter_all {A : Type} (f : A → bool) (l : list A) :
  (∀ x, x ∈ l → f x = true) → List.filter f l = l.
Proof.
  induction l as [|x l IH]; intros H; [done |]. simpl.
  rewrite (H x) by (by left). f_equal. apply IH. intros y Hy. apply H. by right.
Qed.

Lemma map_id_on {A : Type} (f : A → A) (l : list A) :
  (∀ x, x ∈ l → f x = x) → map f l = l.
Proof.
  induction l as [|x l IH]; intros H; [done |]. simpl.
  rewrite (H x) by (by left). f_equal. apply IH. intros y Hy. apply H. by right.
Qed.

(** X9: cleaning a store that is already clean changes nothing. *)
Theorem clean_idempotent (df : list row) : clean (clean df) = clean df.
Proof.
  assert (Hrows : ∀ r, r ∈ clean df →
            row_title r ≠ NaN
            ∧ ∃ g, r = Row (row_title r) (Some (normalize_genre g)) (row_rating r) (row_year r)).
  { intros r (r0 & g & _ & Ht & _ & ->)%clean_rows. split; [done | by exists g]. }
  unfold clean at 1.
  assert (H1 : dropna_title_genre (clean df) = clean df).
  { apply filter_all. intros r [Ht (g & Hr)]%Hrows. rewrite Hr. simpl.
    by rewrite (bool_decide_eq_false_2 _ Ht). }
  assert (H2 : map (set_genre normalize_genre) (clean df) = clean df).
  { apply map_id_on. intros r [_ (g & Hr)]%Hrows. rewrite Hr. unfold set_genre. simpl.
    by rewrite normalize_genre_idemp. }
  rewrite H1, H2. apply drop_duplicates_from_id.
  - apply drop_duplicates_NoDup.
  - intros r _. apply not_elem_of_nil.
Qed.

(** ** Blank queries *)

Lemma contains_nil (hay : pystr) : contains [] hay = true.
Proof. by destruct hay. Qed.

(** X10: a genre that is blank once normalized (empty, or only spaces and
    surrounding whitespace) occurs in every genre text, so a query that
    contains one selects the whole store. *)
Theorem filter_blank_query_selects_all (df : list row) (genres : list pystr) (q : pystr) :
  q ∈ genres → normalize_query q = [] → filter_movies_by_genres df genres = df.
Proof.
  intros Hq Hblank. unfold filter_movies_by_genres. apply filter_all.
  intros r _. unfold genre_mask. apply existsb_elem_of.
  exists []. split; [| apply contains_nil].
  rewrite <- Hblank. by apply list_elem_of_fmap_2.
Qed.

Lemma filter_blank_query_witness :
  filter_movies_by_genres [action_row; drama_row] [str " "] = [action_row; drama_row].
Proof.
  apply (filter_blank_query_selects_all _ _ (str " ")).
  - apply list_elem_of_singleton. reflexivity.
  - reflexivity.
Defined.

(** ** Headings *)

Lemma scan_keywords_none (kws : list (pystr * pystr)) (h cur : pystr) :
  Forall (λ kl, ¬ occurs_in kl.1 h) kws → scan_keywords kws h cur = cur.
Proof.
  induction 1 as [|[k l] kws Hk _ IH]; [done |]. simpl in *.
  apply contains_false in Hk. by rewrite Hk.
Qed.

(** X2: a heading in which no keyword of the vocabulary occurs changes nothing:
    the lists after it are read under the genre that was current before it, as
    if the heading were not in the document. *)
Theorem heading_without_keyword_is_skipped (before_ after_ : list element) (h : pystr) :
  Forall (λ kl, ¬ occurs_in kl.1 (clean_heading h)) genre_keywords →
  process_elements (before_ ++ Heading h :: after_) = process_elements (before_ ++ after_).
Proof.
  intros Hnone. unfold process_elements.
  rewrite !fold_left_app. simpl.
  destruct (fold_left process_element before_ (General, [])) as [cur movies].
  simpl. unfold heading_step. by rewrite scan_keywords_none.
Qed.

Lemma heading_without_keyword_witness :
  process_elements ([Heading (str "Horror")]
                      ++ Heading (str "See also") :: [UL [str "Alien (1979)"]])
  = process_elements ([Heading (str "Horror")] ++ [UL [str "Alien (1979)"]]).
Proof.
  apply heading_without_keyword_is_skipped.
  unfold genre_keywords.
  repeat (apply Forall_cons_2; [apply contains_false; reflexivity |]).
  apply Forall_nil_2.
Defined.

(** X1: two headings that differ only in the case of their letters set the same
    current genre. *)
Theorem heading_step_case_insensitive (current_genre h h' : pystr) :
  lower h = lower h' → heading_step current_genre h = heading_step current_genre h'.
Proof.
  intros Heq. unfold heading_step, clean_heading.
  by rewrite !lower_strip, Heq.
Qed.

Lemma heading_step_case_insensitive_witness :
  heading_step General (str "HORROR Films") = heading_step General (str "Horror films").
Proof. apply heading_step_case_insensitive. reflexivity. Defined.

Lemma scan_keywords_label (kws : list (pystr * pystr)) (h cur : pystr) :
  scan_keywords kws h cur = cur ∨ scan_keywords kws h cur ∈ map snd kws.
Proof.
  induction kws as [|[k l] kws IH]; simpl; [by left |].
  destruct (contains k h); [right; by left |].
  destruct IH as [? | ?]; [by left | right; by right].
Qed.

Lemma process_elements_labels (all_elements : list element) (st : pystr * list movie) :
  (st.1 = General ∨ st.1 ∈ map snd genre_keywords) →
  Forall (λ m, Genre m ∈ map snd genre_keywords) st.2 →
  let st' := fold_left process_element all_elements st in
  (st'.1 = General ∨ st'.1 ∈ map snd genre_keywords)
  ∧ Forall (λ m, Genre m ∈ map snd genre_keywords) st'.2.
Proof.
  revert st. induction all_elements as [|e es IH]; intros [cur movies] Hcur Hmovies; [done |].
  simpl. apply IH; destruct e as [h | items]; simpl in *.
  - unfold heading_step.
    destruct (scan_keywords_label genre_keywords (clean_heading h) cur) as [-> | H]; auto.
  - by destruct (bool_decide (cur = General)).
  - done.
  - destruct (bool_decide (cur = General)) eqn:Hc; simpl; [done |].
    apply bool_decide_eq_false in Hc. destruct Hcur as [? | Hcur]; [done |].
    apply Forall_app. split; [done |].
    eapply Forall_impl; [apply extract_list_genre |]. simpl. by intros m ->.
Qed.

(** The genres of the heading-state pass. *)
Lemma heading_state_movies_labels (all_elements : list element) :
  Forall (λ m, Genre m ∈ map snd genre_keywords) (heading_state_movies all_elements).
Proof.
  unfold heading_state_movies, process_elements.
  apply (process_elements_labels all_elements (General, [])); [by left | constructor].
Qed.

(** X3: the genre of every record of the heading-state pass is one of the labels
    of the vocabulary. *)
Theorem heading_state_genres_are_labels (all_elements : list element) :
  Forall (λ m, Genre m ∈ map snd genre_keywords) (heading_state_movies all_elements).
Proof. exact (heading_state_movies_labels all_elements). Qed.

(** ** The shape of extracted records *)

Lemma year_token_four_digits (century : pystr) (d1 d2 : ascii) :
  century = str "19" ∨ century = str "20" →
  is_digit d1 = true → is_digit d2 = true →
  four_digits (century ++ [d1; d2]).
Proof. intros [-> | ->] H1 H2; split; simpl; by rewrite ?H1, ?H2. Qed.

(** The fields of an extracted record. *)
Lemma extract_movie_from_li_fields (text genre : pystr) (m : movie) :
  extract_movie_from_li text genre = Some m →
  Genre m = genre ∧ Rating m = unrated
  ∧ strip (Title m) = Title m
  ∧ (Year m = [] ∨ four_digits (Year m))
  ∧ occurs_in (Year m) text.
Proof.
  unfold extract_movie_from_li.
  pose proof (re_match_title_paren_year text) as Hprimary.
  destruct (re_match re_title_paren_year text) as [m0|].
  - intros [= <-]. simpl. destruct Hprimary as [(ws & rest & Htext & _ & _ & _ & Hlen & Hdig) _].
    repeat split; try done.
    + apply strip_idemp.
    + by right.
    + rewrite Htext. exists (group 1 m0 ++ ws ++ str "("), (str ")" ++ rest).
      by rewrite <- !app_assoc.
  - destruct (re_match re_sentence text) as [sm|]; [| done].
    destruct (2 <? _); [| done]. intros [= <-]. simpl.
    repeat split; try done.
    + apply strip_idemp.
    + destruct (find_year_spec text)
        as [(pre & post & (_ & (c & d1 & d2 & -> & Hc & H1 & H2) & _) & _) | [-> _]];
        [right; by apply year_token_four_digits | by left].
    + destruct (find_year_spec text) as [(pre & post & (Htext & _) & _) | [-> _]].
      * by exists pre, post.
      * by exists [], text.
Qed.

(** X4: a record extracted from an item carries the genre given, the rating
    "N/A", a title with no whitespace at its ends, and a year that is empty or
    four digits and occurs in the text of the item. *)
Theorem extract_movie_from_li_shape (text genre : pystr) (m : movie) :
  extract_movie_from_li text genre = Some m →
  Genre m = genre ∧ Rating m = unrated
  ∧ strip (Title m) = Title m
  ∧ (Year m = [] ∨ four_digits (Year m))
  ∧ occurs_in (Year m) text.
Proof. exact (extract_movie_from_li_fields text genre m). Qed.

Lemma extract_movie_from_li_shape_witness :
  Genre alien_record = str "Horror" ∧ Rating alien_record = unrated
  ∧ strip (Title alien_record) = Title alien_record
  ∧ (Year alien_record = [] ∨ four_digits (Year alien_record))
  ∧ occurs_in (Year alien_record) (str "Alien (1979)").
Proof.
  apply (extract_movie_from_li_shape (str "Alien (1979)") (str "Horror") alien_record).
  vm_compute. reflexivity.
Defined.

(** Take hypotheses about matches apart. *)
Ltac split_matches :=
  repeat match goal with
         | H : ∃ _, _ |- _ => destruct H
         | H : _ ∧ _ |- _ => destruct H
         | H : matches_re (plus _ _) _ _ _ _ _ |- _ => apply matches_plus in H
         | H : matches_re (chr _) _ _ _ _ _ |- _ => apply matches_chr in H
         | H : matches_re digits4 _ _ _ _ _ |- _ => apply matches_digits4 in H
         end.

Lemma occurs_in_here (s q : pystr) : occurs_in s (s ++ q).
Proof. by exists [], q. Qed.

Lemma occurs_in_app_r (s p t : pystr) : occurs_in s t → occurs_in s (p ++ t).
Proof. intros (p' & q & ->). exists (p ++ p'), q. by rewrite <- app_assoc. Qed.

Lemma occurs_in_cons (s t : pystr) (c : ascii) : occurs_in s t → occurs_in s (c :: t).
Proof. apply (occurs_in_app_r s [c] t). Qed.

Ltac find_occurrence :=
  repeat first [apply occurs_in_here | apply occurs_in_app_r | apply occurs_in_cons].

Lemma matches_patterns_year (p : regex) (b w a : pystr) (g' : list (nat * pystr)) :
  p ∈ patterns → matches_re p b w a [] g' →
  four_digits (lookup_group 2 g') ∧ occurs_in (lookup_group 2 g') w.
Proof.
  unfold patterns. rewrite !elem_of_cons, elem_of_nil.
  intros [-> | [-> | [-> | []]]].
  - unfold re_title_paren_year. cbn [cats matches_re]. intros H. split_matches. subst.
    split; [done |]. simpl. find_occurrence.
  - unfold re_title_dash_year. cbn [cats matches_re]. intros H. split_matches. subst.
    split; [done |]. simpl. find_occurrence.
  - unfold re_title_comma_year. cbn [cats matches_re]. intros H. split_matches. subst.
    split; [done |]. simpl. find_occurrence.
Qed.

Lemma re_search_patterns_year (p : regex) (text whole : pystr) (ms : mstate) :
  p ∈ patterns → re_search p text = Some (whole, ms) →
  four_digits (group 2 ms) ∧ occurs_in (group 2 ms) text.
Proof.
  intros Hp Hs. unfold re_search in Hs.
  pose proof (search_from_spec p text []) as Hspec. rewrite Hs in Hspec.
  destruct Hspec as (pre & a' & -> & Hm & _).
  destruct (matches_patterns_year p _ _ _ _ Hp Hm) as [H4 Hocc]. split; [done |].
  eapply occurs_in_trans; [exact Hocc |]. by exists pre, a'.
Qed.

Lemma try_patterns_shape (ps : list regex) (text : pystr) (m : movie) :
  (∀ p, p ∈ ps → p ∈ patterns) →
  try_patterns ps text = Some m →
  Genre m = General ∧ Rating m = unrated
  ∧ strip (Title m) = Title m ∧ rejected (Title m) = false
  ∧ four_digits (Year m) ∧ occurs_in (Year m) text.
Proof.
  induction ps as [|p ps IH]; intros Hps; simpl; [done |].
  assert (Hps' : ∀ q, q ∈ ps → q ∈ patterns) by (intros q Hq; apply Hps; by right).
  destruct (re_search p text) as [[whole ms]|] eqn:Hs; [| by apply IH].
  destruct (rejected (strip (group 1 ms))) eqn:Hrej; [by apply IH |].
  intros [= <-]. simpl.
  destruct (re_search_patterns_year p text whole ms) as [H4 Hocc]; [apply Hps; by left | done |].
  split; [done |]. split; [done |]. split; [apply strip_idemp |].
  split; [done |]. by split.
Qed.

Lemma rejected_false (title : pystr) :
  rejected title = false ↔
  3 ≤ length title ∧ ∀ word, word ∈ stoplist → ¬ occurs_in word (lower title).
Proof.
  unfold rejected. rewrite orb_false_iff, Nat.ltb_ge. split.
  - intros [Hlen Hex]. split; [done |]. intros word Hw Hocc.
    apply contains_spec in Hocc.
    assert (existsb (λ w, contains w (lower title)) stoplist = true)
      by (apply existsb_elem_of; by exists word).
    congruence.
  - intros [Hlen Hno]. split; [done |].
    destruct (existsb _ stoplist) eqn:Hex; [| done].
    apply existsb_elem_of in Hex as (word & Hw & Hc).
    apply contains_spec in Hc. by destruct (Hno word Hw).
Qed.

(** The records of the fallback pass. *)
Lemma scrape_general_movies_fields (uls : list (list pystr)) (df : list movie) :
  scrape_general_movies uls = Some df →
  df ≠ []
  ∧ NoDup (map title_year df)
  ∧ Forall (λ m, Genre m = General ∧ Rating m = unrated
                 ∧ strip (Title m) = Title m
                 ∧ 3 ≤ length (Title m)
                 ∧ (∀ word, word ∈ stoplist → ¬ occurs_in word (lower (Title m)))
                 ∧ four_digits (Year m)
                 ∧ ∃ text, text ∈ concat uls ∧ occurs_in (Year m) text) df.
Proof.
  unfold scrape_general_movies.
  destruct (general_movies uls) as [|m0 ms] eqn:Hgen; [done |].
  intros [= <-]. split; [| split].
  - unfold drop_duplicates. simpl. done.
  - apply drop_duplicates_NoDup.
  - rewrite <- Hgen. apply Forall_forall. intros m Hm%drop_duplicates_elem_of.
    unfold general_movies in Hm. apply list_elem_of_omap in Hm as (text & Htext & Hm).
    destruct (try_patterns_shape patterns text m (λ p H, H) Hm)
      as (Hg & Hr & Hs & Hrej & H4 & Hocc).
    apply rejected_false in Hrej as [Hlen Hstop].
    do 6 (split; [done |]). by exists text.
Qed.

(** X5: a successful fallback pass returns a non-empty list of records with
    pairwise distinct (title, year); each has the genre "General", the rating
    "N/A", a trimmed title of at least 3 characters whose lowercase form
    contains no word of the stoplist, and a year of four digits that occurs in
    an item of the page. *)
Theorem scrape_general_movies_shape (uls : list (list pystr)) (df : list movie) :
  scrape_general_movies uls = Some df →
  df ≠ []
  ∧ NoDup (map title_year df)
  ∧ Forall (λ m, Genre m = General ∧ Rating m = unrated
                 ∧ strip (Title m) = Title m
                 ∧ 3 ≤ length (Title m)
                 ∧ (∀ word, word ∈ stoplist → ¬ occurs_in word (lower (Title m)))
                 ∧ four_digits (Year m)
                 ∧ ∃ text, text ∈ concat uls ∧ occurs_in (Year m) text) df.
Proof. exact (scrape_general_movies_fields uls df). Qed.

Lemma scrape_general_movies_shape_witness :
  NoDup (map title_year [Movie (str "Alien") General unrated (str "1979")]).
Proof.
  refine (proj1 (proj2 (scrape_general_movies_shape
                          [[str "Alien (1979)"; str "See also (1999)"]]
                          [Movie (str "Alien") General unrated (str "1979")] _))).
  vm_compute. reflexivity.
Defined.

(** ** One pass or the other *)

Lemma heading_state_from_items (all_elements : list element) (st : pystr * list movie)
    (m : movie) :
  m ∈ (fold_left process_element all_elements st).2 →
  m ∈ st.2 ∨ ∃ text genre, text ∈ concat (lists_of all_elements)
                           ∧ extract_movie_from_li text genre = Some m.
Proof.
  revert st. induction all_elements as [|e es IH]; intros [cur movies]; [by left |].
  simpl. intros [Hm | (text & genre & Htext & Hm)]%IH.
  - destruct e as [h | items]; simpl in Hm; [by left |].
    destruct (bool_decide (cur = General)); simpl in Hm; [by left |].
    apply elem_of_app in Hm as [Hm | Hm]; [by left | right].
    unfold extract_list in Hm. apply list_elem_of_omap in Hm as (text & Htext & Hm).
    exists text, cur. split; [| done]. unfold lists_of. simpl.
    apply elem_of_app. by left.
  - right. exists text, genre. split; [| done].
    destruct e as [h | items]; [done |]. unfold lists_of. simpl.
    apply elem_of_app. by right.
Qed.

Lemma heading_state_movies_from_items (all_elements : list element) (m : movie) :
  m ∈ heading_state_movies all_elements →
  ∃ text genre, text ∈ concat (lists_of all_elements)
                ∧ extract_movie_from_li text genre = Some m.
Proof.
  intros [Hm | Hm]%heading_state_from_items; [by apply elem_of_nil in Hm | done].
Qed.

Lemma drop_duplicates_nonempty {A K : Type} `{EqDecision K} (key : A → K)
    (rows : list A) :
  rows ≠ [] → drop_duplicates key rows ≠ [].
Proof. by destruct rows. Qed.

(** The two ways a scrape succeeds. *)
Lemma scrape_paths (all_elements : list element) (df : list movie) :
  scrape_wikipedia_best_movies all_elements = Some df →
  (heading_state_movies all_elements ≠ []
   ∧ df `sublist_of` heading_state_movies all_elements
   ∧ Forall (λ m, Genre m ∈ map snd genre_keywords) df)
  ∨ (heading_state_movies all_elements = []
     ∧ df ≠ []
     ∧ df `sublist_of` general_movies (lists_of all_elements)
     ∧ Forall (λ m, Genre m = General) df).
Proof.
  intros Hdf. destruct (heading_state_movies all_elements) as [|m0 ms] eqn:Hms.
  - right. rewrite scrape_fallback_path in Hdf by done.
    destruct (scrape_general_movies_fields _ _ Hdf) as (Hne & _ & Hall).
    split; [done |]. split; [done |]. split.
    + unfold scrape_general_movies in Hdf.
      destruct (general_movies (lists_of all_elements)); [done |].
      injection Hdf as <-. apply drop_duplicates_sublist.
    + eapply Forall_impl; [exact Hall |]. simpl. by intros m (Hg & _).
  - left. split; [done |].
    rewrite scrape_heading_path in Hdf by (by rewrite Hms).
    injection Hdf as <-. rewrite <- Hms.
    assert (Hsub : List.filter (λ m, 0 <? length (Title m))
                     (drop_duplicates title_year (heading_state_movies all_elements))
                   `sublist_of` heading_state_movies all_elements).
    { etrans; [apply filter_sublist | apply drop_duplicates_sublist]. }
    split; [done |].
    apply Forall_forall. intros m Hm. apply (elem_of_sublist _ _ _ Hm) in Hsub.
    pose proof (heading_state_movies_labels all_elements) as Hall.
    rewrite Forall_forall in Hall. by apply Hall.
Qed.

(** X6: the records a scrape returns come from one pass only: from the
    heading-state pass, all with labels of the vocabulary, when that pass found
    a record, and otherwise from the fallback pass, all with the genre
    "General". *)
Theorem scrape_uses_one_pass (all_elements : list element) (df : list movie) :
  scrape_wikipedia_best_movies all_elements = Some df →
  (heading_state_movies all_elements ≠ []
   ∧ df `sublist_of` heading_state_movies all_elements
   ∧ Forall (λ m, Genre m ∈ map snd genre_keywords) df)
  ∨ (heading_state_movies all_elements = []
     ∧ df ≠ []
     ∧ df `sublist_of` general_movies (lists_of all_elements)
     ∧ Forall (λ m, Genre m = General) df).
Proof. exact (scrape_paths all_elements df). Qed.

Lemma scrape_uses_one_pass_witness :
  (heading_state_movies horror_page ≠ []
   ∧ [alien_record] `sublist_of` heading_state_movies horror_page
   ∧ Forall (λ m, Genre m ∈ map snd genre_keywords) [alien_record])
  ∨ (heading_state_movies horror_page = []
     ∧ [alien_record] ≠ []
     ∧ [alien_record] `sublist_of` general_movies (lists_of horror_page)
     ∧ Forall (λ m, Genre m = General) [alien_record]).
Proof.
  apply (scrape_uses_one_pass horror_page [alien_record]).
  vm_compute. reflexivity.
Defined.

Lemma strip_nonempty (s : pystr) :
  s ≠ [] → head_is is_space s = false → strip s ≠ [].
Proof.
  intros Hne Hs. unfold strip. rewrite (drop_while_id _ _ Hs).
  destruct (drop_while_split is_space (rev s)) as (pre & Hrev & Hpre).
  intros Hnil. apply (f_equal (@rev _)) in Hnil. rewrite rev_involutive in Hnil.
  simpl in Hnil. rewrite Hnil, app_nil_r in Hrev.
  destruct s as [|c s]; [done |]. simpl in Hs.
  assert (Hc : c ∈ pre).
  { rewrite <- Hrev. apply list_elem_of_In, in_rev. rewrite rev_involutive. by left. }
  rewrite forallb_forall in Hpre. apply list_elem_of_In, Hpre in Hc. congruence.
Qed.

Lemma extract_movie_from_li_title (text genre : pystr) (m : movie) :
  head_is is_space text = false →
  extract_movie_from_li text genre = Some m → Title m ≠ [].
Proof.
  intros Htext. unfold extract_movie_from_li.
  pose proof (re_match_title_paren_year text) as Hprimary.
  destruct (re_match re_title_paren_year text) as [m0|].
  - intros [= <-]. simpl.
    destruct Hprimary as [(ws & rest & Heq & _ & Hne & Hws & _) _].
    destruct (group 1 m0) as [|c t] eqn:Hg.
    + exfalso. rewrite Heq in Htext. destruct ws as [|w ws]; [done |].
      simpl in *. apply andb_true_iff in Hws as [Hw _]. congruence.
    + apply strip_nonempty; [done |]. rewrite Heq in Htext. done.
  - destruct (re_match re_sentence text) as [sm|]; [| done].
    cbv zeta.
    set (title := strip (re_sub re_parenthetical (str " ") (strip (group 1 sm)))).
    destruct (2 <? length title) eqn:Hlen; [| done]. intros [= <-]. simpl.
    intros Hnil. by rewrite Hnil in Hlen.
Qed.

(** X7: when the item texts do not start with whitespace (they are stripped by
    [get_text]), every title of the heading-state pass is non-empty, so the
    filter on the title length removes nothing and a scrape that succeeds
    returns at least one record. *)
Theorem scrape_success_nonempty (all_elements : list element) (df : list movie) :
  Forall (λ text, head_is is_space text = false) (concat (lists_of all_elements)) →
  scrape_wikipedia_best_movies all_elements = Some df →
  df ≠ []
  ∧ (heading_state_movies all_elements ≠ [] →
     df = drop_duplicates title_year (heading_state_movies all_elements)).
Proof.
  intros Htrim Hdf.
  destruct (scrape_paths _ _ Hdf) as [(Hne & _) | (Hnil & Hne & _)];
    [| split; [done | by intros ?]].
  rewrite scrape_heading_path in Hdf by done. injection Hdf as <-.
  assert (Hall : List.filter (λ m, 0 <? length (Title m))
                   (drop_duplicates title_year (heading_state_movies all_elements))
                 = drop_duplicates title_year (heading_state_movies all_elements)).
  { apply filter_all. intros m Hm%drop_duplicates_elem_of.
    apply heading_state_movies_from_items in Hm as (text & genre & Htext & Hm).
    rewrite Forall_forall in Htrim.
    apply extract_movie_from_li_title in Hm; [| by apply Htrim].
    apply Nat.ltb_lt. destruct (Title m); [done | simpl; lia]. }
  rewrite Hall. split; [by apply drop_duplicates_nonempty | done].
Qed.

Lemma scrape_success_nonempty_witness :
  [alien_record] ≠ []
  ∧ (heading_state_movies horror_page ≠ [] →
     [alien_record] = drop_duplicates title_year (heading_state_movies horror_page)).
Proof.
  apply (scrape_success_nonempty horror_page [alien_record]).
  - repeat constructor.
  - vm_compute. reflexivity.
Defined.

(** ** The listed genres *)

Lemma remove_spaces_no_space (s : pystr) : Forall (λ c, code c ≠ 32) (remove_spaces s).
Proof.
  apply Forall_forall. intros c [_ Hc]%elem_of_list_filter.
  apply negb_true_iff, Nat.eqb_neq in Hc. done.
Qed.

Lemma remove_spaces_id (s : pystr) :
  Forall (λ c, code c ≠ 32) s → remove_spaces s = s.
Proof.
  intros Hs. apply filter_all. intros c Hc. rewrite Forall_forall in Hs.
  apply negb_true_iff, Nat.eqb_neq. by apply Hs.
Qed.

Lemma lower_no_space (s : pystr) :
  Forall (λ c, code c ≠ 32) s → Forall (λ c, code c ≠ 32) (lower s).
Proof.
  intros Hs. apply Forall_forall. intros c (d & -> & Hd)%list_elem_of_fmap.
  rewrite Forall_forall in Hs. specialize (Hs d Hd).
  apply Nat.eqb_neq. rewrite lower_char_space. by apply Nat.eqb_neq.
Qed.

Lemma occurs_in_Forall (P : ascii → Prop) (s t : pystr) :
  occurs_in s t → Forall P t → Forall P s.
Proof.
  intros Hocc Ht. apply Forall_forall. intros c Hc.
  rewrite Forall_forall in Ht. apply Ht. by eapply occurs_in_elem_of.
Qed.

(** The entries of the vocabulary. *)
Lemma get_all_genres_parts (df : list row) (x : pystr) :
  x ∈ get_all_genres df →
  x ≠ [] ∧ (x ∉ excluded) ∧ lower x = x ∧ strip x = x
  ∧ Forall (λ c, code c ≠ 44) x
  ∧ ∃ r g, r ∈ df ∧ row_genre r = Some g ∧ occurs_in x (lower g).
Proof.
  intros (r & g & Hr & Hg & part & Hpart & -> & Hne & Hex)%get_all_genres_elem_of.
  split; [done |]. split; [done |]. split; [apply lower_idemp |].
  split; [by rewrite lower_strip, strip_idemp |]. split.
  - apply Forall_forall. intros c (d & -> & Hd)%list_elem_of_fmap.
    apply (occurs_in_elem_of _ _ _ (strip_occurs_in part)) in Hd.
    apply split_commas_no_comma in Hpart. rewrite Forall_forall in Hpart.
    specialize (Hpart d Hd). intros Hc. apply Hpart.
    destruct d as [[] [] [] [] [] [] [] []]; vm_compute in Hc; try discriminate; reflexivity.
  - exists r, g. split; [done |]. split; [done |]. apply occurs_in_lower.
    eapply occurs_in_trans; [apply strip_occurs_in | by apply split_commas_occurs_in].
Qed.

(** X11: every genre of the vocabulary is non-empty, is neither "unknown" nor
    "n/a", is in lower case, has no whitespace at its ends and no comma, and
    occurs in the lowercased genre of a row of the store. *)
Theorem get_all_genres_entries (df : list row) (x : pystr) :
  x ∈ get_all_genres df →
  x ≠ [] ∧ (x ∉ excluded) ∧ lower x = x ∧ strip x = x
  ∧ Forall (λ c, code c ≠ 44) x
  ∧ ∃ r g, r ∈ df ∧ row_genre r = Some g ∧ occurs_in x (lower g).
Proof. exact (get_all_genres_parts df x). Qed.

Lemma get_all_genres_entries_witness :
  str "mystery" ≠ [] ∧ (str "mystery" ∉ excluded)
  ∧ lower (str "mystery") = str "mystery" ∧ strip (str "mystery") = str "mystery"
  ∧ Forall (λ c, code c ≠ 44) (str "mystery")
  ∧ ∃ r g, r ∈ mystery_store ∧ row_genre r = Some g
           ∧ occurs_in (str "mystery") (lower g).
Proof.
  apply (get_all_genres_entries mystery_store (str "mystery")).
  rewrite mystery_store_genres. set_solver.
Defined.

(** X12: the vocabulary of two stores put one after the other is the union of
    their vocabularies. *)
Theorem get_all_genres_app (df1 df2 : list row) :
  get_all_genres (df1 ++ df2) = get_all_genres df1 ∪ get_all_genres df2.
Proof.
  apply set_eq. intros x. rewrite elem_of_union, !get_all_genres_elem_of. split.
  - intros (r & g & [Hr | Hr]%elem_of_app & Hg); [left | right]; by exists r, g.
  - intros [(r & g & Hr & Hg) | (r & g & Hr & Hg)]; exists r, g;
      (split; [apply elem_of_app; auto | done]).
Qed.

(** A genre of the vocabulary occurs in the genre of a row. *)
Lemma get_all_genres_filter
    (csv_file : file_state) (df : list row) (x : pystr) :
  load_and_clean_movies csv_file = Some df →
  x ∈ get_all_genres df →
  filter_movies_by_genres df [x] ≠ [].
Proof.
  intros (lines & -> & _ & ->)%load_and_clean_movies_Some Hx.
  destruct (get_all_genres_parts _ _ Hx) as (_ & _ & Hlow & Hstrip & _ & r & g & Hr & Hg & Hocc).
  assert (Hin : r ∈ filter_movies_by_genres (clean lines) [x]).
  { unfold filter_movies_by_genres. apply elem_of_list_filter. split; [done |].
    apply genre_mask_spec. exists x. split; [by left |].
    rewrite Hg. simpl. unfold normalize_query. rewrite Hstrip, Hlow.
    rewrite remove_spaces_id; [done |].
    apply (occurs_in_Forall _ _ _ Hocc).
    apply clean_rows in Hr as (r0 & g0 & _ & _ & _ & ->). simpl in Hg.
    injection Hg as <-. rewrite lower_normalize_genre. apply remove_spaces_no_space. }
  intros Hnil. rewrite Hnil in Hin. by apply elem_of_nil in Hin.
Qed.

(** X13: every genre of the vocabulary of a loaded store, given back as the only
    genre of a query, selects at least one row. *)
Theorem listed_genre_finds_a_movie
    (csv_file : file_state) (df : list row) (x : pystr) :
  load_and_clean_movies csv_file = Some df →
  x ∈ get_all_genres df →
  filter_movies_by_genres df [x] ≠ [].
Proof. exact (get_all_genres_filter csv_file df x). Qed.

Lemma listed_genre_finds_a_movie_witness :
  filter_movies_by_genres mystery_store [str "western"] ≠ [].
Proof.
  apply (listed_genre_finds_a_movie (Stored mystery_read)).
  - reflexivity.
  - rewrite mystery_store_genres. set_solver.
Defined.

(** ** Recommendations *)

Lemma omap_length_le {A B : Type} (f : A → option B) (l : list A) :
  length (omap f l) ≤ length l.
Proof.
  induction l as [|x l IH]; [done |]. cbn. destruct (f x); cbn in *; lia.
Qed.

(** X14: the recommendations are at most as many as asked for, and each is a row
    of the store whose lowercased genre contains one of the normalized genres
    of the query. *)
Theorem recommendations_match (all_genres : list pystr) (perm : list nat)
    (df : list row) (chosen_genres : list pystr) (num_recommendations : nat)
    (recommendations : list row) :
  recommend_movies all_genres perm df chosen_genres num_recommendations
    = Recommended recommendations →
  length recommendations ≤ num_recommendations
  ∧ Forall (λ r, r ∈ df ∧ ∃ q, q ∈ chosen_genres
                 ∧ occurs_in (normalize_query q) (lower (cell_str (row_genre r))))
           recommendations.
Proof.
  unfold recommend_movies.
  destruct (filter_movies_by_genres df chosen_genres) as [|r0 rows] eqn:Hf; [done |].
  intros [= <-]. split.
  - unfold sample. etrans; [apply omap_length_le |]. rewrite length_take. lia.
  - apply Forall_forall. intros r Hr. unfold sample in Hr.
    apply list_elem_of_omap in Hr as (i & _ & Hi).
    apply list_elem_of_lookup_2 in Hi. rewrite <- Hf in Hi.
    unfold filter_movies_by_genres in Hi.
    by rewrite elem_of_list_filter, genre_mask_spec in Hi.
Qed.

Lemma recommendations_match_witness :
  length [drama_row; action_row] ≤ 5
  ∧ Forall (λ r, r ∈ [action_row; drama_row]
                 ∧ ∃ q, q ∈ [str "action"]
                        ∧ occurs_in (normalize_query q) (lower (cell_str (row_genre r))))
           [drama_row; action_row].
Proof.
  apply (recommendations_match [] [1; 0] [action_row; drama_row] [str "action"] 5).
  reflexivity.
Defined.





(** ** Scores *)

Lemma count_matches_no_common (a b : pystr) :
  (∀ c, c ∈ a → c ∉ b) → matches a b = 0.
Proof.
  intros Hdisj. unfold matches.
  destruct (count_matches_common (bpopular b) (length a) a b) as (m & Hma & Hmb & <-).
  destruct m as [|c m]; [done |]. exfalso.
  apply (Hdisj c).
  - eapply elem_of_sublist; [| exact Hma]. by left.
  - eapply elem_of_sublist; [| exact Hmb]. by left.
Qed.

(** The score lies between 0 and 1, and is 0 for texts with no character
    in common. *)
Lemma ratio_bounds (a b : pystr) :
  Qle 0 (ratio a b) ∧ Qle (ratio a b) 1
  ∧ ((∀ c, c ∈ a → c ∉ b) → a ++ b ≠ [] → Qeq (ratio a b) 0).
Proof.
  unfold ratio, calculate_ratio.
  pose proof (matches_le_min a b) as Hmin.
  destruct (length a + length b =? 0) eqn:Hlen.
  - split; [done |]. split; [apply Qle_refl |]. intros _ Hne.
    apply Nat.eqb_eq in Hlen. destruct a, b; simpl in *; try lia. done.
  - apply Nat.eqb_neq in Hlen. split; [| split].
    + unfold Qle. simpl. lia.
    + assert (Hpos : Z.pos (Pos.of_nat (length a + length b))
                     = Z.of_nat (length a + length b)).
      { by rewrite <- positive_nat_Z, Nat2Pos.id. }
      unfold Qle. cbn [Qnum Qden]. rewrite Hpos. lia.
    + intros Hdisj _. rewrite (count_matches_no_common a b Hdisj). reflexivity.
Qed.

(** ** The listing of the genres *)

Lemma insert_sorted_perm (s : pystr) (l : list pystr) : insert_sorted s l ≡ₚ s :: l.
Proof.
  induction l as [|t l IH]; simpl; [done |].
  destruct (pystr_compare s t); [done | done |].
  rewrite IH. apply perm_swap.
Qed.

Lemma sorted_perm (l : list pystr) : sorted l ≡ₚ l.
Proof.
  induction l as [|s l IH]; simpl; [done |]. by rewrite insert_sorted_perm, IH.
Qed.

Lemma insert_sorted_sorted (s : pystr) (l : list pystr) :
  StronglySorted pystr_le l → StronglySorted pystr_le (insert_sorted s l).
Proof.
  induction l as [|t l IH]; simpl; intros Hl; [repeat constructor |].
  apply StronglySorted_cons in Hl as [Ht Hl].
  assert (Hle : pystr_compare s t ≠ Gt → StronglySorted pystr_le (s :: t :: l)).
  { intros Hst. apply StronglySorted_cons. split.
    - constructor; [done |]. eapply Forall_impl; [exact Ht |].
      simpl. intros x Hx. by eapply pystr_le_trans.
    - apply StronglySorted_cons. by split. }
  destruct (pystr_compare s t) eqn:Hc; [by apply Hle | by apply Hle |].
  apply StronglySorted_cons. split; [| by apply IH].
  rewrite insert_sorted_perm. constructor; [| done].
  unfold pystr_le. rewrite (pystr_compare_antisym s t), Hc. done.
Qed.

Lemma sorted_sorted (l : list pystr) : StronglySorted pystr_le (sorted l).
Proof.
  induction l as [|s l IH]; simpl; [constructor | by apply insert_sorted_sorted].
Qed.

Lemma sorted_unique (l1 l2 : list pystr) : l1 ≡ₚ l2 → sorted l1 = sorted l2.
Proof.
  intros Hperm.
  apply (StronglySorted_unique_strong pystr_le).
  - intros x y _ _ Hxy Hyx. by apply pystr_le_antisym.
  - apply sorted_sorted.
  - apply sorted_sorted.
  - by rewrite !sorted_perm.
Qed.

(** X16: the genres [main] lists, [sorted(get_all_genres(df))], are the genres
    of the vocabulary, each once, in ascending order, whatever the order in
    which the set was enumerated. *)
Theorem listing_independent_of_set_order
    (genres : gset pystr) (all_genres all_genres' : list pystr) :
  enumerates all_genres genres → enumerates all_genres' genres →
  sorted all_genres = sorted all_genres'
  ∧ StronglySorted pystr_le (sorted all_genres)
  ∧ NoDup (sorted all_genres)
  ∧ ∀ x, x ∈ sorted all_genres ↔ x ∈ genres.
Proof.
  intros [Hnd1 H1] [Hnd2 H2]. split; [| split; [| split]].
  - apply sorted_unique. apply NoDup_Permutation; [done | done |].
    intros x. by rewrite H1, H2.
  - apply sorted_sorted.
  - by rewrite sorted_perm.
  - intros x. by rewrite sorted_perm.
Qed.

Lemma listing_independent_witness :
  sorted [str "western"; str "history"; str "mystery"]
  = sorted [str "history"; str "mystery"; str "western"].
Proof.
  refine (proj1 (listing_independent_of_set_order (get_all_genres mystery_store)
                   _ _ _ _)); apply mystery_store_enumerated.
  - apply (Permutation_app_comm [str "western"] [str "history"; str "mystery"]).
  - reflexivity.
Defined.

(** ** A session *)

Lemma drop_while_all (p : ascii → bool) (s : pystr) :
  Forall (λ c, p c = true) s → drop_while p s = [].
Proof. induction 1 as [|c s Hc _ IH]; [done |]. simpl. by rewrite Hc. Qed.

Lemma strip_blank (s : pystr) : Forall (λ c, is_space c = true) s → strip s = [].
Proof. intros Hs. unfold strip. by rewrite (drop_while_all _ _ Hs). Qed.

Lemma omap_none {A B : Type} (f : A → option B) (l : list A) :
  (∀ x, x ∈ l → f x = None) → omap f l = [].
Proof.
  induction l as [|x l IH]; intros H; [done |]. cbn.
  rewrite (H x) by (by left). apply IH. intros y Hy. apply H. by right.
Qed.

Lemma space_or_comma_not_letter (c : ascii) :
  is_space c = true ∨ code c = 44 → code (lower_char c) ≠ 113 ∧ code (lower_char c) ≠ 101.
Proof.
  destruct c as [[] [] [] [] [] [] [] []]; vm_compute; intros [H | H]; try discriminate; split; discriminate.
Qed.

Lemma read_command_blank (line : pystr) :
  Forall (λ c, is_space c = true ∨ code c = 44) line →
  read_command line = NothingEntered ∨ read_command line = NoValidGenre.
Proof.
  intros Hline. rewrite Forall_forall in Hline.
  assert (Hstrip : ∀ c, c ∈ strip line → is_space c = true ∨ code c = 44).
  { intros c Hc. apply Hline. by apply (occurs_in_elem_of _ _ _ (strip_occurs_in line)). }
  unfold read_command.
  rewrite (bool_decide_eq_false_2 (lower (strip line) ∈ sentinels)).
  2:{ destruct (strip line) as [|c s] eqn:Hs.
      - vm_compute. intros H. repeat (apply elem_of_cons in H as [H | H]; [done |]).
        by apply elem_of_nil in H.
      - destruct (space_or_comma_not_letter c) as [Hq He]; [apply Hstrip; by left |].
        unfold sentinels. simpl. rewrite !elem_of_cons, elem_of_nil.
        intros [H | [H | [H | H]]]; [| | | done]; injection H as H _;
          rewrite H in Hq, He; by vm_compute in Hq, He. }
  destruct (bool_decide (strip line = [])); [by left |]. right.
  assert (Hp : parse_genres (strip line) = []); [| by rewrite Hp].
  unfold parse_genres. apply omap_none. intros part Hpart.
  rewrite bool_decide_eq_true_2; [done |]. apply strip_blank.
  apply Forall_forall. intros c Hc.
  destruct (Hstrip c) as [Hsp | Hcomma]; [| done |].
  - by apply (occurs_in_elem_of _ _ _ (split_commas_occurs_in _ _ Hpart)).
  - apply split_commas_no_comma in Hpart. rewrite Forall_forall in Hpart.
    by apply Hpart in Hc.
Qed.

Lemma session_steps (lines : list pystr) :
  Forall (λ line, lower (strip line) ∉ [str "quit"; str "exit"; str "q"]) lines →
  (∀ rest, session (lines ++ rest) = session lines ++ session rest)
  ∧ session lines
    = List.filter (λ chosen_genres, negb (bool_decide (chosen_genres = [])))
        (map (λ line, parse_genres (strip line)) lines).
Proof.
  induction 1 as [|line lines Hline _ [IH1 IH2]]; [done |].
  simpl. unfold read_command.
  rewrite (bool_decide_eq_false_2 _ Hline).
  destruct (bool_decide (strip line = [])) eqn:He.
  - apply bool_decide_eq_true in He. rewrite He. done.
  - destruct (parse_genres (strip line)) as [|g gs]; [done |]. simpl.
    split; [intros rest; by rewrite IH1 | by rewrite IH2].
Qed.

(** X17: a session, the searches made for the lines typed, stops at the first
    line that is quit, exit or q once trimmed and put in lower case: the lines
    after it are not read.  Before it, every line whose trimmed text holds a
    genre leads to one search, with the genres of the line, in the order of
    the lines; a line of whitespace and commas only leads to none.  Every
    search is made with a non-empty list of genres that are non-empty and
    trimmed. *)
Theorem session_until_quit (lines rest : list pystr) (quit : pystr) :
  Forall (λ line, lower (strip line) ∉ [str "quit"; str "exit"; str "q"]) lines →
  lower (strip quit) ∈ [str "quit"; str "exit"; str "q"] →
  session (lines ++ quit :: rest) = session lines
  ∧ session (lines ++ rest) = session lines ++ session rest
  ∧ session lines
    = List.filter (λ chosen_genres, negb (bool_decide (chosen_genres = [])))
        (map (λ line, parse_genres (strip line)) lines)
  ∧ Forall (λ chosen_genres,
              chosen_genres ≠ []
              ∧ Forall (λ g, g ≠ [] ∧ strip g = g) chosen_genres)
           (session lines)
  ∧ (∀ blank, Forall (λ c, is_space c = true ∨ code c = 44) blank →
       session (blank :: rest) = session rest)
  ∧ session [str "Action, sci fi"; []; str " , "; str " Quit "; str "drama"]
    = [[str "Action"; str "sci fi"]]
  ∧ session [str "EXIT"; str "drama"] = []
  ∧ session [str "q" ++ [ascii_of_nat 160]; str "drama"] = [].
Proof.
  intros Hlines Hquit.
  destruct (session_steps lines Hlines) as [Happ Hfilter].
  assert (Hleave : read_command quit = Leave).
  { unfold read_command. by rewrite (bool_decide_eq_true_2 _ Hquit). }
  split; [rewrite Happ; simpl; by rewrite Hleave, app_nil_r |].
  split; [apply Happ |]. split; [apply Hfilter |]. split.
  { clear Happ Hfilter. induction Hlines as [|line lines Hline _ IH]; [done |]. simpl.
    destruct (read_command line) as [| | | chosen] eqn:Hc; try done.
    constructor; [| done].
    apply read_command_lookup_inv in Hc as (_ & Hne & Hall). split; [done |].
    eapply Forall_impl; [exact Hall |]. simpl. by intros g (? & ? & _). }
  split; [| by vm_compute].
  intros blank [Hb | Hb]%read_command_blank; simpl; by rewrite Hb.
Qed.

Lemma session_until_quit_witness :
  session ([str "action"; []; str " , "] ++ str " QUIT " :: [str "comedy"])
  = session [str "action"; []; str " , "].
Proof.
  refine (proj1 (session_until_quit [str "action"; []; str " , "] [str "comedy"]
                   (str " QUIT ") _ _)).
  - repeat (apply Forall_cons_2;
              [vm_compute; intros H;
               repeat (apply elem_of_cons in H as [H | H]; [discriminate |]);
               by apply elem_of_nil in H |]).
    apply Forall_nil_2.
  - vm_compute. by left.
Defined.

(** ** Exact and unrelated candidates *)

Lemma run_0 (popular : ascii → bool) (A : pystr) : run popular A 0 = 0.
Proof. unfold run. by rewrite take_0. Qed.

Lemma run_S (popular : ascii → bool) (A : pystr) (n : nat) (x : ascii) :
  A !! n = Some x →
  run popular A (S n) = if popular x then 0 else S (run popular A n).
Proof.
  intros Hx. unfold run. rewrite (take_S_r A n x Hx), rev_app_distr. simpl.
  by destruct (popular x).
Qed.

(** Comparing a text with itself, the best block of the table lies on the
    diagonal: a block off the diagonal is a run of characters that are not
    popular, and that run was met on the diagonal before. *)
Lemma longest_row_diagonal (popular : ascii → bool) (A : pystr) (x : ascii) (i : nat) :
  A !! i = Some x →
  ∀ (b : pystr) (j2len : list nat) (diag j : nat) (best : nat * nat * nat),
    b = drop j A →
    (∀ j' k, j2len !! j' = Some k →
             k ≤ run popular A (S (j + j')) ∧ k ≤ run popular A i) →
    diag ≤ run popular A j ∧ diag ≤ run popular A i →
    (j = i → diag = run popular A i) →
    (j < i → j2len !! (i - 1 - j) = Some (run popular A i)) →
    best.1.1 = best.1.2 →
    (∀ n, n ≤ i → run popular A n ≤ best.2) →
    (i < j → run popular A (S i) ≤ best.2) →
    let '(newj2len, best') := longest_row popular x b j2len diag i j best in
    (∀ j' k, newj2len !! j' = Some k →
             k ≤ run popular A (S (j + j')) ∧ k ≤ run popular A (S i))
    ∧ (j ≤ i → newj2len !! (i - j) = Some (run popular A (S i)))
    ∧ best'.1.1 = best'.1.2
    ∧ (∀ n, n ≤ S i → run popular A n ≤ best'.2).
Proof.
  intros Hi.
  induction b as [|y b IH];
    intros j2len diag j best Hb Hrow Hdiag Hdi Hlt Hbest Hruns Hgt.
  - simpl. split; [intros j' k Hk; by rewrite lookup_nil in Hk |].
    assert (Hj : length A ≤ j).
    { destruct (decide (length A ≤ j)) as [? | Hn]; [done |].
      assert (Hlen : length (drop j A) = 0) by (by rewrite <- Hb).
      rewrite length_drop in Hlen. lia. }
    pose proof (lookup_lt_Some _ _ _ Hi). split; [lia |]. split; [done |].
    intros n Hn. destruct (decide (n = S i)) as [-> | ?]; [apply Hgt; lia | apply Hruns; lia].
  - symmetry in Hb. apply drop_cons_lookup in Hb as [Hj Hb].
    assert (Hhere : hd 0 j2len ≤ run popular A (S j) ∧ hd 0 j2len ≤ run popular A i).
    { destruct j2len as [|k0 j2len]; simpl; [lia |].
      specialize (Hrow 0 k0 eq_refl). by rewrite Nat.add_0_r in Hrow. }
    assert (Htl : ∀ j' k, tl j2len !! j' = Some k →
                    k ≤ run popular A (S (S j + j')) ∧ k ≤ run popular A i).
    { intros j' k Hk. replace (S (S j + j')) with (S (j + S j')) by lia.
      apply Hrow. destruct j2len; simpl in Hk; [by rewrite lookup_nil in Hk | done]. }
    assert (Hdi' : S j = i → hd 0 j2len = run popular A i).
    { intros <-. specialize (Hlt ltac:(lia)).
      replace (S j - 1 - j) with 0 in Hlt by lia.
      destruct j2len; [done | by injection Hlt]. }
    assert (Hlt' : S j < i → tl j2len !! (i - 1 - S j) = Some (run popular A i)).
    { intros Hji. specialize (Hlt ltac:(lia)).
      replace (i - 1 - j) with (S (i - 1 - S j)) in Hlt by lia.
      destruct j2len; [done | done]. }
    simpl. destruct (Ascii.eqb x y && negb (popular y)) eqn:Hxy.
    + apply andb_true_iff in Hxy as [Hxy Hpop]. apply Ascii.eqb_eq in Hxy as <-.
      apply negb_true_iff in Hpop.
      pose proof (run_S popular A i x Hi) as Hri. rewrite Hpop in Hri.
      pose proof (run_S popular A j x Hj) as Hrj. rewrite Hpop in Hrj.
      set (best1 := if best.2 <? diag + 1
                    then (i + 1 - (diag + 1), j + 1 - (diag + 1), diag + 1)
                    else best).
      assert (Hbest1 : best1.1.1 = best1.1.2
                       ∧ (∀ n, n ≤ i → run popular A n ≤ best1.2)
                       ∧ (i ≤ j → run popular A (S i) ≤ best1.2)).
      { unfold best1. destruct (best.2 <? diag + 1) eqn:Hup.
        - apply Nat.ltb_lt in Hup.
          destruct (Nat.lt_trichotomy j i) as [Hji | [Hji | Hji]].
          + exfalso. specialize (Hruns (S j) ltac:(lia)). lia.
          + subst j. specialize (Hdi eq_refl). simpl. split; [done |].
            split; [| lia]. intros n Hn. specialize (Hruns n Hn). lia.
          + exfalso. specialize (Hgt Hji). lia.
        - apply Nat.ltb_ge in Hup. split; [done |]. split; [done |].
          intros Hij. destruct (decide (i = j)) as [-> | Hne].
          + specialize (Hdi eq_refl). lia.
          + apply Hgt. lia. }
      destruct Hbest1 as (Hb1 & Hb2 & Hb3).
      specialize (IH (tl j2len) (hd 0 j2len) (S j) best1 Hb Htl Hhere Hdi' Hlt' Hb1 Hb2
                    ltac:(intros; apply Hb3; lia)).
      destruct (longest_row popular x b (tl j2len) (hd 0 j2len) i (S j) best1)
        as [newj2len best'].
      destruct IH as (Hrow' & Hd' & Hbd & Hr').
      split; [| split; [| done]].
      * intros [|j'] k Hk.
        -- injection Hk as <-. rewrite Nat.add_0_r. lia.
        -- replace (S (j + S j')) with (S (S j + j')) by lia. by apply Hrow'.
      * intros Hji. destruct (decide (j = i)) as [-> | Hne].
        -- rewrite Nat.sub_diag. simpl. specialize (Hdi eq_refl). f_equal. lia.
        -- replace (i - j) with (S (i - S j)) by lia. simpl. apply Hd'. lia.
    + assert (Hzero : j = i → run popular A (S i) = 0).
      { intros ->. rewrite Hi in Hj. injection Hj as <-.
        rewrite Ascii.eqb_refl in Hxy. simpl in Hxy. apply negb_false_iff in Hxy.
        by rewrite (run_S popular A i x Hi), Hxy. }
      specialize (IH (tl j2len) (hd 0 j2len) (S j) best Hb Htl Hhere Hdi' Hlt' Hbest Hruns).
      destruct (longest_row popular x b (tl j2len) (hd 0 j2len) i (S j) best)
        as [newj2len best'].
      destruct IH as (Hrow' & Hd' & Hbd & Hr').
      { intros Hij. destruct (decide (i = j)) as [-> | Hne].
        - rewrite (Hzero eq_refl). lia.
        - apply Hgt. lia. }
      split; [| split; [| done]].
      * intros [|j'] k Hk.
        -- injection Hk as <-. lia.
        -- replace (S (j + S j')) with (S (S j + j')) by lia. by apply Hrow'.
      * intros Hji. destruct (decide (j = i)) as [-> | Hne].
        -- rewrite Nat.sub_diag. simpl. by rewrite (Hzero eq_refl).
        -- replace (i - j) with (S (i - S j)) by lia. simpl. apply Hd'. lia.
Qed.

Lemma longest_rows_diagonal (popular : ascii → bool) (A : pystr) :
  ∀ (a : pystr) (i : nat) (j2len : list nat) (best : nat * nat * nat),
    a = drop i A →
    (∀ j' k, j2len !! j' = Some k →
             k ≤ run popular A (S j') ∧ k ≤ run popular A i) →
    (0 < i → j2len !! (i - 1) = Some (run popular A i)) →
    best.1.1 = best.1.2 →
    (∀ n, n ≤ i → run popular A n ≤ best.2) →
    (longest_rows popular a A j2len i best).1.1
    = (longest_rows popular a A j2len i best).1.2.
Proof.
  induction a as [|x a IH]; intros i j2len best Ha Hrow Hd Hbest Hruns; [done |].
  symmetry in Ha. apply drop_cons_lookup in Ha as [Hi Ha].
  simpl.
  pose proof (longest_row_diagonal popular A x i Hi A j2len 0 0 best eq_refl) as Hstep.
  destruct (longest_row popular x A j2len 0 i 0 best) as [newj2len best'].
  destruct Hstep as (Hrow' & Hd' & Hbest' & Hruns').
  - intros j' k Hk. by apply Hrow.
  - rewrite run_0. lia.
  - intros <-. by rewrite run_0.
  - intros Hlt. rewrite Nat.sub_0_r. by apply Hd.
  - done.
  - done.
  - lia.
  - apply IH; [done | | | done | done].
    + intros j' k Hk. by apply Hrow'.
    + intros _. rewrite Nat.sub_0_r in Hd'. simpl. rewrite Nat.sub_0_r. apply Hd'. lia.
Qed.

Lemma find_longest_match_same (popular : ascii → bool) (a : pystr) :
  find_longest_match popular a a = (0, 0, length a).
Proof.
  unfold find_longest_match.
  pose proof (longest_rows_ok popular a a a 0 [] (0, 0, 0)) as Hok.
  pose proof (longest_rows_diagonal popular a a 0 [] (0, 0, 0) eq_refl) as Hdiag.
  destruct (longest_rows popular a a [] 0 (0, 0, 0)) as [[i j] k].
  destruct Hok as (_ & _ & Hla & _ & _).
  - done.
  - intros j' k' Hk. by rewrite lookup_nil in Hk.
  - apply common_block_zero; simpl; lia.
  - simpl in Hla, Hdiag. rewrite <- Hdiag.
    + rewrite common_prefix_same, length_rev, length_take.
      replace (i - i `min` length a) with 0 by lia.
      rewrite common_prefix_same, length_drop. f_equal. lia.
    + intros j' k' Hk. by rewrite lookup_nil in Hk.
    + lia.
    + done.
    + intros n Hn. replace n with 0 by lia. by rewrite run_0.
Qed.

Lemma count_matches_nil (popular : ascii → bool) (fuel : nat) :
  count_matches fuel popular [] [] = 0.
Proof. by destruct fuel. Qed.

Lemma matches_same (a : pystr) : matches a a = length a.
Proof.
  unfold matches. generalize (bpopular a). intros popular.
  destruct a as [|c a]; [done |].
  change (count_matches (length (c :: a)) popular (c :: a) (c :: a))
    with (let '(i, j, k) := find_longest_match popular (c :: a) (c :: a) in
          if k =? 0 then 0
          else k + count_matches (length a) popular (take i (c :: a)) (take j (c :: a))
                 + count_matches (length a) popular (drop (i + k) (c :: a))
                                 (drop (j + k) (c :: a))).
  rewrite find_longest_match_same.
  change (length (c :: a) =? 0) with false. cbv iota.
  rewrite Nat.add_0_l, take_0, drop_all, !count_matches_nil. lia.
Qed.

Lemma ratio_same (a : pystr) : Qeq (ratio a a) 1.
Proof.
  unfold ratio, calculate_ratio. rewrite matches_same.
  destruct (length a + length a =? 0) eqn:Hlen; [reflexivity |].
  apply Nat.eqb_neq in Hlen.
  assert (Hpos : Z.pos (Pos.of_nat (length a + length a))
                 = Z.of_nat (length a + length a)).
  { by rewrite <- positive_nat_Z, Nat2Pos.id. }
  unfold Qeq. cbn [Qnum Qden]. rewrite Hpos. lia.
Qed.

Lemma sublist_length_eq {A : Type} (l1 l2 : list A) :
  l1 `sublist_of` l2 → length l2 ≤ length l1 → l1 = l2.
Proof.
  induction 1 as [| x l1 l2 Hsub IH | x l1 l2 Hsub IH]; simpl; intros Hlen.
  - done.
  - f_equal. apply IH. lia.
  - apply sublist_length in Hsub. lia.
Qed.

Lemma ratio_one (a b : pystr) : Qle 1 (ratio a b) → a = b.
Proof.
  unfold ratio, calculate_ratio, matches.
  destruct (count_matches_common (bpopular b) (length a) a b) as (m & Hma & Hmb & <-).
  destruct (length a + length b =? 0) eqn:Hlen.
  - intros _. apply Nat.eqb_eq in Hlen. destruct a, b; simpl in *; try lia. done.
  - apply Nat.eqb_neq in Hlen.
    assert (Hpos : Z.pos (Pos.of_nat (length a + length b))
                   = Z.of_nat (length a + length b)).
    { by rewrite <- positive_nat_Z, Nat2Pos.id. }
    unfold Qle. cbn [Qnum Qden]. rewrite Hpos. intros Hle.
    pose proof (sublist_length _ _ Hma). pose proof (sublist_length _ _ Hmb).
    rewrite <- (sublist_length_eq m a) by (done || lia).
    apply sublist_length_eq; [done | lia].
Qed.

Lemma get_close_matches_exact (word : pystr) (possibilities : list pystr)
    (n : nat) (cutoff : Q) :
  word ∈ possibilities → 0 < n → Qle cutoff 1 →
  get_close_matches word possibilities n cutoff !! 0 = Some word.
Proof.
  intros Hword Hn Hcut.
  assert (Hin : (ratio word word, word)
                ∈ sort_desc (scored_candidates word possibilities cutoff)).
  { apply scored_elem_of. split; [done |]. split; [done |]. simpl. rewrite ratio_same. exact Hcut. }
  apply get_close_matches_lookup. split; [done |].
  apply list_elem_of_lookup_1 in Hin as [k Hk].
  destruct k as [|k]; [done |].
  destruct (sort_desc (scored_candidates word possibilities cutoff) !! 0)
    as [[r x]|] eqn:Hhead.
  - assert (Hx : (r, x) = (ratio x word, x)).
    { apply list_elem_of_lookup_2, scored_elem_of in Hhead as [Hp _]. done. }
    injection Hx as ->.
    pose proof (StronglySorted_lookup _ _ 0 (S k) _ _
                  (sort_desc_sorted _) (Nat.lt_0_succ k) Hhead Hk) as Hle.
    assert (Heq : x = word); [| by rewrite Heq].
    apply ratio_one. rewrite <- (ratio_same word).
    destruct Hle as [Hlt | [Heq _]]; simpl in *; [by apply Qlt_le_weak |].
    rewrite Heq. apply Qle_refl.
  - apply lookup_ge_None in Hhead. apply lookup_lt_Some in Hk. lia.
Qed.

(** X20: a chosen genre whose lowercase form is in the vocabulary has
    suggestions, and that form is the first of them. *)
Theorem listed_genre_is_first_suggestion
    (chosen_genres all_genres : list pystr) (genre : pystr) :
  genre ∈ chosen_genres → lower genre ∈ all_genres →
  ∃ others,
    get_genre_suggestions chosen_genres all_genres default_cutoff !! genre
    = Some (lower genre :: others).
Proof.
  intros Hgenre Hlisted.
  pose proof (get_close_matches_exact (lower genre) all_genres 3 default_cutoff
                Hlisted ltac:(lia) ltac:(done)) as Hfirst.
  rewrite get_genre_suggestions_lookup, bool_decide_eq_true_2 by done.
  destruct (get_close_matches (lower genre) all_genres 3 default_cutoff)
    as [|x others]; [done |].
  injection Hfirst as ->. by exists others.
Qed.

Lemma listed_genre_is_first_suggestion_witness :
  ∃ others,
    get_genre_suggestions [str "Mystery"]
      [str "history"; str "mystery"; str "western"] default_cutoff !! str "Mystery"
    = Some (lower (str "Mystery") :: others).
Proof.
  apply listed_genre_is_first_suggestion.
  - apply list_elem_of_singleton. reflexivity.
  - apply elem_of_cons. right. apply elem_of_cons. left. reflexivity.
Defined.

(** X21: a non-empty chosen genre whose lowercase form has no character in
    common with any genre of the vocabulary gets no entry in the suggestions. *)
Theorem unrelated_genre_has_no_suggestion
    (chosen_genres all_genres : list pystr) (genre : pystr) :
  genre ≠ [] →
  (∀ x c, x ∈ all_genres → c ∈ x → c ∉ lower genre) →
  get_genre_suggestions chosen_genres all_genres default_cutoff !! genre = None.
Proof.
  intros Hne Hdisj. rewrite get_genre_suggestions_lookup.
  destruct (get_close_matches (lower genre) all_genres 3 default_cutoff)
    as [|x others] eqn:Hm; [by rewrite andb_false_r |].
  exfalso.
  assert (Hx : x ∈ get_close_matches (lower genre) all_genres 3 default_cutoff).
  { rewrite Hm. by left. }
  apply get_close_matches_sound in Hx as [Hx Hr].
  destruct (ratio_bounds x (lower genre)) as (_ & _ & Hzero).
  rewrite Hzero in Hr; [done | intros c; by apply Hdisj |].
  destruct genre; [done |]. by destruct x.
Qed.

Lemma unrelated_genre_witness :
  get_genre_suggestions [str "xyz"] [str "war"] default_cutoff !! str "xyz" = None.
Proof.
  apply unrelated_genre_has_no_suggestion; [discriminate |].
  intros x c ->%list_elem_of_singleton Hc Hg.
  repeat (apply elem_of_cons in Hc as [-> | Hc];
          [repeat (apply elem_of_cons in Hg as [Hg | Hg]; [discriminate |]);
           by apply elem_of_nil in Hg |]).
  by apply elem_of_nil in Hc.
Defined.

(** X22: when no row of a loaded store matches the chosen genres, the
    suggestions are given for chosen genres only; each list has between one
    and three distinct genres of a score of at least 0.6, and every suggested
    genre, searched for in its turn, selects at least one row. *)
Theorem suggested_genres_find_movies
    (csv_file : file_state) (df : list row)
    (all_genres : list pystr) (perm : list nat) (chosen_genres : list pystr)
    (num_recommendations : nat) (suggestions : gmap pystr (list pystr)) :
  load_and_clean_movies csv_file = Some df →
  enumerates all_genres (get_all_genres df) →
  recommend_movies all_genres perm df chosen_genres num_recommendations
    = NoMatch suggestions →
  filter_movies_by_genres df chosen_genres = []
  ∧ ∀ genre matches,
      suggestions !! genre = Some matches →
      genre ∈ chosen_genres
      ∧ matches ≠ [] ∧ length matches ≤ 3 ∧ NoDup matches
      ∧ Forall (λ x, Qle default_cutoff (ratio x (lower genre))
                     ∧ filter_movies_by_genres df [x] ≠ []) matches.
Proof.
  intros Hload [Hnd Henum]. unfold recommend_movies.
  destruct (filter_movies_by_genres df chosen_genres) as [|r0 rows] eqn:Hf; [| done].
  intros [= <-]. split; [done |]. intros genre matches.
  rewrite get_genre_suggestions_lookup.
  destruct (bool_decide (genre ∈ chosen_genres)) eqn:Hg; [| done].
  apply bool_decide_eq_true in Hg.
  destruct (bool_decide (get_close_matches (lower genre) all_genres 3 default_cutoff = []))
    eqn:He; [done |].
  apply bool_decide_eq_false in He. simpl. intros [= <-].
  split; [done |]. split; [done |].
  split; [apply get_close_matches_length |].
  split; [by apply get_close_matches_NoDup |].
  apply Forall_forall. intros x [Hx Hr]%get_close_matches_sound. split; [done |].
  eapply get_all_genres_filter; [exact Hload | by apply Henum].
Qed.

Lemma suggested_genres_find_movies_witness :
  filter_movies_by_genres mystery_store [str "mstery"] = []
  ∧ ∀ genre matches,
      get_genre_suggestions [str "mstery"]
        [str "history"; str "mystery"; str "western"] default_cutoff !! genre
      = Some matches →
      genre ∈ [str "mstery"]
      ∧ matches ≠ [] ∧ length matches ≤ 3 ∧ NoDup matches
      ∧ Forall (λ x, Qle default_cutoff (ratio x (lower genre))
                     ∧ filter_movies_by_genres mystery_store [x] ≠ []) matches.
Proof.
  apply (suggested_genres_find_movies (Stored mystery_read) mystery_store
           [str "history"; str "mystery"; str "western"] [] [str "mstery"] 5).
  - reflexivity.
  - apply mystery_store_enumerated. reflexivity.
  - reflexivity.
Defined.

(** ** Popular characters *)

(** A query of 200 characters or more: those of its characters that occur
    more than [length / 100 + 1] times start no block, so that the character
    in the middle of the candidate cuts the common text in two and only one
    half is found.  With a shorter query both halves are found. *)
Example ratio_popular_characters :
  Qeq_bool (ratio (concat (repeat (str "ab") 50) ++ "c"%char
                     :: concat (repeat (str "ab") 50))
                  (concat (repeat (str "ab") 100)))
           (200 # 401) = true
  ∧ Qeq_bool (ratio (concat (repeat (str "ab") 50) ++ "c"%char
                       :: concat (repeat (str "ab") 49))
                    (concat (repeat (str "ab") 99)))
             (396 # 397) = true.
Proof. split; vm_compute; reflexivity. Qed.

(** ** The order of the vocabulary *)

Lemma filter_Permutation {A : Type} (f : A → bool) (l1 l2 : list A) :
  l1 ≡ₚ l2 → List.filter f l1 ≡ₚ List.filter f l2.
Proof.
  induction 1 as [| x l1 l2 _ IH | x y l | l1 l2 l3 _ IH1 _ IH2]; simpl.
  - done.
  - destruct (f x); [by constructor | done].
  - destruct (f x), (f y); try done. apply perm_swap.
  - by etrans.
Qed.

Lemma sort_desc_unique (word : pystr) (l1 l2 : list pystr) :
  l1 ≡ₚ l2 →
  sort_desc (map (λ x, (ratio x word, x)) l1)
  = sort_desc (map (λ x, (ratio x word, x)) l2).
Proof.
  intros Hperm. apply (StronglySorted_unique_strong (flip scored_le)).
  - intros p q Hp Hq Hpq Hqp.
    rewrite sort_desc_perm in Hp, Hq.
    apply list_elem_of_fmap in Hp as (x & -> & _), Hq as (y & -> & _).
    assert (Hxy : x = y); [| by rewrite Hxy].
    unfold flip, scored_le in Hpq, Hqp. simpl in *.
    destruct Hpq as [Hlt | [Heq Hle]].
    + exfalso. destruct Hqp as [Hlt' | [Heq' _]].
      * exact (Qlt_irrefl _ (Qlt_trans _ _ _ Hlt Hlt')).
      * rewrite Heq' in Hlt. by apply Qlt_irrefl in Hlt.
    + destruct Hqp as [Hlt' | [_ Hle']].
      * exfalso. rewrite Heq in Hlt'. by apply Qlt_irrefl in Hlt'.
      * by apply pystr_le_antisym.
  - apply sort_desc_sorted.
  - apply sort_desc_sorted.
  - rewrite !sort_desc_perm. by apply fmap_Permutation.
Qed.

Lemma get_close_matches_Permutation (word : pystr) (l1 l2 : list pystr)
    (n : nat) (cutoff : Q) :
  l1 ≡ₚ l2 → get_close_matches word l1 n cutoff = get_close_matches word l2 n cutoff.
Proof.
  intros Hperm. unfold get_close_matches, nlargest.
  by rewrite (sort_desc_unique word _ _ (filter_Permutation _ _ _ Hperm)).
Qed.

(** X23: the suggestions, and with them what [recommend_movies] shows, are
    the same whatever the order in which the set of genres was enumerated. *)
Theorem suggestions_independent_of_set_order
    (genres : gset pystr) (all_genres all_genres' : list pystr)
    (perm : list nat) (df : list row) (chosen_genres : list pystr)
    (num_recommendations : nat) (cutoff : Q) :
  enumerates all_genres genres → enumerates all_genres' genres →
  get_genre_suggestions chosen_genres all_genres cutoff
  = get_genre_suggestions chosen_genres all_genres' cutoff
  ∧ recommend_movies all_genres perm df chosen_genres num_recommendations
    = recommend_movies all_genres' perm df chosen_genres num_recommendations.
Proof.
  intros [Hnd H] [Hnd' H'].
  assert (Hperm : all_genres ≡ₚ all_genres').
  { apply NoDup_Permutation; [done | done |]. intros x. by rewrite H, H'. }
  assert (Hs : ∀ cutoff, get_genre_suggestions chosen_genres all_genres cutoff
                         = get_genre_suggestions chosen_genres all_genres' cutoff).
  { intros c. apply map_eq. intros genre. rewrite !get_genre_suggestions_lookup.
    by rewrite (get_close_matches_Permutation _ _ _ 3 c Hperm). }
  split; [apply Hs |]. unfold recommend_movies.
  destruct (filter_movies_by_genres df chosen_genres); [| done]. by rewrite Hs.
Qed.

Lemma suggestions_independent_witness :
  get_genre_suggestions [str "mstery"]
    [str "western"; str "history"; str "mystery"] default_cutoff
  = get_genre_suggestions [str "mstery"]
      [str "history"; str "mystery"; str "western"] default_cutoff.
Proof.
  refine (proj1 (suggestions_independent_of_set_order (get_all_genres mystery_store)
                   _ _ [] mystery_store _ 5 _ _ _)); apply mystery_store_enumerated.
  - apply (Permutation_app_comm [str "western"] [str "history"; str "mystery"]).
  - reflexivity.
Defined.

(** ** The store of the recommendation loop *)

(** X24: when [main] reaches the recommendation loop, the store is not
    empty, its (title, year) pairs are pairwise distinct, and every row has a
    title and a genre in lower case and without spaces.  The store is the
    cleaned frame of the file found, when that file had rows; only when no
    file was found, or it could not be read or had no rows, is the page
    scraped, and the store is then the cleaned frame of the file written. *)
Theorem load_data_ready (saved_as : list movie → file_state) (file : file_state)
    (page : option (list element)) (df : list row) :
  load_data saved_as file page = Some df →
  df ≠ []
  ∧ NoDup (map row_key df)
  ∧ Forall (λ r, row_title r ≠ NaN
                 ∧ ∃ g, row_genre r = Some g ∧ remove_spaces (lower g) = g) df
  ∧ ((∃ rows, file = Stored rows ∧ rows ≠ [] ∧ df = clean rows)
     ∨ ((file = Missing ∨ file = Unreadable ∨ file = Stored [])
        ∧ ∃ all_elements saved rows,
            page = Some all_elements
            ∧ scrape_wikipedia_best_movies all_elements = Some saved
            ∧ saved_as saved = Stored rows
            ∧ df = clean rows)).
Proof.
  unfold load_data. intros Hdf.
  destruct (data_setup saved_as file page) as [file'|] eqn:Hsetup; [| done].
  destruct (load_and_clean_movies file') as [[|r rows]|] eqn:Hload; try done.
  injection Hdf as <-.
  pose proof Hload as (rows' & -> & Hne & Hclean)%load_and_clean_movies_Some.
  split; [done |]. split; [rewrite Hclean; apply drop_duplicates_NoDup |]. split.
  { apply Forall_forall. intros x Hx. rewrite Hclean in Hx.
    apply clean_rows in Hx as (r0 & g & Hr0 & Ht & Hg & ->). simpl.
    split; [done |]. exists (normalize_genre g). split; [done |].
    apply normalize_genre_idemp. }
  assert (Hscrape : (match page with
                     | None => None
                     | Some all_elements =>
                         saved_as <$> scrape_wikipedia_best_movies all_elements
                     end) = Some (Stored rows') →
                    ∃ all_elements saved rows0,
                      page = Some all_elements
                      ∧ scrape_wikipedia_best_movies all_elements = Some saved
                      ∧ saved_as saved = Stored rows0
                      ∧ r :: rows = clean rows0).
  { destruct page as [all_elements|]; [| done].
    destruct (scrape_wikipedia_best_movies all_elements) as [saved|] eqn:Hsaved; [| done].
    intros [= Heq]. by exists all_elements, saved, rows'. }
  unfold data_setup in Hsetup. destruct file as [| | | stored].
  - right. split; [by left |]. by apply Hscrape.
  - right. split; [right; by left |]. by apply Hscrape.
  - done.
  - destruct stored as [|l ls].
    + right. split; [right; by right |]. by apply Hscrape.
    + left. exists (l :: ls). injection Hsetup as <-. done.
Qed.

Lemma load_data_ready_witness :
  mystery_store ≠ [] ∧ NoDup (map row_key mystery_store).
Proof.
  destruct (load_data_ready (λ _, Missing) (Stored mystery_read) None
              mystery_store eq_refl)
    as (Hne & Hnd & _).
  exact (conj Hne Hnd).
Defined.
